(** * Medoo for Node.js: the query compiler and the result mapper

    A shallow embedding of [src/medoo.js] (class [Medoo]): the identifier
    quoter ([tableQuote], [columnQuote]), the condition compiler
    ([dataImplode], [innerConjunct]), the clause assembler ([whereClause]),
    the projection compiler ([columnPush]), the join builder ([buildJoin]),
    the statement ([selectContext]), the first statements of [get] and the
    result mapper ([dataMap]); then the statements of [insert], [update],
    [delete], [replace], [has] and the aggregates, the conversion of the
    named parameters in [exec], the column map ([columnMap]), the rows
    that [select] and [get] return and the chunks of [parallelSelect];
    followed by the properties of the specification that concern them and
    by further properties of the code.

    Conventions of the embedding.
    - A JavaScript string is a [string]: a sequence of code units below 256.
      All character classes of the source are ASCII classes.
    - A JavaScript number is an integer [Z] (the exact range of a double);
      fractions, NaN and the infinities are outside the model.
    - A plain object is the list of its own properties in [Object.entries]
      order; property names that are array indices are not reordered.  The
      arrays that [dataMap] fills with named properties are such lists.
    - Each regular expression of the source is a function on strings that
      follows its structure: a greedy class repetition is the longest run
      of the class, an unanchored pattern is tried at every position from
      the left.
    - A function that updates [this.guid] and the parameter object [map] is
      a computation in the monad [M]; [throw] is the outcome [Throw], with
      the state reached when the exception is raised.
    - What the source takes from its environment is a section variable:
      the placeholder rewriting of [buildRaw], the driver's [escape],
      [JSON.parse], [JSON.stringify], [parseFloat] and [parseInt].  The
      rows and the count that the driver returns are arguments of the
      functions that read them.
    - A method that awaits the driver is embedded up to the statement and
      the parameters it hands to [exec], and from the rows it gets back. *)

From Stdlib Require Import String Ascii List ZArith Lia Bool Arith.
From Stdlib Require Import Decimal DecimalString DecimalNat.
Import ListNotations.

Open Scope list_scope.
Open Scope string_scope.

(** ** Strings and character classes *)

Module Str.

Definition code (c : ascii) : nat := nat_of_ascii c.

Definition between (lo hi : nat) (c : ascii) : bool :=
  (lo <=? code c)%nat && (code c <=? hi)%nat.

(** [0-9], also [\d]. *)
Definition is_digit (c : ascii) : bool := between 48 57 c.

(** [a-zA-Z] *)
Definition is_alpha (c : ascii) : bool := between 65 90 c || between 97 122 c.

(** [a-zA-Z0-9_]; the [i] flag adds no code unit to this class. *)
Definition is_word (c : ascii) : bool :=
  is_alpha c || is_digit c || Ascii.eqb c "_".

(** [\s] restricted to code units below 256. *)
Definition is_space (c : ascii) : bool :=
  between 9 13 c || Ascii.eqb c " " || (code c =? 160)%nat.

(** Line terminators: the code units [.] does not match. *)
Definition is_newline (c : ascii) : bool :=
  (code c =? 10)%nat || (code c =? 13)%nat.

Definition is_empty (s : string) : bool :=
  match s with EmptyString => true | String _ _ => false end.

(** The longest prefix whose characters satisfy [p], and what follows it:
    a greedy [[class]*] that is followed by something outside the class. *)
Fixpoint span (p : ascii -> bool) (s : string) : string * string :=
  match s with
  | EmptyString => (EmptyString, EmptyString)
  | String c s' =>
      if p c then let (a, r) := span p s' in (String c a, r)
      else (EmptyString, s)
  end.

Fixpoint all (p : ascii -> bool) (s : string) : bool :=
  match s with
  | EmptyString => true
  | String c s' => p c && all p s'
  end.

Fixpoint any (p : ascii -> bool) (s : string) : bool :=
  match s with
  | EmptyString => false
  | String c s' => p c || any p s'
  end.

(** [s.includes(c)] for a one-character needle. *)
Definition includes (c : ascii) (s : string) : bool := any (Ascii.eqb c) s.

(** [s.replace(c, by)] with a one-character string pattern: only the first
    occurrence is replaced. *)
Fixpoint replace_first (c : ascii) (by_ : string) (s : string) : string :=
  match s with
  | EmptyString => EmptyString
  | String d s' =>
      if Ascii.eqb d c then by_ ++ s' else String d (replace_first c by_ s')
  end.

(** [stack.join(sep)] on a list of strings. *)
Fixpoint join (sep : string) (l : list string) : string :=
  match l with
  | [] => EmptyString
  | [x] => x
  | x :: l' => x ++ sep ++ join sep l'
  end.

(** An unanchored regular expression tries every start position from the
    left; [p] is the match attempt at one position. *)
Fixpoint search {A} (p : string -> option A) (s : string) : option A :=
  match p s with
  | Some a => Some a
  | None =>
      match s with
      | EmptyString => None
      | String _ s' => search p s'
      end
  end.

(** Decimal numeral of a natural number: template-literal conversion of a
    non-negative integer. *)
Definition of_nat (n : nat) : string :=
  NilEmpty.string_of_uint (Nat.to_uint n).

(** Decimal numeral of an integer. *)
Definition of_Z (z : Z) : string :=
  NilZero.string_of_int (Z.to_int z).

Definition dq : string := String (ascii_of_nat 34) EmptyString.

End Str.

(** ** Outcomes *)

(** The exceptions of the compiler.  The first three are the [Error]s the
    source throws itself (told apart by their message); [TypeError] is
    raised by the runtime on a property access on [null] or [undefined]
    or on a call of a method the receiver does not have. *)
Inductive error : Type :=
| IncorrectTableName (name : string)
| IncorrectColumnName (name : string)
| WildcardWhileJoining
| TypeError.

Inductive res (A : Type) : Type :=
| Ok (a : A)
| Throw (e : error).
Arguments Ok {A} a.
Arguments Throw {A} e.

(** ** Identifier quoter (lines 101-120) *)

Section Quoter.

(** [this.prefix] *)
Variable prefix : string.

(** [/^[a-zA-Z0-9_]+$/i.test(table)] *)
Definition re_table (s : string) : bool :=
  let (run, rest) := Str.span Str.is_word s in
  negb (Str.is_empty run) && Str.is_empty rest.

(** [/^[a-zA-Z0-9_]+(\.[a-zA-Z0-9_]+)?$/i.test(string)] *)
Definition re_column (s : string) : bool :=
  let (a, rest) := Str.span Str.is_word s in
  negb (Str.is_empty a) &&
  match rest with
  | EmptyString => true
  | String c rest' =>
      Ascii.eqb c "." &&
      (let (b, rest'') := Str.span Str.is_word rest' in
       negb (Str.is_empty b) && Str.is_empty rest'')
  end.

Definition tableQuote (table : string) : res string :=
  if negb (re_table table) then Throw (IncorrectTableName table)
  else Ok (Str.dq ++ prefix ++ table ++ Str.dq).

Definition columnQuote (string_ : string) : res string :=
  if negb (re_column string_) then Throw (IncorrectColumnName string_)
  else if Str.includes "." string_ then
    Ok (Str.dq ++ prefix
          ++ Str.replace_first "." (Str.dq ++ "." ++ Str.dq) string_ ++ Str.dq)
  else Ok (Str.dq ++ string_ ++ Str.dq).

End Quoter.

(** *** The quoter as the specification words it *)

Module QuoterSpec.

(** [name] matches [^[A-Za-z0-9_]+$]: it is not empty and all its
    characters are letters, digits or underscores. *)
Definition ident (name : string) : bool :=
  negb (Str.is_empty name) && Str.all Str.is_word name.

(** The segments of a reference between its dots: the first one and the
    list of the others. *)
Fixpoint segments (s : string) : string * list string :=
  match s with
  | EmptyString => (EmptyString, [])
  | String c s' =>
      let (h, t) := segments s' in
      if Ascii.eqb c "." then (EmptyString, h :: t) else (String c h, t)
  end.

Definition quoted (s : string) : string := Str.dq ++ s ++ Str.dq.

Definition quoteTable (prefix name : string) : res string :=
  if ident name then Ok (quoted (prefix ++ name))
  else Throw (IncorrectTableName name).

Definition quoteColumn (prefix ref : string) : res string :=
  match segments ref with
  | (col, []) =>
      if ident col then Ok (quoted col) else Throw (IncorrectColumnName ref)
  | (tbl, [col]) =>
      if ident tbl && ident col
      then Ok (Str.join "." [quoted (prefix ++ tbl); quoted col])
      else Throw (IncorrectColumnName ref)
  | _ => Throw (IncorrectColumnName ref)
  end.

End QuoterSpec.

(** ** Values *)

Set Warnings "-register-all".

(** JavaScript values as the compiler meets them.  [VRaw] is an instance of
    the class [Raw] (lines 13-18) with its fields [value] and [map]. *)
Inductive value : Type :=
| VUndef
| VNull
| VBool (b : bool)
| VNum (n : Z)
| VStr (s : string)
| VArr (items : list value)
| VObj (props : list (string * value))
| VRaw (text : string) (map : list (string * value)).

Definition props : Type := list (string * value).

Module Js.

(** [typeof v === 'object'] *)
Definition is_object (v : value) : bool :=
  match v with
  | VNull | VArr _ | VObj _ | VRaw _ _ => true
  | _ => false
  end.

(** [v instanceof Raw], the method [isRaw] (lines 92-94) *)
Definition isRaw (v : value) : bool :=
  match v with VRaw _ _ => true | _ => false end.

(** Conversion to a condition: [if (v)], [v || w], [Boolean(v)]. *)
Definition truthy (v : value) : bool :=
  match v with
  | VUndef | VNull => false
  | VBool b => b
  | VNum n => negb (n =? 0)%Z
  | VStr s => negb (Str.is_empty s)
  | VArr _ | VObj _ | VRaw _ _ => true
  end.

(** Conversion to a string: template literals, [String(v)], [join] and
    the argument of [RegExp.prototype.test]. *)
Fixpoint to_string (v : value) : string :=
  match v with
  | VUndef => "undefined"
  | VNull => "null"
  | VBool true => "true"
  | VBool false => "false"
  | VNum n => Str.of_Z n
  | VStr s => s
  | VArr items =>
      Str.join ","
        (List.map (fun x => match x with
                            | VUndef | VNull => EmptyString
                            | _ => to_string x
                            end) items)
  | VObj _ | VRaw _ _ => "[object Object]"
  end.

(** The elements of an array under their index keys, from index [i] on. *)
Fixpoint indexed (i : nat) (items : list value) : props :=
  match items with
  | [] => []
  | v :: items' => (Str.of_nat i, v) :: indexed (S i) items'
  end.

(** The characters of a string under their index keys. *)
Fixpoint chars (i : nat) (s : string) : props :=
  match s with
  | EmptyString => []
  | String c s' => (Str.of_nat i, VStr (String c EmptyString)) :: chars (S i) s'
  end.

(** Own enumerable properties in [Object.entries] order. *)
Definition own (v : value) : props :=
  match v with
  | VStr s => chars 0 s
  | VArr items => indexed 0 items
  | VObj ps => ps
  | VRaw text m => [("value", VStr text); ("map", VObj m)]
  | _ => []
  end.

(** [Object.entries(v)]: a [TypeError] on [null] and [undefined]. *)
Definition entries (v : value) : res props :=
  match v with
  | VUndef | VNull => Throw TypeError
  | _ => Ok (own v)
  end.

Fixpoint lookup (k : string) (ps : props) : option value :=
  match ps with
  | [] => None
  | (k', v) :: ps' => if String.eqb k' k then Some v else lookup k ps'
  end.

(** [o[k]] on the property list of an object: [undefined] when absent. *)
Definition field (k : string) (ps : props) : value :=
  match lookup k ps with Some v => v | None => VUndef end.

(** [items[i]] *)
Definition nth (i : nat) (items : list value) : value :=
  List.nth i items VUndef.

(** [o[k] = v]: an existing property keeps its place, a new one comes
    last. *)
Fixpoint set (k : string) (v : value) (ps : props) : props :=
  match ps with
  | [] => [(k, v)]
  | (k', v') :: ps' =>
      if String.eqb k' k then (k, v) :: ps' else (k', v') :: set k v ps'
  end.

(** [delete o[k]] *)
Fixpoint delete (k : string) (ps : props) : props :=
  match ps with
  | [] => []
  | (k', v) :: ps' =>
      if String.eqb k' k then delete k ps' else (k', v) :: delete k ps'
  end.

(** [Object.assign(target, source)] *)
Definition assign (target source : props) : props :=
  List.fold_left (fun t kv => set (fst kv) (snd kv) t) source target.

(** [/^\d+$/.test(key)] *)
Definition isIntKey (key : string) : bool :=
  negb (Str.is_empty key) && Str.all Str.is_digit key.

End Js.

(** ** The compilation state and its monad *)

(** What one compilation updates in place: the counter [this.guid] and the
    parameter object [map] that every method receives by reference. *)
Record cstate : Type := mkState { guid : nat; pmap : props }.

Definition M (A : Type) : Type := cstate -> res A * cstate.

Definition ret {A} (a : A) : M A := fun st => (Ok a, st).

Definition throw {A} (e : error) : M A := fun st => (Throw e, st).

Definition bind {A B} (m : M A) (k : A -> M B) : M B :=
  fun st =>
    match m st with
    | (Ok a, st') => k a st'
    | (Throw e, st') => (Throw e, st')
    end.

Definition lift {A} (r : res A) : M A := fun st => (r, st).

Notation "x <- m ;; k" := (bind m (fun x => k))
  (at level 61, m at next level, right associativity).
Notation "m ;;; k" := (bind m (fun _ => k))
  (at level 61, right associativity).

(** [map[k] = v] *)
Definition bindParam (k : string) (v : value) : M unit :=
  fun st => (Ok tt, mkState (guid st) (Js.set k v (pmap st))).

(** The parameter name of the counter value [g]:
    [`:medoo_${g}_param`] *)
Definition paramName (g : nat) : string :=
  ":medoo_" ++ Str.of_nat g ++ "_param".

(** [mapKey()] (lines 97-99): the name of the current counter value, and
    the counter incremented. *)
Definition mapKey : M string :=
  fun st => (Ok (paramName (guid st)), mkState (S (guid st)) (pmap st)).

(** A loop that pushes fragments on [stack] for each entry in turn. *)
Fixpoint for_entries (f : string -> value -> M (list string)) (es : props)
  : M (list string) :=
  match es with
  | [] => ret []
  | (k, v) :: es' =>
      a <- f k v ;; b <- for_entries f es' ;; ret (a ++ b)%list
  end.

(** The same loop over the elements of an array, whose keys are their
    indices from [i] on. *)
Fixpoint for_items (f : string -> value -> M (list string)) (i : nat)
  (items : list value) : M (list string) :=
  match items with
  | [] => ret []
  | v :: items' =>
      a <- f (Str.of_nat i) v ;; b <- for_items f (S i) items' ;;
      ret (a ++ b)%list
  end.

(** [array.forEach((item, index) => ...)] for its effects. *)
Fixpoint forEach (f : value -> nat -> M unit) (i : nat) (items : list value)
  : M unit :=
  match items with
  | [] => ret tt
  | v :: items' => f v i ;;; forEach f (S i) items'
  end.

(** [typeMap(value, typeof value)] (lines 123-131) *)
Definition typeMap (v : value) : value :=
  match v with
  | VBool true => VStr "1"
  | VBool false => VStr "0"
  | _ => v
  end.

(** ** The patterns of the condition grammar *)

Module Re.

(** Splits [s] at its first [c]: what precedes it and what follows it. *)
Fixpoint until (c : ascii) (s : string) : option (string * string) :=
  match s with
  | EmptyString => None
  | String d s' =>
      if Ascii.eqb d c then Some (EmptyString, s')
      else match until c s' with
           | Some (a, r) => Some (String d a, r)
           | None => None
           end
  end.

(** [s] without its prefix [pre], when it has it. *)
Fixpoint starts (pre s : string) : option string :=
  match pre with
  | EmptyString => Some s
  | String c pre' =>
      match s with
      | String d s' => if Ascii.eqb c d then starts pre' s' else None
      | EmptyString => None
      end
  end.

(** [/^(AND|OR)/]: the keyword and what follows it. *)
Definition logical_head (key : string) : option (string * string) :=
  match starts "AND" key with
  | Some r => Some ("AND", r)
  | None =>
      match starts "OR" key with
      | Some r => Some ("OR", r)
      | None => None
      end
  end.

(** The test of a logical key: [^(AND|OR)] followed by the end of the key,
    or by [\s+#] and characters other than line terminators up to the end
    of the key. *)
Definition logical (key : string) : bool :=
  match logical_head key with
  | None => false
  | Some (_, EmptyString) => true
  | Some (_, rest) =>
      let (ws, r) := Str.span Str.is_space rest in
      negb (Str.is_empty ws) &&
      match r with
      | String c comment =>
          Ascii.eqb c "#" && negb (Str.any Str.is_newline comment)
      | EmptyString => false
      end
  end.

(** [key.match(/^(AND|OR)/)[1]] for a key that passed [logical]. *)
Definition relationship (key : string) : string :=
  match logical_head key with
  | Some (w, _) => w
  | None => EmptyString
  end.

(** [a-zA-Z0-9_\.] *)
Definition is_ref (c : ascii) : bool := Str.is_word c || Ascii.eqb c ".".

(** [a-zA-Z0-9_\.\(\)\*] *)
Definition is_key (c : ascii) : bool :=
  is_ref c || Ascii.eqb c "(" || Ascii.eqb c ")" || Ascii.eqb c "*".

Definition mem (s : string) (l : list string) : bool :=
  List.existsb (String.eqb s) l.

(** Upper case of an ASCII letter: the comparison of the [i] flag. *)
Definition upper (c : ascii) : ascii :=
  if Str.between 97 122 c then ascii_of_nat (Str.code c - 32) else c.

Fixpoint upcase (s : string) : string :=
  match s with
  | EmptyString => EmptyString
  | String c s' => String (upper c) (upcase s')
  end.

(** A bracketed operator at the head of [s]: [\[(op)\]] where [op] is one
    of [ops]; none of them contains a closing bracket, so [op] is the text
    up to the first one.  The word operators of [words] are compared
    without regard to case, and captured as written. *)
Definition bracket (ops words : list string) (s : string)
  : option (string * string) :=
  match s with
  | String c s' =>
      if Ascii.eqb c "[" then
        match until "]" s' with
        | Some (op, r) =>
            if mem op ops || mem (upcase op) words then Some (op, r) else None
        | None => None
        end
      else None
  | EmptyString => None
  end.

(** The operators of a column comparison: [\>\=?|\<\=?|\!?\=] *)
Definition cmp_ops : list string := [">"; ">="; "<"; "<="; "="; "!="].

(** The operators of a condition key:
    [\>\=?|\<\=?|\!|\<\>|\>\<|\!?~|REGEXP] *)
Definition key_ops : list string :=
  [">"; ">="; "<"; "<="; "!"; "<>"; "><"; "~"; "!~"].

(** One attempt of
    [/([a-zA-Z0-9_\.]+)\[(?<operator>\>\=?|\<\=?|\!?\=)\]([a-zA-Z0-9_\.]+)/i]
    at the head of [s]: groups 1, [operator] and 3. *)
Definition cmp_at (s : string) : option (string * string * string) :=
  let (l, r) := Str.span is_ref s in
  if Str.is_empty l then None
  else match bracket cmp_ops [] r with
       | Some (op, r') =>
           let (rhs, _) := Str.span is_ref r' in
           if Str.is_empty rhs then None else Some (l, op, rhs)
       | None => None
       end.

Definition cmp (s : string) : option (string * string * string) :=
  Str.search cmp_at s.

(** One attempt of
    [/([a-zA-Z0-9_\.\(\)\*]+)(\[(?<operator>...|REGEXP)\])?/i]
    at the head of [s]: group 1 and the optional group [operator]. *)
Definition key_at (s : string) : option (string * option string) :=
  let (col, r) := Str.span is_key s in
  if Str.is_empty col then None
  else match bracket key_ops ["REGEXP"] r with
       | Some (op, _) => Some (col, Some op)
       | None => Some (col, None)
       end.

Definition key (s : string) : option (string * option string) :=
  Str.search key_at s.

(** [/(\[.+\]|[\*\?\!\%#^-_]|%.+|.+%)/.test(s)]: the class holds
    [* ? ! % #] and the range from [^] to [_]; the last two alternatives
    need a [%], which the class already accepts. *)
Definition like_class (c : ascii) : bool :=
  mem (String c EmptyString) ["*"; "?"; "!"; "%"; "#"; "^"; "_"].

Definition like_bracket_at (s : string) : option unit :=
  match s with
  | String c s' =>
      if Ascii.eqb c "[" then
        let (seg, _) := Str.span (fun d => negb (Str.is_newline d)) s' in
        match seg with
        | String _ seg' => if Str.includes "]" seg' then Some tt else None
        | EmptyString => None
        end
      else None
  | EmptyString => None
  end.

Definition like_meta (s : string) : bool :=
  Str.any like_class s ||
  match Str.search like_bracket_at s with Some _ => true | None => false end.

End Re.

(** ** The condition compiler and the clause assembler *)

Section Compiler.

(** [this.prefix] *)
Variable prefix : string.

(** The rewriting of [<table>] and [<table.column>] placeholders in the
    text of a raw fragment: the [query.replace(...)] call of [buildRaw]
    (lines 142-155), whose callback may throw through [tableQuote]. *)
Variable raw_replace : string -> res string.

(** [this.connection.escape], the literal escaping of the driver. *)
Variable escape : value -> string.

(** [buildRaw(raw, map)] (lines 134-163) *)
Definition buildRaw (raw : value) : M value :=
  match raw with
  | VRaw text m =>
      query <- lift (raw_replace text) ;;
      (match m with
       | [] => ret tt
       | _ :: _ =>
           fun st => (Ok tt, mkState (guid st) (Js.assign (pmap st) m))
       end) ;;;
      ret (VStr query)
  | _ => ret (VBool false)
  end.

(** [columnQuote] applied to a value that need not be a string: the test
    converts its argument, [includes] exists on strings and arrays only,
    [replace] on strings only. *)
Definition columnQuoteV (v : value) : res string :=
  match v with
  | VStr s => columnQuote prefix s
  | _ =>
      let s := Js.to_string v in
      if negb (re_column s) then Throw (IncorrectColumnName s)
      else match v with
           | VArr items =>
               if List.existsb
                    (fun x => match x with
                              | VStr d => String.eqb d "."
                              | _ => false
                              end) items
               then Throw TypeError
               else Ok (Str.dq ++ s ++ Str.dq)
           | _ => Throw TypeError
           end
  end.

(** [arrayQuote(array)] (lines 166-176) *)
Definition arrayQuote (array : list value) : string :=
  Str.join ","
    (List.map (fun v => match v with
                        | VNum n => Str.of_Z n
                        | _ => escape v
                        end) array).

(** [innerConjunct(data, map, conjunctor, outerConjunctor)] (lines 276-284),
    over the compiler [rec] of its elements. *)
Fixpoint innerConjunct_stack (rec : value -> string -> M string)
  (data : list value) (conjunctor : string) : M (list string) :=
  match data with
  | [] => ret []
  | v :: data' =>
      s <- rec v conjunctor ;;
      rest <- innerConjunct_stack rec data' conjunctor ;;
      ret (("(" ++ s ++ ")") :: rest)
  end.

Definition innerConjunct (rec : value -> string -> M string)
  (data : list value) (conjunctor outerConjunctor : string) : M string :=
  stack <- innerConjunct_stack rec data conjunctor ;;
  ret (Str.join (outerConjunctor ++ " ") stack).

(** The binding of the elements of a list value (lines 352-357 and
    415-420): each element gets the parameter [mapKey + index + "_i"]. *)
Definition bindItems (mapKey_ : string) (items : list value) : M unit :=
  forEach (fun item index =>
             bindParam (mapKey_ ++ Str.of_nat index ++ "_i") item)
          0 items.

(** [placeholders.join(', ')] *)
Definition placeholders (mapKey_ : string) (items : list value) : string :=
  Str.join ", "
    (List.map (fun kv => mapKey_ ++ fst kv ++ "_i") (Js.indexed 0 items)).

(** [switch (type)] under the operator [!] (lines 347-367) *)
Definition switch_not (column mapKey_ : string) (v : value)
  : M (list string) :=
  match v with
  | VNull => ret [column ++ " IS NOT NULL"]
  | VArr items =>
      bindItems mapKey_ items ;;;
      ret [column ++ " NOT IN (" ++ placeholders mapKey_ items ++ ")"]
  | VRaw _ _ =>
      q <- buildRaw v ;;
      ret [column ++ " != " ++ Js.to_string q]
  | VObj _ => ret []
  | _ =>
      bindParam mapKey_ (typeMap v) ;;;
      ret [column ++ " != " ++ mapKey_]
  end.

(** [switch (type)] without operator (lines 410-430) *)
Definition switch_eq (column mapKey_ : string) (v : value)
  : M (list string) :=
  match v with
  | VNull => ret [column ++ " IS NULL"]
  | VArr items =>
      bindItems mapKey_ items ;;;
      ret [column ++ " IN (" ++ placeholders mapKey_ items ++ ")"]
  | VRaw _ _ =>
      q <- buildRaw v ;;
      ret [column ++ " = " ++ Js.to_string q]
  | VObj _ => ret []
  | _ =>
      bindParam mapKey_ (typeMap v) ;;;
      ret [column ++ " = " ++ mapKey_]
  end.

(** The column of a condition key (lines 319-327): a name with both
    parentheses is a function call and is left as it is. *)
Definition conditionColumn (name : string) : res string :=
  if Str.includes "(" name && Str.includes ")" name then Ok name
  else columnQuote prefix name.

(** The dispatch on the operator of a condition key (lines 329-431) for
    the column [column], the parameter name [mapKey_] and the value [v]:
    the fragments pushed on [stack]. *)
Definition implode_leaf (column mapKey_ : string) (operator : option string)
  (v : value) : M (list string) :=
  match operator with
  | Some op =>
      if Re.mem op [">"; ">="; "<"; "<="] then
        match v with
        | VRaw _ _ =>
            q <- buildRaw v ;;
            ret [column ++ " " ++ op ++ " " ++ Js.to_string q]
        | _ =>
            bindParam mapKey_ v ;;;
            ret [column ++ " " ++ op ++ " " ++ mapKey_]
        end
      else if String.eqb op "!" then switch_not column mapKey_ v
      else if String.eqb op "~" || String.eqb op "!~" then
        let valueArray := match v with VArr items => items | _ => [v] end in
        (* an array has no [AND] or [OR] property *)
        let connector := " OR " in
        forEach
          (fun item index =>
             let itemStr := Js.to_string item in
             bindParam (mapKey_ ++ "L" ++ Str.of_nat index)
               (VStr (if negb (Re.like_meta itemStr)
                      then "%" ++ itemStr ++ "%" else itemStr)))
          0 valueArray ;;;
        ret ["("
             ++ Str.join connector
                  (List.map
                     (fun kv =>
                        column
                        ++ (if String.eqb op "!~" then " NOT" else "")
                        ++ " LIKE " ++ mapKey_ ++ "L" ++ fst kv)
                     (Js.indexed 0 valueArray))
             ++ ")"]
      else if String.eqb op "<>" || String.eqb op "><" then
        match v with
        | VArr items =>
            let columnStr :=
              if String.eqb op "><" then column ++ " NOT" else column in
            bindParam (mapKey_ ++ "a") (Js.nth 0 items) ;;;
            bindParam (mapKey_ ++ "b") (Js.nth 1 items) ;;;
            ret ["(" ++ columnStr ++ " BETWEEN " ++ mapKey_
                   ++ "a AND " ++ mapKey_ ++ "b)"]
        | _ => ret []
        end
      else if String.eqb op "REGEXP" then
        bindParam mapKey_ v ;;;
        ret [column ++ " REGEXP " ++ mapKey_]
      else ret []
  | None => switch_eq column mapKey_ v
  end.

(** The body of the loop of [dataImplode] (lines 290-433) for one entry:
    the fragments it pushes on [stack]. *)
Definition implode_entry (rec : value -> string -> M string)
  (conjunctor key : string) (v : value) : M (list string) :=
  if Js.is_object v && Re.logical key then
    let relationship := Re.relationship key in
    s <- (match v with
          | VArr ((VArr _ :: _) as items) =>
              innerConjunct rec items (" " ++ relationship) conjunctor
          | _ => rec v (" " ++ relationship)
          end) ;;
    ret ["(" ++ s ++ ")"]
  else
    mapKey_ <- mapKey ;;
    match (if Js.isIntKey key then Re.cmp (Js.to_string v) else None) with
    | Some (l, operator, r) =>
        match v with
        | VStr _ =>
            lq <- lift (columnQuote prefix l) ;;
            rq <- lift (columnQuote prefix r) ;;
            ret [lq ++ " " ++ operator ++ " " ++ rq]
        | _ => throw TypeError
        end
    | None =>
        match Re.key key with
        | None => throw TypeError
        | Some (name, operator) =>
            column <- lift (conditionColumn name) ;;
            implode_leaf column mapKey_ operator v
        end
    end.

(** The compiler handed to the entries of a string or of a [Raw] given as
    [data]: none of them has a logical key together with an object value,
    so it is never called. *)
Definition no_rec (_ : value) (_ : string) : M string := ret EmptyString.

(** [dataImplode(data, map, conjunctor)] (lines 287-436) *)
Fixpoint dataImplode (data : value) (conjunctor : string) {struct data}
  : M string :=
  stack <-
    match data with
    | VUndef | VNull => throw TypeError
    | VArr items =>
        for_items (implode_entry dataImplode conjunctor) 0 items
    | VObj ps => for_entries (implode_entry dataImplode conjunctor) ps
    | _ => for_entries (implode_entry no_rec conjunctor) (Js.own data)
    end ;;
  ret (Str.join (conjunctor ++ " ") stack).

(** The keys [whereClause] removes from the conditions (line 447). *)
Definition special_keys : list string :=
  ["GROUP"; "ORDER"; "HAVING"; "LIMIT"; "LIKE"; "MATCH"].

Definition strip (keys : list string) (ps : props) : props :=
  List.fold_left (fun o k => Js.delete k o) keys ps.

Fixpoint mapRes {A B} (f : A -> res B) (l : list A) : res (list B) :=
  match l with
  | [] => Ok []
  | a :: l' =>
      match f a with
      | Throw e => Throw e
      | Ok b =>
          match mapRes f l' with
          | Throw e => Throw e
          | Ok bs => Ok (b :: bs)
          end
      end
  end.

(** The [GROUP BY] and [HAVING] part of [whereClause] (lines 455-474) *)
Definition groupClause (where_ : props) : M string :=
  let GROUP := Js.field "GROUP" where_ in
  if Js.truthy GROUP then
    g <- (match GROUP with
          | VArr columns =>
              groupColumns <- lift (mapRes columnQuoteV columns) ;;
              ret (" GROUP BY " ++ Str.join "," groupColumns)
          | VRaw _ _ =>
              q <- buildRaw GROUP ;;
              ret (" GROUP BY " ++ Js.to_string q)
          | _ =>
              q <- lift (columnQuoteV GROUP) ;;
              ret (" GROUP BY " ++ q)
          end) ;;
    let HAVING := Js.field "HAVING" where_ in
    if Js.truthy HAVING then
      h <- (if Js.isRaw HAVING
            then q <- buildRaw HAVING ;; ret (Js.to_string q)
            else dataImplode HAVING " AND") ;;
      ret (g ++ " HAVING " ++ h)
    else ret g
  else ret EmptyString.

(** One entry of an [ORDER] object (lines 483-491): what it pushes on
    [orderStack]. *)
Definition orderEntry (column : string) (direction : value)
  : res (list string) :=
  match direction with
  | VArr items =>
      match columnQuote prefix column with
      | Throw e => Throw e
      | Ok c => Ok ["FIELD(" ++ c ++ ", " ++ arrayQuote items ++ ")"]
      end
  | _ =>
      if match direction with
         | VStr d => String.eqb d "ASC" || String.eqb d "DESC"
         | _ => false
         end
      then match columnQuote prefix column with
           | Throw e => Throw e
           | Ok c => Ok [c ++ " " ++ Js.to_string direction]
           end
      else if Js.isIntKey column then
        match columnQuoteV direction with
        | Throw e => Throw e
        | Ok c => Ok [c]
        end
      else Ok []
  end.

(** The [ORDER BY] part of [whereClause] (lines 476-506) *)
Definition orderClause (where_ : props) : M string :=
  let ORDER := Js.field "ORDER" where_ in
  if Js.truthy ORDER then
    match ORDER with
    | VRaw _ _ =>
        q <- buildRaw ORDER ;; ret (" ORDER BY " ++ Js.to_string q)
    | VObj entries =>
        orderStack <- lift (mapRes (fun kv => orderEntry (fst kv) (snd kv))
                                   entries) ;;
        ret (" ORDER BY " ++ Str.join "," (List.concat orderStack))
    | VArr items =>
        orderStack <- lift (mapRes (fun v => match v with
                                             | VStr s =>
                                                 match columnQuote prefix s with
                                                 | Throw e => Throw e
                                                 | Ok c => Ok [c]
                                                 end
                                             | _ => Ok []
                                             end) items) ;;
        ret (" ORDER BY " ++ Str.join "," (List.concat orderStack))
    | _ =>
        q <- lift (columnQuoteV ORDER) ;; ret (" ORDER BY " ++ q)
    end
  else ret EmptyString.

(** The [LIMIT] part of [whereClause] (lines 508-515) *)
Definition limitClause (where_ : props) : string :=
  let LIMIT := Js.field "LIMIT" where_ in
  if Js.truthy LIMIT then
    match LIMIT with
    | VNum n => " LIMIT " ++ Js.to_string (VNum n)
    | VArr [offset; count] =>
        " LIMIT " ++ Js.to_string count ++ " OFFSET " ++ Js.to_string offset
    | _ => EmptyString
    end
  else EmptyString.

(** [whereClause(where, map)] (lines 439-521) *)
Definition whereClause (where_ : value) : M string :=
  match where_ with
  | VArr _ | VObj _ =>
      let ps := Js.own where_ in
      let conditions := strip special_keys ps in
      w <- (match conditions with
            | [] => ret EmptyString
            | _ :: _ =>
                c <- dataImplode (VObj conditions) " AND" ;;
                ret (" WHERE " ++ c)
            end) ;;
      g <- groupClause ps ;;
      o <- orderClause ps ;;
      ret (w ++ g ++ o ++ limitClause ps)
  | VRaw _ _ =>
      q <- buildRaw where_ ;; ret (" " ++ Js.to_string q)
  | _ => ret EmptyString
  end.

End Compiler.

(** ** The projection compiler *)

Module ReCol.

(** [\((?<alias>[a-zA-Z0-9_]+)\)] at the head of [s]: the alias and what
    follows the closing parenthesis. *)
Definition paren (s : string) : option (string * string) :=
  match s with
  | String c s' =>
      if Ascii.eqb c "(" then
        let (a, r) := Str.span Str.is_word s' in
        if Str.is_empty a then None
        else match r with
             | String d r' => if Ascii.eqb d ")" then Some (a, r') else None
             | EmptyString => None
             end
      else None
  | EmptyString => None
  end.

(** The type names of a selected column, compared without regard to case. *)
Definition type_names : list string :=
  ["STRING"; "BOOL"; "INT"; "NUMBER"; "OBJECT"; "JSON"].

(** One attempt, at the head of [s], of the pattern of a selected column
    (line 207): the group [column], then optionally white space and the
    parenthesised group [alias], then optionally white space and the
    bracketed group [type]. *)
Definition select_at (s : string)
  : option (string * option string * option string) :=
  let (column, r) := Str.span Re.is_ref s in
  if Str.is_empty column then None
  else
    let (alias, r1) :=
      match paren (snd (Str.span Str.is_space r)) with
      | Some (a, r') => (Some a, r')
      | None => (None, r)
      end in
    let type :=
      match Re.bracket [] type_names (snd (Str.span Str.is_space r1)) with
      | Some (t, _) => Some t
      | None => None
      end in
    Some (column, alias, type).

Definition select (s : string)
  : option (string * option string * option string) :=
  Str.search select_at s.

(** The group [column] of the pattern of a raw column key (line 200): the
    first run of [a-zA-Z0-9_\.]. *)
Definition raw_column_at (s : string) : option string :=
  let (column, _) := Str.span Re.is_ref s in
  if Str.is_empty column then None else Some column.

Definition raw_column (s : string) : option string :=
  Str.search raw_column_at s.

End ReCol.

Section Projection.

Variable prefix : string.
Variable raw_replace : string -> res string.

(** The loop of [columnPush] over the entries of an object: the fragments
    pushed on [stack] and the entries as the loop leaves them. *)
Fixpoint for_columns (f : string -> value -> M (list string * value))
  (es : props) : M (list string * props) :=
  match es with
  | [] => ret ([], [])
  | (k, v) :: es' =>
      a <- f k v ;;
      b <- for_columns f es' ;;
      ret ((fst a ++ fst b)%list, (k, snd a) :: snd b)
  end.

(** The same loop over the elements of an array. *)
Fixpoint for_column_items (f : string -> value -> M (list string * value))
  (i : nat) (items : list value) : M (list string * list value) :=
  match items with
  | [] => ret ([], [])
  | v :: items' =>
      a <- f (Str.of_nat i) v ;;
      b <- for_column_items f (S i) items' ;;
      ret ((fst a ++ fst b)%list, snd a :: snd b)
  end.

(** The body of the loop of [columnPush] (lines 190-220) for one entry:
    the fragments it pushes and the value it leaves under [key].  [single]
    is [Object.keys(columns).length === 1]. *)
Definition column_entry (rec : value -> bool -> bool -> M (string * value))
  (root isJoin single : bool) (key : string) (v : value)
  : M (list string * value) :=
  let isIntKey := Js.isIntKey key in
  match v with
  | VArr _ =>
      if negb isIntKey && root && single then
        k <- lift (columnQuote prefix key) ;;
        r <- rec v false isJoin ;;
        ret ([k; fst r], snd r)
      else
        r <- rec v false isJoin ;;
        ret ([fst r], snd r)
  | VRaw _ _ =>
      if negb isIntKey then
        raw <- buildRaw raw_replace v ;;
        match ReCol.raw_column key with
        | None => throw TypeError
        | Some column =>
            c <- lift (columnQuote prefix column) ;;
            ret ([Js.to_string raw ++ " AS " ++ c], v)
        end
      else ret ([], v)
  | VStr s =>
      if isIntKey then
        if isJoin && Str.includes "*" s then throw WildcardWhileJoining
        else
          match ReCol.select s with
          | None => throw TypeError
          | Some (column, Some alias, type) =>
              c <- lift (columnQuote prefix column) ;;
              a <- lift (columnQuote prefix alias) ;;
              ret ([c ++ " AS " ++ a],
                   VStr (alias ++ match type with
                                  | Some t => " [" ++ t ++ "]"
                                  | None => EmptyString
                                  end))
          | Some (column, None, _) =>
              c <- lift (columnQuote prefix column) ;;
              ret ([c], v)
          end
      else ret ([], v)
  | _ => ret ([], v)
  end.

Definition no_columns (v : value) (_ _ : bool) : M (string * value) :=
  ret (EmptyString, v).

(** [columnPush(columns, map, root, isJoin)] (lines 179-223): the select
    list and [columns] as the call leaves it.  A string is wrapped in an
    array of its own, which the caller does not see. *)
Fixpoint columnPush (columns : value) (root isJoin : bool) {struct columns}
  : M (string * value) :=
  match columns with
  | VUndef | VNull => throw TypeError
  | VStr s =>
      if String.eqb s "*" then ret (s, columns)
      else
        r <- column_entry no_columns root isJoin true "0" columns ;;
        ret (Str.join "," (fst r), columns)
  | VArr items =>
      r <- for_column_items
             (column_entry columnPush root isJoin
                (Nat.eqb (List.length items) 1)) 0 items ;;
      ret (Str.join "," (fst r), VArr (snd r))
  | VObj ps =>
      r <- for_columns
             (column_entry columnPush root isJoin
                (Nat.eqb (List.length ps) 1)) ps ;;
      ret (Str.join "," (fst r), VObj (snd r))
  | _ => ret (EmptyString, columns)
  end.

End Projection.

(** ** The join builder and the statement *)

Module ReJoin.

(** The direction tags: [\<\>?|\>\<?] *)
Definition tags : list string := ["<"; "<>"; ">"; "><"].

(** One attempt, at the head of [s], of the pattern of a join key
    (line 620): the optional bracketed group [join], the group [table],
    at most one white space and the optional parenthesised group [alias]. *)
Definition key_at (s : string)
  : option (option string * string * option string) :=
  let (join, r) :=
    match Re.bracket tags [] s with
    | Some (j, r') =>
        if Str.is_empty (fst (Str.span Str.is_word r')) then (None, s)
        else (Some j, r')
    | None => (None, s)
    end in
  let (table, r1) := Str.span Str.is_word r in
  if Str.is_empty table then None
  else
    let r2 := match r1 with
              | String c r' => if Str.is_space c then r' else r1
              | EmptyString => r1
              end in
    Some (join, table,
          match ReCol.paren r2 with
          | Some (a, _) => Some a
          | None => None
          end).

Definition key (s : string)
  : option (option string * string * option string) :=
  Str.search key_at s.

(** One attempt, at the head of [s], of the pattern of a table with its
    alias (line 548): the groups [table] and [alias]. *)
Definition aliased_at (s : string) : option (string * string) :=
  let (table, r) := Str.span Str.is_word s in
  if Str.is_empty table then None
  else match ReCol.paren (snd (Str.span Str.is_space r)) with
       | Some (a, _) => Some (table, a)
       | None => None
       end.

Definition aliased (s : string) : option (string * string) :=
  Str.search aliased_at s.

End ReJoin.

(** *** Arguments and the objects of the caller *)

(** An argument of a public method is a value of its own or a reference to
    an object of the caller, which the method can update in place. *)
Definition loc : Type := nat.

Inductive jsarg : Type :=
| Prim (v : value)
| Ref (l : loc).

Definition heap : Type := loc -> value.

Definition deref (h : heap) (a : jsarg) : value :=
  match a with
  | Prim v => v
  | Ref l => h l
  end.

Definition store (h : heap) (a : jsarg) (v : value) : heap :=
  match a with
  | Prim _ => h
  | Ref l => fun l' => if Nat.eqb l' l then v else h l'
  end.

Section Statement.

Variable prefix : string.
Variable raw_replace : string -> res string.
Variable escape : value -> string.

(** [joinArray] (lines 612-617) *)
Definition joinArray : list (string * string) :=
  [(">", "LEFT"); ("<", "RIGHT"); ("<>", "FULL"); ("><", "INNER")].

(** [joinArray[tag]] in a template literal *)
Definition joinWord (tag : string) : string :=
  match List.find (fun kv => String.eqb (fst kv) tag) joinArray with
  | Some kv => snd kv
  | None => "undefined"
  end.

(** [array.join(sep)] *)
Definition joinValues (sep : string) (items : list value) : string :=
  Str.join sep
    (List.map (fun x => match x with
                        | VUndef | VNull => EmptyString
                        | _ => Js.to_string x
                        end) items).

(** The [ON] predicates of a relation given by its entries (lines 631-639
    and 643-651). *)
Definition onClause (table joined : string) (entries : props) : res string :=
  match
    mapRes
      (fun kv =>
         match (if Str.includes "." (fst kv) then columnQuote prefix (fst kv)
                else match tableQuote prefix table with
                     | Ok t => Ok (t ++ "." ++ Str.dq ++ fst kv ++ Str.dq)
                     | Throw e => Throw e
                     end) with
         | Throw e => Throw e
         | Ok leftSide =>
             match tableQuote prefix joined with
             | Throw e => Throw e
             | Ok t =>
                 Ok (leftSide ++ " = " ++ t ++ "." ++ Str.dq
                       ++ Js.to_string (snd kv) ++ Str.dq)
             end
         end) entries
  with
  | Throw e => Throw e
  | Ok joins => Ok ("ON " ++ Str.join " AND " joins)
  end.

(** The body of the loop of [buildJoin] (lines 619-661) for one entry:
    what it pushes on [tableJoin]. *)
Definition join_entry (table subTable : string) (relation : value)
  : res (list string) :=
  match ReJoin.key subTable with
  | None => Throw TypeError
  | Some (None, _, _) => Ok []
  | Some (Some tag, joined, alias) =>
      let target := match alias with Some a => a | None => joined end in
      match
        (match relation with
         | VStr r => Ok ("USING (" ++ Str.dq ++ r ++ Str.dq ++ ")")
         | VArr items =>
             if match items with
                | VStr s :: _ => negb (Str.is_empty s)
                | _ => false
                end
             then Ok ("USING (" ++ Str.dq
                        ++ joinValues (Str.dq ++ ", " ++ Str.dq) items
                        ++ Str.dq ++ ")")
             else onClause table target (Js.own relation)
         | VObj _ | VRaw _ _ => onClause table target (Js.own relation)
         | _ => Ok (Js.to_string relation)
         end)
      with
      | Throw e => Throw e
      | Ok relationStr =>
          match tableQuote prefix joined with
          | Throw e => Throw e
          | Ok t =>
              match (match alias with
                     | Some a =>
                         match tableQuote prefix a with
                         | Ok q => Ok (t ++ " AS " ++ q ++ " ")
                         | Throw e => Throw e
                         end
                     | None => Ok (t ++ " ")
                     end) with
              | Throw e => Throw e
              | Ok tableName =>
                  Ok [joinWord tag ++ " JOIN " ++ tableName ++ relationStr]
              end
          end
      end
  end.

(** [buildJoin(table, join)] (lines 610-664) *)
Definition buildJoin (table : string) (join : value) : res string :=
  match Js.entries join with
  | Throw e => Throw e
  | Ok es =>
      match mapRes (fun kv => join_entry table (fst kv) (snd kv)) es with
      | Throw e => Throw e
      | Ok tableJoin => Ok (Str.join " " (List.concat tableJoin))
      end
  end.

(** The test of a join specification (lines 562-568): an object that is
    not an array and whose first key starts with a bracket. *)
Definition isJoinSpec (join : value) : bool :=
  match join with
  | VObj _ | VRaw _ _ =>
      match Js.own join with
      | (k, _) :: _ => String.prefix "[" k
      | [] => false
      end
  | _ => false
  end.

(** The arguments that play the parts of [columns] and [where] once the
    parameters are adjusted (lines 570-584), [columnFn] being [null]. *)
Definition adjusted (h : heap) (isJoin : bool) (join columns where_ : jsarg)
  : jsarg * jsarg :=
  if isJoin then (columns, where_)
  else match deref h columns with
       | VNull =>
           match deref h where_ with
           | VNull => (join, Prim VNull)
           | _ => (Prim VNull, join)
           end
       | _ => (join, columns)
       end.

(** The quoted table of the statement, with its alias (lines 547-557). *)
Definition tableQuery (table : string) : res string :=
  match ReJoin.aliased table with
  | Some (t, a) =>
      match tableQuote prefix t with
      | Throw e => Throw e
      | Ok qt =>
          match tableQuote prefix a with
          | Throw e => Throw e
          | Ok qa => Ok (qt ++ " AS " ++ qa)
          end
      end
  | None => tableQuote prefix table
  end.

(** [selectContext(table, map, join, columns, where)] (lines 546-607) with
    [columnFn] left to its default [null], as [select] and [get] call it.
    [columnPush] rewrites the aliases of its argument in place: the heap is
    updated before [whereClause] reads its own argument. *)
Definition selectContext (h : heap) (table : string)
  (join columns where_ : jsarg) : M (string * heap) :=
  tq <- lift (tableQuery table) ;;
  let isJoin := isJoinSpec (deref h join) in
  tq <- (if isJoin
         then j <- lift (buildJoin table (deref h join)) ;;
              ret (tq ++ " " ++ j)
         else ret tq) ;;
  column <- columnPush prefix raw_replace
              (deref h (fst (adjusted h isJoin join columns where_)))
              true isJoin ;;
  let h' := store h (fst (adjusted h isJoin join columns where_))
                  (snd column) in
  wc <- whereClause prefix raw_replace escape
          (deref h' (snd (adjusted h isJoin join columns where_))) ;;
  ret ("SELECT " ++ fst column ++ " FROM " ++ tq ++ wc, h').

(** [delete a.LIMIT]: in the heap for an object of the caller, in the
    argument itself for an object passed by value. *)
Definition deleteLIMIT (h : heap) (a : jsarg) : heap * jsarg :=
  match a with
  | Ref l =>
      match h l with
      | VObj ps => (store h a (VObj (Js.delete "LIMIT" ps)), a)
      | _ => (h, a)
      end
  | Prim (VObj ps) => (h, Prim (VObj (Js.delete "LIMIT" ps)))
  | Prim _ => (h, a)
  end.

(** The test [a && a.LIMIT] *)
Definition hasLIMIT (h : heap) (a : jsarg) : bool :=
  Js.truthy (deref h a) && Js.truthy (Js.field "LIMIT" (Js.own (deref h a))).

(** A parameter with the default value [null]. *)
Definition orNull (a : jsarg) : jsarg :=
  match a with Prim VUndef => Prim VNull | _ => a end.

(** The first statements of [get] (lines 851-862): the heap they leave and
    the arguments [columns] and [where]. *)
Definition get_prepare (h : heap) (columns where_ : jsarg)
  : heap * (jsarg * jsarg) :=
  match deref h where_ with
  | VNull =>
      if hasLIMIT h columns
      then let (h', c) := deleteLIMIT h columns in (h', (c, where_))
      else (h, (columns, where_))
  | _ =>
      if hasLIMIT h where_
      then let (h', w) := deleteLIMIT h where_ in (h', (columns, w))
      else (h, (columns, where_))
  end.

(** [get(table, join, columns, where)] up to the statement it hands to
    [exec] (lines 845-866), from the counter [g]: the heap the caller
    finds, the statement or the exception, and the final counter and
    parameters. *)
Definition get (g : nat) (h : heap) (table : string)
  (join columns where_ : jsarg) : heap * (res string * cstate) :=
  let '(h1, (c, w)) := get_prepare h (orNull columns) (orNull where_) in
  match selectContext h1 table (orNull join) c w (mkState g []) with
  | (Ok (q, h2), st) => (h2, (Ok (q ++ " LIMIT 1"), st))
  | (Throw e, st) => (h1, (Throw e, st))
  end.

End Statement.

(** ** The result mapper *)

(** The column map: from an output column to its result key and its
    declared type, the pairs [[columnKey, type]] that [columnMap] stores
    (lines 685, 691 and 694). *)
Definition colmap : Type := list (string * (string * string)).

Fixpoint colmap_get (k : string) (m : colmap) : option (string * string) :=
  match m with
  | [] => None
  | (k', e) :: m' => if String.eqb k' k then Some e else colmap_get k m'
  end.

Section Mapper.

(** [JSON.parse]: [None] when it throws. *)
Variable JSON_parse : value -> option value.

(** [parseFloat] and [parseInt] *)
Variable parseFloat parseInt : value -> value.

(** The data of a row and the column map of the query. *)
Variable data : props.
Variable columnMap : colmap.

(** The coercion of a source value that is not [null] (lines 761-789). *)
Definition coerce (type : string) (item : value) : value :=
  if String.eqb type "Number" then parseFloat item
  else if String.eqb type "Int" then parseInt item
  else if String.eqb type "Bool" then VBool (Js.truthy item)
  else if String.eqb type "Object" then
    match JSON_parse item with Some v => v | None => item end
  else if String.eqb type "JSON" then
    match JSON_parse item with Some v => v | None => item end
  else item.

(** The first branch of the loop of [dataMap] (lines 744-792), for an
    entry with an integer key or a raw value: the stack it leaves. *)
Definition map_field (key : string) (v : value) (stack : props) : props :=
  let isRaw := Js.isRaw v in
  match colmap_get (if isRaw then key else Js.to_string v) columnMap with
  | None => stack
  | Some (columnKey, type) =>
      let item := Js.field columnKey data in
      if negb (Str.is_empty type) then
        if isRaw && Re.mem type ["Object"; "JSON"] then stack
        else match item with
             | VNull => Js.set columnKey VNull stack
             | _ => Js.set columnKey (coerce type item) stack
             end
      else Js.set columnKey item stack
  end.

(** The loop of [dataMap] (lines 740-798) over the entries of [columns],
    over the mapper [rec] of a nested specification.  A [stack] is the list
    of the named properties of the array the source allocates for it. *)
Fixpoint dataMap_entries (rec : value -> props) (es : props) (stack : props)
  {struct es} : props :=
  match es with
  | [] => stack
  | (key, v) :: es' =>
      dataMap_entries rec es'
        (if Js.isIntKey key || Js.isRaw v then map_field key v stack
         else Js.set key (VObj (rec v)) stack)
  end.

(** [dataMap(data, columns, columnMap, stack, false, result)]
    (lines 733-798): the stack it leaves.  The entries of a [Raw] given as
    [columns] are its fields [value], a string, and [map]. *)
Fixpoint dataMap (columns : value) (stack : props) {struct columns} : props :=
  match columns with
  | VObj ps => dataMap_entries (fun v => dataMap v []) ps stack
  | VRaw text m =>
      Js.set "map" (VObj (dataMap_entries (fun v => dataMap v []) m []))
        (Js.set "value" (VObj (Js.assign [] data)) stack)
  | _ => Js.assign stack data
  end.

End Mapper.

(** ** Vocabulary of the properties *)

(** The parameters of the elements of a list value under the parameter
    name [mapKey_]: the name [mapKey_ + index + "_i"] with each element. *)
Definition itemParams (mapKey_ : string) (items : list value) : props :=
  List.map (fun kv => (mapKey_ ++ fst kv ++ "_i", snd kv))
           (Js.indexed 0 items).

(** A string with a star is selected by the column specification: as the
    specification itself when it is a string, under an integer key of the
    specification, or in a list nested in it, which [columnPush] compiles
    in turn. *)
Fixpoint star_selected (columns : value) : bool :=
  match columns with
  | VStr s => Str.includes "*" s
  | VArr items =>
      List.existsb
        (fun v => match v with
                  | VStr s => Str.includes "*" s
                  | VArr _ => star_selected v
                  | _ => false
                  end) items
  | VObj ps =>
      List.existsb
        (fun kv => match snd kv with
                   | VStr s => Js.isIntKey (fst kv) && Str.includes "*" s
                   | VArr _ => star_selected (snd kv)
                   | _ => false
                   end) ps
  | _ => false
  end.

(** The outcome of a run is an exception. *)
Definition throws {A} (r : res A * cstate) : Prop :=
  exists e st', r = (Throw e, st').

(** *** Condition trees with concrete leaves *)

(** A concrete scalar: a boolean, a number or a string. *)
Definition scalar (v : value) : bool :=
  match v with
  | VBool _ | VNum _ | VStr _ => true
  | _ => false
  end.

Definition is_range (operator : option string) : bool :=
  match operator with
  | Some op => String.eqb op "<>" || String.eqb op "><"
  | None => false
  end.

Definition is_equality (operator : option string) : bool :=
  match operator with
  | Some op => String.eqb op "!"
  | None => true
  end.

(** The values that a leaf binds by design, in their order: a scalar
    under no operator or under [!] binds itself, a boolean as [1] or [0];
    a scalar under a comparison or [REGEXP] binds itself; a list of scalars
    under no operator or under [!] binds its elements; a list of two
    scalars under a range operator binds them.  [None] for the other
    leaves. *)
Definition leafValues (operator : option string) (v : value)
  : option (list value) :=
  match v with
  | VBool _ | VNum _ | VStr _ =>
      if is_equality operator then Some [typeMap v]
      else match operator with
           | Some op =>
               if Re.mem op [">"; ">="; "<"; "<="; "REGEXP"] then Some [v]
               else None
           | None => None
           end
  | VArr items =>
      if List.forallb scalar items then
        if is_equality operator then Some items
        else if is_range operator && Nat.eqb (List.length items) 2
             then Some items
             else None
      else None
  | _ => None
  end.

(** The parameters that such a leaf binds under the parameter name [k]. *)
Definition leafParams (k : string) (operator : option string) (v : value)
  : props :=
  match v with
  | VArr items =>
      if is_range operator
      then [(k ++ "a", Js.nth 0 items); (k ++ "b", Js.nth 1 items)]
      else itemParams k items
  | _ => [(k, if is_equality operator then typeMap v else v)]
  end.

(** The values bound by a leaf entry of a condition tree: its key is not
    made of digits, has the shape of a condition key and names a column
    that can be quoted. *)
Definition leafEntry (prefix key : string) (v : value)
  : option (list value) :=
  if Js.isIntKey key then None
  else match Re.key key with
       | Some (name, operator) =>
           match conditionColumn prefix name with
           | Ok _ => leafValues operator v
           | Throw _ => None
           end
       | None => None
       end.

Fixpoint collect (f : string -> value -> option (list value)) (ps : props)
  : option (list value) :=
  match ps with
  | [] => Some []
  | (key, v) :: ps' =>
      match f key v, collect f ps' with
      | Some a, Some b => Some (a ++ b)%list
      | _, _ => None
      end
  end.

(** The leaf values of a condition tree in entry order, through the
    objects nested under logical keys; [None] when an entry is not of the
    kinds above. *)
Fixpoint leaves (prefix : string) (tree : value) {struct tree}
  : option (list value) :=
  match tree with
  | VObj ps =>
      collect
        (fun key v =>
           if Js.is_object v && Re.logical key
           then match v with
                | VObj _ => leaves prefix v
                | _ => None
                end
           else leafEntry prefix key v) ps
  | _ => None
  end.

(** A leaf with its scalars replaced by the number 0. *)
Definition blank (v : value) : value :=
  match v with
  | VBool _ | VNum _ | VStr _ => VNum 0
  | VArr items => VArr (List.map (fun _ => VNum 0) items)
  | _ => v
  end.

Fixpoint map_values (f : string -> value -> value) (ps : props) : props :=
  match ps with
  | [] => []
  | (key, v) :: ps' => (key, f key v) :: map_values f ps'
  end.

(** A condition tree with all its leaves blanked: what is left of it is
    its keys and its shape. *)
Fixpoint erase (tree : value) {struct tree} : value :=
  match tree with
  | VObj ps =>
      VObj (map_values
              (fun key v =>
                 if Js.is_object v && Re.logical key
                 then match v with
                      | VObj _ => erase v
                      | _ => v
                      end
                 else blank v) ps)
  | _ => tree
  end.

(** [x] is a parameter name generated from a counter value between [g]
    included and [g'] excluded, possibly with a suffix. *)
Definition generated (g g' : nat) (x : string) : Prop :=
  exists n sfx, (g <= n < g')%nat /\ x = paramName n ++ sfx.

(** From the counter value [g], the run [m] returns a result and binds new
    parameters under generated names, all distinct, whose values are [vs]
    in this order; the run [m0] returns the same result and leaves the
    same counter. *)
Definition runs_to {A} (m m0 : M A) (g : nat) (vs : list value) : Prop :=
  exists a g' new,
    (g <= g')%nat /\
    List.map snd new = vs /\
    NoDup (List.map fst new) /\
    (forall x, In x (List.map fst new) -> generated g g' x) /\
    forall st,
      guid st = g ->
      m st = (Ok a, mkState g' (Js.assign (pmap st) new))
      /\ exists pm', m0 st = (Ok a, mkState g' pm').

(** ** The statements that write, and the other readers *)

(** [s.replace(pat, by_)] with a string pattern and a replacement text
    without dollar sign: the first occurrence of [pat] from the left is
    replaced. *)
Fixpoint replaceText (pat by_ s : string) : string :=
  match Re.starts pat s with
  | Some rest => by_ ++ rest
  | None =>
      match s with
      | EmptyString => EmptyString
      | String c s' => String c (replaceText pat by_ s')
      end
  end.

(** The conversion of the named parameters to positional ones in [exec]
    (lines 246-253): the loop over [Object.entries(parameters)] from
    [finalQuery = query] and [values = []]. *)
Definition positional (query : string) (parameters : props)
  : string * list value :=
  List.fold_left
    (fun acc kv =>
       (replaceText (fst kv) "?" (fst acc), (snd acc ++ [snd kv])%list))
    parameters (query, []).

Module ReUpd.

(** The arithmetic operators of an [update] key: [\+|\-|\*|\/] *)
Definition arith : list string := ["+"; "-"; "*"; "/"].

(** One attempt, at the head of [s], of a bracketed suffix
    [\s*\[(op)\]$]: white space, the bracketed operator and the end of
    the key. *)
Definition suffix_at (ops words : list string) (s : string) : bool :=
  match Re.bracket ops words (snd (Str.span Str.is_space s)) with
  | Some (_, EmptyString) => true
  | _ => false
  end.

(** [key.replace(/(\s*\[(op)\]$)/i, '')]: the key up to the first position
    where the suffix matches; [insert] has the word [JSON] (line 966),
    [update] has it with the arithmetic operators (line 984). *)
Fixpoint cut (ops words : list string) (s : string) : string :=
  if suffix_at ops words s then EmptyString
  else match s with
       | EmptyString => EmptyString
       | String c s' => String c (cut ops words s')
       end.

(** One attempt of [/(?<column>[a-zA-Z0-9_]+)(\[(?<operator>...)\])?/i]
    (line 992) at the head of [s]. *)
Definition key_at (s : string) : option (string * option string) :=
  let (column, r) := Str.span Str.is_word s in
  if Str.is_empty column then None
  else match Re.bracket arith [] r with
       | Some (op, _) => Some (column, Some op)
       | None => Some (column, None)
       end.

Definition key (s : string) : option (string * option string) :=
  Str.search key_at s.

End ReUpd.

(** [v === null] *)
Definition isNull (v : value) : bool :=
  match v with VNull => true | _ => false end.

(** [[...new Set(columns)]]: each name once, at its first place. *)
Fixpoint uniq (l : list string) : list string :=
  match l with
  | [] => []
  | x :: l' => x :: List.filter (fun y => negb (String.eqb y x)) (uniq l')
  end.

(** A loop that collects one result for each element in turn. *)
Fixpoint mapM {A B} (f : A -> M B) (l : list A) : M (list B) :=
  match l with
  | [] => ret []
  | a :: l' => b <- f a ;; bs <- mapM f l' ;; ret (b :: bs)
  end.

Section Writes.

Variable prefix : string.
Variable raw_replace : string -> res string.
Variable escape : value -> string.

(** [JSON.stringify] on an array or an object of the model *)
Variable JSON_stringify : value -> string.

(** The value bound for a field of [insert] (lines 944-957) and of
    [update] (lines 1002-1015): an array or an object as its JSON text,
    the others through [typeMap]. *)
Definition storedValue (v : value) : value :=
  match v with
  | VNull => VNull
  | VArr _ | VObj _ | VRaw _ _ => VStr (JSON_stringify v)
  | _ => typeMap v
  end.

(** [delete(table, where)] up to the statement it hands to [exec]
    (lines 1029-1032) *)
Definition delete (table : string) (where_ : value) : M string :=
  t <- lift (tableQuote prefix table) ;;
  wc <- whereClause prefix raw_replace escape where_ ;;
  ret ("DELETE FROM " ++ t ++ wc).

(** The body of the loop of [update] (lines 983-1017) for one entry: what
    it pushes on [fields]. *)
Definition update_field (key : string) (v : value) : M (list string) :=
  column <- lift (columnQuote prefix (ReUpd.cut ReUpd.arith ["JSON"] key)) ;;
  if Js.isRaw v then
    q <- buildRaw raw_replace v ;;
    ret [column ++ " = " ++ Js.to_string q]
  else
    mapKey_ <- mapKey ;;
    match ReUpd.key key with
    | None => throw TypeError
    | Some (_, Some operator) =>
        match v with
        | VNum _ =>
            ret [column ++ " = " ++ column ++ " " ++ operator ++ " "
                   ++ Js.to_string v]
        | _ => ret []
        end
    | Some (_, None) =>
        bindParam mapKey_ (storedValue v) ;;;
        ret [column ++ " = " ++ mapKey_]
    end.

(** [update(table, data, where)] up to the statement it hands to [exec]
    (lines 979-1019) *)
Definition update (table : string) (data where_ : value) : M string :=
  es <- lift (Js.entries data) ;;
  fields <- for_entries update_field es ;;
  t <- lift (tableQuote prefix table) ;;
  wc <- whereClause prefix raw_replace escape where_ ;;
  ret ("UPDATE " ++ t ++ " SET " ++ Str.join ", " fields ++ wc).

(** The body of the inner loop of [insert] (lines 930-958) for the record
    [data] and the column [key]: what it pushes on [values].  [key in data]
    is the test of an own property, and a [TypeError] when [data] is not an
    object. *)
Definition insert_value (data : value) (key : string) : M string :=
  match data with
  | VUndef | VNull => throw TypeError
  | _ =>
      let item := Js.field key (Js.own data) in
      if Js.isRaw item then
        q <- buildRaw raw_replace item ;; ret (Js.to_string q)
      else
        mapKey_ <- mapKey ;;
        if Js.is_object data then
          bindParam mapKey_
            (match Js.lookup key (Js.own data) with
             | None => VNull
             | Some v => storedValue v
             end) ;;;
          ret mapKey_
        else throw TypeError
  end.

(** The tuple of one record (lines 926-961) *)
Definition insert_record (columns : list string) (data : value) : M string :=
  values <- mapM (insert_value data) columns ;;
  ret ("(" ++ Str.join ", " values ++ ")").

(** [Object.keys(data)] *)
Definition objectKeys (data : value) : res (list string) :=
  match Js.entries data with
  | Ok es => Ok (List.map fst es)
  | Throw e => Throw e
  end.

(** [insert(table, datas)] up to the statement it hands to [exec]
    (lines 906-969) *)
Definition insert (table : string) (datas : value) : M string :=
  let datas := match datas with VArr items => items | _ => [datas] end in
  ks <- lift (mapRes objectKeys datas) ;;
  let columns := uniq (List.concat ks) in
  stack <- mapM (insert_record columns) datas ;;
  fields <- lift (mapRes (fun key =>
                            columnQuote prefix (ReUpd.cut [] ["JSON"] key))
                         columns) ;;
  t <- lift (tableQuote prefix table) ;;
  ret ("INSERT INTO " ++ t ++ " (" ++ Str.join ", " fields ++ ") VALUES "
         ++ Str.join ", " stack).

(** The body of the inner loop of [replace] (lines 1052-1057) *)
Definition replace_pair (column oldValue : string) (newValue : value)
  : M (list string) :=
  mapKey_ <- mapKey ;;
  c1 <- lift (columnQuote prefix column) ;;
  c2 <- lift (columnQuote prefix column) ;;
  bindParam (mapKey_ ++ "a") (VStr oldValue) ;;;
  bindParam (mapKey_ ++ "b") newValue ;;;
  ret [c1 ++ " = REPLACE(" ++ c2 ++ ", " ++ mapKey_ ++ "a, "
         ++ mapKey_ ++ "b)"].

(** The body of the outer loop of [replace] (lines 1049-1060) *)
Definition replace_entry (column : string) (replacements : value)
  : M (list string) :=
  if Js.is_object replacements then
    es <- lift (Js.entries replacements) ;;
    for_entries (replace_pair column) es
  else ret [].

(** [replace(table, columns, where)] up to the statement it hands to
    [exec] (lines 1041-1066); [None] when it returns [false] without any
    statement. *)
Definition replace (table : string) (columns where_ : value)
  : M (option string) :=
  if negb (Js.truthy columns) || negb (Js.is_object columns)
     || Nat.eqb (List.length (Js.own columns)) 0
  then ret None
  else
    stack <- for_entries replace_entry (Js.own columns) ;;
    match stack with
    | [] => ret None
    | _ :: _ =>
        t <- lift (tableQuote prefix table) ;;
        wc <- whereClause prefix raw_replace escape where_ ;;
        ret (Some ("UPDATE " ++ t ++ " SET " ++ Str.join ", " stack ++ wc))
    end.

(** The arguments that play the parts of [columns] and [where] once the
    parameters are adjusted (lines 570-584), for any [columnFn]. *)
Definition adjustedFn (h : heap) (isJoin : bool) (columnFn : value)
  (join columns where_ : jsarg) : jsarg * jsarg :=
  if isJoin then (columns, where_)
  else match deref h columns with
       | VNull =>
           if negb (isNull (deref h where_))
              || (Js.is_object (deref h join) && negb (isNull columnFn))
           then (Prim VNull, join)
           else (join, Prim VNull)
       | _ => (join, columns)
       end.

(** [selectContext(table, map, join, columns, where, columnFn)]
    (lines 546-607) for any [columnFn]: [1] for [has], a raw fragment, or
    the name of an aggregate; [undefined] stands for the default
    [null]. *)
Definition selectContextFn (h : heap) (table : string)
  (join columns where_ : jsarg) (columnFn : value) : M (string * heap) :=
  match columnFn with
  | VUndef | VNull =>
      selectContext prefix raw_replace escape h table join columns where_
  | _ =>
      tq <- lift (tableQuery prefix table) ;;
      let isJoin := isJoinSpec (deref h join) in
      tq <- (if isJoin
             then j <- lift (buildJoin prefix table (deref h join)) ;;
                  ret (tq ++ " " ++ j)
             else ret tq) ;;
      let (columns1, where1) :=
        adjustedFn h isJoin columnFn join columns where_ in
      match columnFn with
      | VNum 1 =>
          let where2 := if isNull (deref h where1) then columns1 else where1 in
          wc <- whereClause prefix raw_replace escape (deref h where2) ;;
          ret ("SELECT 1 FROM " ++ tq ++ wc, h)
      | VRaw _ _ =>
          column <- buildRaw raw_replace columnFn ;;
          wc <- whereClause prefix raw_replace escape (deref h where1) ;;
          ret ("SELECT " ++ Js.to_string column ++ " FROM " ++ tq ++ wc, h)
      | _ =>
          let (columns2, where2) :=
            if negb (Js.truthy (deref h columns1))
               || Js.isRaw (deref h columns1)
            then (Prim (VStr "*"), join)
            else (columns1, where1) in
          column <- columnPush prefix raw_replace (deref h columns2)
                      true false ;;
          let h' := store h columns2 (snd column) in
          wc <- whereClause prefix raw_replace escape (deref h' where2) ;;
          ret ("SELECT " ++ Js.to_string columnFn ++ "(" ++ fst column ++ ")"
                 ++ " FROM " ++ tq ++ wc, h')
      end
  end.

(** [has(table, join, where)] up to the statement it hands to [exec]
    (lines 894-898) *)
Definition has (h : heap) (table : string) (join where_ : jsarg)
  : M (string * heap) :=
  q <- selectContextFn h table join (Prim VNull) (orNull where_) (VNum 1) ;;
  ret ("SELECT EXISTS(" ++ fst q ++ ")", snd q).

(** [aggregate(type, table, join, column, where)] up to the statement it
    hands to [exec] (lines 1078-1081), for a [type] in ASCII letters as
    [count], [avg], [max], [min] and [sum] give it. *)
Definition aggregate (type : string) (h : heap) (table : string)
  (join column where_ : jsarg) : M (string * heap) :=
  selectContextFn h table (orNull join) (orNull column) (orNull where_)
    (VStr (Re.upcase type)).

(** [count(table, join, column, where)] (lines 1093-1095) *)
Definition count (h : heap) (table : string) (join column where_ : jsarg)
  : M (string * heap) :=
  aggregate "count" h table join column where_.

End Writes.

(** [parallelSelect] (lines 1209-1231) from the count [totalCount] that
    the database returned: [None] when it issues the one [select] of line
    1216, else the [where] objects of the selects it issues, in order.
    A division by zero is an infinity, which leaves [maxParallel]. *)
Definition parallelSelect (totalCount chunkSize maxParallel : Z)
  (where_ : value) : option (list value) :=
  if (totalCount <=? chunkSize)%Z then None
  else
    let actualParallel :=
      if (chunkSize =? 0)%Z then maxParallel
      else Z.min (- ((- totalCount) / chunkSize))%Z maxParallel in
    Some (List.map
            (fun i =>
               VObj (Js.set "LIMIT"
                       (VArr [VNum (Z.of_nat i * chunkSize); VNum chunkSize])
                       (Js.own where_)))
            (List.seq 0 (Z.to_nat actualParallel))).

(** ** The column map *)

Module ReMap.

(** [([a-zA-Z0-9_]+\.)?(?<column>[a-zA-Z0-9_]+)] at the head of [s]: the
    group [column] and what follows it.  A run followed by a dot and
    another run is a table and the column; else the first run is the
    column. *)
Definition column_at (s : string) : option (string * string) :=
  let (a, r) := Str.span Str.is_word s in
  if Str.is_empty a then None
  else match r with
       | String c r' =>
           if Ascii.eqb c "." then
             let (b, r'') := Str.span Str.is_word r' in
             if Str.is_empty b then Some (a, r) else Some (b, r'')
           else Some (a, r)
       | EmptyString => Some (a, r)
       end.

(** One attempt of the pattern of a selected column (line 680): the
    groups [column], [alias] and [type]. *)
Definition selected_at (s : string)
  : option (string * option string * option string) :=
  match column_at s with
  | None => None
  | Some (column, r) =>
      let (alias, r1) :=
        match ReCol.paren (snd (Str.span Str.is_space r)) with
        | Some (a, r') => (Some a, r')
        | None => (None, r)
        end in
      let type :=
        match Re.bracket [] ReCol.type_names
                (snd (Str.span Str.is_space r1)) with
        | Some (t, _) => Some t
        | None => None
        end in
      Some (column, alias, type)
  end.

Definition selected (s : string)
  : option (string * option string * option string) :=
  Str.search selected_at s.

(** One attempt of the pattern of a raw column key (line 687): the groups
    [column] and [type]. *)
Definition raw_at (s : string) : option (string * option string) :=
  match column_at s with
  | None => None
  | Some (column, r) =>
      Some (column,
            match Re.bracket [] ["STRING"; "BOOL"; "INT"; "NUMBER"]
                    (snd (Str.span Str.is_space r)) with
            | Some (t, _) => Some t
            | None => None
            end)
  end.

Definition raw (s : string) : option (string * option string) :=
  Str.search raw_at s.

End ReMap.

(** [stack[k] = e] on a column map *)
Fixpoint colmap_set (k : string) (e : string * string) (m : colmap) : colmap :=
  match m with
  | [] => [(k, e)]
  | (k', e') :: m' =>
      if String.eqb k' k then (k, e) :: m' else (k', e') :: colmap_set k e m'
  end.

(** [type || 'String'] *)
Definition orString (type : option string) : string :=
  match type with Some t => t | None => "String" end.

(** The body of the loop of [columnMap] (lines 676-698) for one entry: the
    stack it leaves.  The recursive call of line 696 is on an array and
    returns at once.  [single] is [Object.keys(columns).length === 1]. *)
Definition columnMap_entry (root single : bool) (key : string) (v : value)
  (stack : colmap) : res colmap :=
  if Js.isIntKey key then
    match v with
    | VStr s =>
        match ReMap.selected s with
        | None => Throw TypeError
        | Some (column, alias, type) =>
            Ok (colmap_set s
                  (match alias with Some a => a | None => column end,
                   orString type) stack)
        end
    | _ => Throw TypeError
    end
  else if Js.isRaw v then
    match ReMap.raw key with
    | None => Throw TypeError
    | Some (column, type) => Ok (colmap_set key (column, orString type) stack)
    end
  else
    match v with
    | VArr _ =>
        Ok (if root && single then colmap_set key (key, "String") stack
            else stack)
    | _ => Ok stack
    end.

Fixpoint columnMap_entries (root single : bool) (es : props) (stack : colmap)
  : res colmap :=
  match es with
  | [] => Ok stack
  | (key, v) :: es' =>
      match columnMap_entry root single key v stack with
      | Throw e => Throw e
      | Ok stack' => columnMap_entries root single es' stack'
      end
  end.

(** [columnMap(columns, stack, root)] (lines 667-701) *)
Definition columnMap (columns : value) (stack : colmap) (root : bool)
  : res colmap :=
  match columns with
  | VObj _ | VRaw _ _ =>
      columnMap_entries root (Nat.eqb (List.length (Js.own columns)) 1)
        (Js.own columns) stack
  | _ => Ok stack
  end.

(** *** The patterns of a [LIKE] condition *)

(** The pattern bound for an item of a [LIKE] condition (lines 377-381):
    the item between two [%] unless it holds a wildcard of its own. *)
Definition likeValue (s : string) : string :=
  if negb (Re.like_meta s) then "%" ++ s ++ "%" else s.

(** [Array.isArray(value) ? value : [value]] *)
Definition likeItems (v : value) : list value :=
  match v with VArr items => items | _ => [v] end.

(** The parameters of the items of a [LIKE] condition under the parameter
    name [k]: the name [k + "L" + index] with the pattern of each item. *)
Definition likeParams (k : string) (items : list value) : props :=
  List.map (fun kv => (k ++ "L" ++ fst kv,
                       VStr (likeValue (Js.to_string (snd kv)))))
           (Js.indexed 0 items).

(** *** The rows of an [insert] *)

(** The records of [insert]: [Array.isArray(datas) ? datas : [datas]] *)
Definition records (datas : value) : list value :=
  match datas with VArr items => items | _ => [datas] end.

(** The values that a record gives to the columns of an [insert], in the
    order of the columns: the stored value of its entry, [null] for a
    column it does not have. *)
Definition insertRow (js : value -> string) (columns : list string)
  (data : value) : list value :=
  List.map (fun key => match Js.lookup key (Js.own data) with
                       | None => VNull
                       | Some v => storedValue js v
                       end) columns.

(** A record that is a plain object without raw fragment. *)
Definition plainRecord (data : value) : bool :=
  match data with
  | VObj ps => List.forallb (fun kv => negb (Js.isRaw (snd kv))) ps
  | _ => false
  end.

(** The columns of an [insert]: the distinct keys of its records, each at
    its first place. *)
Definition insertColumns (recs : list value) : list string :=
  uniq (List.concat (List.map (fun r => List.map fst (Js.own r)) recs)).

(** The parameters that [replace] binds for the pairs of one column from
    the counter value [g]: the old text under the name of the counter
    value followed by [a], the new value under the same name followed by
    [b]. *)
Fixpoint replaceParams (g : nat) (pairs : props) : props :=
  match pairs with
  | [] => []
  | (oldValue, newValue) :: pairs' =>
      (paramName g ++ "a", VStr oldValue)
        :: (paramName g ++ "b", newValue) :: replaceParams (S g) pairs'
  end.

(** *** The suffix that [columnPush] leaves after an alias *)

(** What [columnPush] writes after the alias of a selected column
    (lines 213-215): the declared type between brackets, after a space. *)
Definition typeSuffix (type : option string) : string :=
  match type with
  | Some t => " [" ++ t ++ "]"
  | None => EmptyString
  end.

(** *** States that extend one another *)

(** The state [st'] extends [st]: the counter has not gone back, and every
    parameter name bound in [st] is still bound in [st']. *)
Definition extends (st st' : cstate) : Prop :=
  (guid st <= guid st')%nat /\
  forall k, In k (List.map fst (pmap st)) -> In k (List.map fst (pmap st')).

(** A computation whose final state, returned or thrown, extends the
    state it starts from. *)
Definition grows {A} (m : M A) : Prop :=
  forall st, extends st (snd (m st)).

(** *** Statements with named and with positional parameters *)

(** A text without colon: no parameter name starts in it. *)
Definition colon_free (s : string) : bool := negb (Str.includes ":" s).

(** [marks sql names text]: [sql] is a sequence of texts without colon
    with the parameter names [names] between them, in this order, and
    [text] is the same sequence with a question mark in the place of each
    name. *)
Inductive marks : string -> list string -> string -> Prop :=
| marks_text (t : string) : colon_free t = true -> marks t [] t
| marks_name (t k s s' : string) (names : list string) :
    colon_free t = true -> marks s names s' ->
    marks (t ++ k ++ s) (k :: names) (t ++ "?" ++ s').

Definition marked (s : string) (names : list string) : Prop :=
  exists s', marks s names s'.

(** The fragments of a stack, joined by any separator without colon. *)
Definition marked_stack (stack : list string) (names : list string) : Prop :=
  forall sep, colon_free sep = true -> marked (Str.join sep stack) names.

(** From the counter value [g], the run [m] returns a result and binds new
    parameters under generated names, all distinct, whose values are [vs]
    in this order; the result and the names are related by [R]. *)
Definition runs_marked {A} (R : A -> list string -> Prop) (m : M A)
  (g : nat) (vs : list value) : Prop :=
  exists a g' new,
    (g <= g')%nat /\
    List.map snd new = vs /\
    NoDup (List.map fst new) /\
    (forall x, In x (List.map fst new) -> generated g g' x) /\
    R a (List.map fst new) /\
    forall st,
      guid st = g -> m st = (Ok a, mkState g' (Js.assign (pmap st) new)).

(** ** The rows that [select] and [get] return *)

(** A JavaScript array that is filled by [push] and by assignments to its
    properties: its length and its properties, the elements under their
    indices.  The property [length] itself is not a key of the model. *)
Record jsarray : Type := mkArray { alength : nat; aitems : props }.

(** The array index that a property key denotes, if any: the canonical
    numeral of an integer below [2^32 - 1]. *)
Definition asIndex (k : string) : option nat :=
  match NilEmpty.uint_of_string k with
  | Some d =>
      let n := Nat.of_uint d in
      if String.eqb (Str.of_nat n) k && (N.of_nat n <? 4294967295)%N
      then Some n else None
  | None => None
  end.

(** [a.push(v)] *)
Definition push (v : value) (a : jsarray) : jsarray :=
  mkArray (S (alength a)) (Js.set (Str.of_nat (alength a)) v (aitems a)).

(** [a[index] = v] *)
Definition setAt (index v : value) (a : jsarray) : jsarray :=
  let k := Js.to_string index in
  mkArray (match asIndex k with
           | Some n => Nat.max (alength a) (S n)
           | None => alength a
           end)
          (Js.set k v (aitems a)).

(** [indexKey.replace(/^[a-zA-Z0-9_]+\./i, '')] (line 718) *)
Definition dataKeyOf (indexKey : string) : string :=
  let (a, r) := Str.span Str.is_word indexKey in
  if Str.is_empty a then indexKey
  else match r with
       | String c r' => if Ascii.eqb c "." then r' else indexKey
       | EmptyString => indexKey
       end.

(** [v === '*'] *)
Definition isStar (v : value) : bool :=
  match v with VStr s => String.eqb s "*" | _ => false end.

(** [typeof column === 'string' && column !== '*'] *)
Definition isSingle (column : value) : bool :=
  match column with VStr s => negb (String.eqb s "*") | _ => false end.

(** What [select] returns: the rows of the driver as they are, the array
    [result] of the mapped rows, or the list [singleResult]. *)
Inductive selected : Type :=
| Rows (rows : list props)
| Mapped (result : jsarray)
| Singles (items : list value).

Section Rows.

Variable JSON_parse : value -> option value.
Variable parseFloat parseInt : value -> value.

(** [dataMap(data, columns, columnMap, currentStack, true, result)]
    (lines 705-731): the array [result] it leaves.  A stack is stored as
    the object of its named properties. *)
Definition dataMapRoot (data : props) (columns : value) (cm : colmap)
  (result : jsarray) : jsarray :=
  let mapped c := VObj (dataMap JSON_parse parseFloat parseInt data cm c []) in
  match columns with
  | VObj _ | VRaw _ _ =>
      match Js.own columns with
      | [(indexKey, VArr items)] =>
          setAt (Js.field (dataKeyOf indexKey) data) (mapped (VArr items))
                result
      | _ => push (mapped columns) result
      end
  | _ => push (mapped columns) result
  end.

(** The column map that [select] and [get] build (lines 821-823 and
    878-879): only for an object given as [columns]. *)
Definition buildColumnMap (columns : value) : res colmap :=
  if Js.truthy columns && Js.is_object columns
  then columnMap columns [] true
  else Ok [].

(** [select] after [exec] (lines 809-841), for the rows [rows] of the
    driver and the arguments as [selectContext] has left them. *)
Definition selectRows (join columns where_ : value) (rows : list props)
  : res selected :=
  let column := if isNull where_ then join else columns in
  if isStar columns || (isNull where_ && isStar join) then Ok (Rows rows)
  else
    match buildColumnMap columns with
    | Throw e => Throw e
    | Ok cm =>
        let result :=
          List.fold_left (fun r data => dataMapRoot data columns cm r)
                         rows (mkArray 0 []) in
        match (if isSingle column
               then colmap_get (Js.to_string column) cm else None) with
        | Some (resultKey, _) =>
            match
              mapRes
                (fun i =>
                   match Js.field (Str.of_nat i) (aitems result) with
                   | VUndef | VNull => Throw TypeError
                   | item => Ok (Js.field resultKey (Js.own item))
                   end)
                (List.seq 0 (alength result))
            with
            | Throw e => Throw e
            | Ok items => Ok (Singles items)
            end
        | None => Ok (Mapped result)
        end
    end.

(** [get] after [exec] (lines 869-890): the value it returns, a row being
    the object of its columns. *)
Definition getRow (join columns where_ : value) (rows : list props)
  : res value :=
  match rows with
  | [] => Ok VNull
  | data :: _ =>
      let column := if isNull where_ then join else columns in
      if isStar column || (isNull where_ && isStar join) then Ok (VObj data)
      else
        match
          (if Js.truthy columns && Js.is_object columns
           then match columnMap columns [] true with
                | Throw e => Throw e
                | Ok cm => Ok (cm, dataMapRoot data columns cm (mkArray 0 []))
                end
           else Ok ([], mkArray 0 []))
        with
        | Throw e => Throw e
        | Ok (cm, result) =>
            let first := Js.field "0" (aitems result) in
            match (if isSingle column
                   then colmap_get (Js.to_string column) cm else None) with
            | Some (resultKey, _) =>
                Ok (if Js.truthy first
                    then Js.field resultKey (Js.own first) else VNull)
            | None => Ok (if Js.truthy first then first else VObj data)
            end
        end
  end.

End Rows.

(** The object in which every key of [ps] holds a copy of the row
    [data]. *)
Definition wrapped (ps : props) (data : props) : value :=
  VObj (List.map (fun kv => (fst kv, VObj (Js.assign [] data))) ps).

(** A where object whose keys are not made of digits and whose values are
    neither plain objects nor raw fragments, and which is not one key
    with a list. *)
Definition flatWhere (ps : props) : bool :=
  List.forallb (fun kv => negb (Js.isIntKey (fst kv))
                          && match snd kv with
                             | VObj _ | VRaw _ _ => false
                             | _ => true
                             end) ps
  && match ps with
     | [(_, VArr _)] => false
     | _ => true
     end.

(** * Properties *)

(** ** Strings *)

Lemma append_nil_r (s : string) : s ++ "" = s.
Proof. induction s as [|c s IH]; simpl; [reflexivity | now rewrite IH]. Qed.

Lemma append_assoc (a b c : string) : (a ++ b) ++ c = a ++ (b ++ c).
Proof. induction a as [|x a IH]; simpl; [reflexivity | now rewrite IH]. Qed.

Lemma span_app (p : ascii -> bool) (s : string) :
  fst (Str.span p s) ++ snd (Str.span p s) = s.
Proof.
  induction s as [|c s IH]; simpl; [reflexivity|].
  destruct (p c); [|reflexivity].
  destruct (Str.span p s) as [a r]; simpl in *. now rewrite IH.
Qed.

Lemma span_fst_all (p : ascii -> bool) (s : string) :
  Str.all p (fst (Str.span p s)) = true.
Proof.
  induction s as [|c s IH]; simpl; [reflexivity|].
  destruct (p c) eqn:E; [|reflexivity].
  destruct (Str.span p s) as [a r]; simpl in *. now rewrite E.
Qed.

Lemma span_snd_head (p : ascii -> bool) (s : string) c r :
  snd (Str.span p s) = String c r -> p c = false.
Proof.
  induction s as [|d s IH]; simpl; [discriminate|].
  destruct (p d) eqn:E.
  - destruct (Str.span p s) as [a r']; simpl in *. exact IH.
  - simpl. intros H. injection H as -> _. exact E.
Qed.

Lemma span_all (p : ascii -> bool) (s : string) :
  Str.all p s = true -> Str.span p s = (s, "").
Proof.
  induction s as [|c s IH]; simpl; [reflexivity|].
  intros H. apply andb_prop in H as [Hc Hs].
  now rewrite Hc, (IH Hs).
Qed.

Lemma all_app_false (p : ascii -> bool) (a : string) c (x : string) :
  p c = false -> Str.all p (a ++ String c x) = false.
Proof.
  intros Hc. induction a as [|d a IH]; simpl.
  - now rewrite Hc.
  - rewrite IH. apply andb_false_r.
Qed.

(** ** The identifier quoter *)

Lemma word_not_dot (c : ascii) : Str.is_word c = true -> Ascii.eqb c "." = false.
Proof.
  destruct (Ascii.eqb c ".") eqn:E; [|reflexivity].
  apply Ascii.eqb_eq in E. subst c. vm_compute. discriminate.
Qed.

Lemma segments_word_prefix (a r : string) :
  Str.all Str.is_word a = true ->
  QuoterSpec.segments (a ++ r)
  = (a ++ fst (QuoterSpec.segments r), snd (QuoterSpec.segments r)).
Proof.
  induction a as [|c a IH]; simpl; intros H.
  - now destruct (QuoterSpec.segments r).
  - apply andb_prop in H as [Hc Ha].
    rewrite (IH Ha), (word_not_dot _ Hc). reflexivity.
Qed.

Lemma includes_word_prefix (a r : string) :
  Str.all Str.is_word a = true ->
  Str.includes "." (a ++ r) = Str.includes "." r.
Proof.
  unfold Str.includes.
  induction a as [|c a IH]; cbn [Str.any Str.all String.append]; intros H;
    [reflexivity|].
  apply andb_prop in H as [Hc Ha]. rewrite (IH Ha).
  rewrite Ascii.eqb_sym, (word_not_dot _ Hc). reflexivity.
Qed.

Lemma replace_word_prefix (by_ a r : string) :
  Str.all Str.is_word a = true ->
  Str.replace_first "." by_ (a ++ String "." r) = a ++ by_ ++ r.
Proof.
  induction a as [|c a IH]; simpl; intros H; [reflexivity|].
  apply andb_prop in H as [Hc Ha].
  now rewrite (word_not_dot _ Hc), (IH Ha).
Qed.

Lemma ident_nonword (a : string) c (x : string) :
  Str.is_word c = false -> QuoterSpec.ident (a ++ String c x) = false.
Proof.
  intros H. unfold QuoterSpec.ident.
  rewrite (all_app_false _ a c x H). apply andb_false_r.
Qed.

Lemma ident_word (a : string) :
  Str.all Str.is_word a = true ->
  QuoterSpec.ident a = negb (Str.is_empty a).
Proof. intros H. unfold QuoterSpec.ident. rewrite H. apply andb_true_r. Qed.

Lemma tableQuote_spec (prefix name : string) :
  tableQuote prefix name = QuoterSpec.quoteTable prefix name.
Proof.
  unfold tableQuote, QuoterSpec.quoteTable, re_table, QuoterSpec.quoted.
  destruct (Str.all Str.is_word name) eqn:E.
  - rewrite (span_all _ _ E), (ident_word _ E). simpl.
    rewrite andb_true_r.
    destruct (Str.is_empty name); simpl; [reflexivity|].
    now rewrite append_assoc.
  - pose proof (span_app Str.is_word name) as Happ.
    pose proof (span_fst_all Str.is_word name) as Hall.
    destruct (Str.span Str.is_word name) as [run rest]; simpl in *.
    unfold QuoterSpec.ident. rewrite E, andb_false_r.
    destruct rest as [|c rest]; simpl.
    + rewrite append_nil_r in Happ. congruence.
    + now rewrite andb_false_r.
Qed.

Lemma columnQuote_spec (prefix ref : string) :
  columnQuote prefix ref = QuoterSpec.quoteColumn prefix ref.
Proof.
  unfold columnQuote, QuoterSpec.quoteColumn, re_column.
  pose proof (span_app Str.is_word ref) as Happ.
  pose proof (span_fst_all Str.is_word ref) as Hall.
  pose proof (span_snd_head Str.is_word ref) as Hhd.
  destruct (Str.span Str.is_word ref) as [a rest]; simpl in *.
  subst ref. rewrite (segments_word_prefix _ _ Hall).
  rewrite (includes_word_prefix _ _ Hall).
  destruct rest as [|c rest].
  - simpl. rewrite !append_nil_r, (ident_word _ Hall), andb_true_r.
    now destruct (Str.is_empty a).
  - specialize (Hhd c rest eq_refl).
    destruct (Ascii.eqb c ".") eqn:Ec.
    + apply Ascii.eqb_eq in Ec. subst c.
      pose proof (span_app Str.is_word rest) as Happ'.
      pose proof (span_fst_all Str.is_word rest) as Hall'.
      pose proof (span_snd_head Str.is_word rest) as Hhd'.
      destruct (Str.span Str.is_word rest) as [b rest'] eqn:Eb.
      simpl in Happ', Hall', Hhd'.
      cbn [QuoterSpec.segments]. rewrite Ascii.eqb_refl.
      destruct (QuoterSpec.segments rest) as [h t] eqn:Es.
      cbn [fst snd]. rewrite append_nil_r, (ident_word _ Hall).
      rewrite <- Happ' in Es. rewrite (segments_word_prefix _ _ Hall') in Es.
      destruct rest' as [|d rest'].
      * simpl in Es. rewrite append_nil_r in Es, Happ'.
        injection Es as <- <-. subst b.
        rewrite (ident_word _ Hall'). simpl. rewrite !andb_true_r.
        destruct (negb (Str.is_empty a) && negb (Str.is_empty rest)) eqn:E;
          simpl; [|reflexivity].
        rewrite (replace_word_prefix _ _ _ Hall).
        unfold QuoterSpec.quoted. f_equal.
        rewrite !append_assoc. simpl. reflexivity.
      * specialize (Hhd' d rest' eq_refl).
        simpl. rewrite !andb_false_r. simpl.
        injection Es as <- <-.
        cbn [QuoterSpec.segments].
        destruct (QuoterSpec.segments rest') as [h' t'].
        destruct (Ascii.eqb d "."); cbn [fst snd].
        -- reflexivity.
        -- rewrite (ident_nonword b d h' Hhd'), andb_false_r.
           now destruct t'.
    + simpl. rewrite andb_false_r. simpl.
      destruct (QuoterSpec.segments rest) as [h t].
      rewrite Ec. cbn [fst snd].
      rewrite (ident_nonword a c h Hhd).
      destruct t as [|x [|y t]]; reflexivity.
Qed.

(** C5. Identifier quoter: [tableQuote] and [columnQuote] are the functions
    of the prefix and of their input that the specification describes.
    [tableQuote] fails unless the name matches [^[A-Za-z0-9_]+$] and
    otherwise returns the prefix and the name between double quotes;
    [columnQuote] fails unless its input is one such segment or two joined
    by a dot, quotes each segment, rejoins them with a dot and puts the
    prefix before the first segment of a dotted reference only. *)
Theorem quoter_meets_spec (prefix input : string) :
  tableQuote prefix input = QuoterSpec.quoteTable prefix input /\
  columnQuote prefix input = QuoterSpec.quoteColumn prefix input.
Proof.
  split; [apply tableQuote_spec | apply columnQuote_spec].
Qed.

(** ** Objects *)

Lemma lookup_delete_ne (k k' : string) (ps : props) :
  k <> k' -> Js.lookup k (Js.delete k' ps) = Js.lookup k ps.
Proof.
  intros Hne. induction ps as [|[x v] ps IH]; simpl; [reflexivity|].
  destruct (String.eqb x k') eqn:E1.
  - apply String.eqb_eq in E1. subst x.
    destruct (String.eqb k' k) eqn:E2; [|exact IH].
    apply String.eqb_eq in E2. congruence.
  - simpl. now rewrite IH.
Qed.

Lemma lookup_delete_eq (k : string) (ps : props) :
  Js.lookup k (Js.delete k ps) = None.
Proof.
  induction ps as [|[x v] ps IH]; simpl; [reflexivity|].
  destruct (String.eqb x k) eqn:E; [exact IH|].
  simpl. now rewrite E.
Qed.

Lemma field_delete_ne (k k' : string) (ps : props) :
  k <> k' -> Js.field k (Js.delete k' ps) = Js.field k ps.
Proof. intros H. unfold Js.field. now rewrite lookup_delete_ne. Qed.

Lemma delete_comm (k k' : string) (ps : props) :
  Js.delete k (Js.delete k' ps) = Js.delete k' (Js.delete k ps).
Proof.
  induction ps as [|[x v] ps IH]; simpl; [reflexivity|].
  destruct (String.eqb x k') eqn:E1, (String.eqb x k) eqn:E2; simpl;
    rewrite ?E1, ?E2, ?IH; reflexivity.
Qed.

Lemma delete_idem (k : string) (ps : props) :
  Js.delete k (Js.delete k ps) = Js.delete k ps.
Proof.
  induction ps as [|[x v] ps IH]; simpl; [reflexivity|].
  destruct (String.eqb x k) eqn:E; simpl; rewrite ?E, ?IH; reflexivity.
Qed.

Lemma delete_absent (k : string) (ps : props) :
  Js.lookup k ps = None -> Js.delete k ps = ps.
Proof.
  induction ps as [|[x v] ps IH]; simpl; [reflexivity|].
  destruct (String.eqb x k); [discriminate|].
  intros H. now rewrite (IH H).
Qed.

Lemma delete_other (k k' : string) v (ps : props) :
  k <> k' -> Js.lookup k ps = Some v -> Js.lookup k (Js.delete k' ps) = Some v.
Proof. intros Hne H. now rewrite lookup_delete_ne. Qed.

(** ** The clause assembler *)

Lemma strip_HAVING (ps : props) :
  strip special_keys (Js.delete "HAVING" ps) = strip special_keys ps.
Proof.
  unfold strip, special_keys. simpl.
  rewrite (delete_comm "GROUP" "HAVING"), (delete_comm "ORDER" "HAVING").
  now rewrite delete_idem.
Qed.

Lemma groupClause_no_GROUP prefix rr (ps : props) :
  Js.lookup "GROUP" ps = None -> groupClause prefix rr ps = ret "".
Proof. intros H. unfold groupClause, Js.field. now rewrite H. Qed.

(** C9. A [HAVING] entry without a [GROUP] entry is dropped: when the
    object given as [where] has no [GROUP] key, [whereClause] returns the
    same clause, leaves the same parameters and counter and raises the
    same exception, if any, as for the object without its [HAVING] entry.
    A [HAVING] clause is therefore emitted only when a [GROUP] key is
    present. *)
Theorem having_dropped_without_group
  prefix rr esc (ps : props) (st : cstate) :
  Js.lookup "GROUP" ps = None ->
  whereClause prefix rr esc (VObj ps) st
  = whereClause prefix rr esc (VObj (Js.delete "HAVING" ps)) st.
Proof.
  intros H. unfold whereClause. cbn [Js.own].
  rewrite strip_HAVING.
  rewrite (groupClause_no_GROUP _ _ ps H).
  rewrite (groupClause_no_GROUP _ _ (Js.delete "HAVING" ps))
    by (rewrite lookup_delete_ne; [exact H | discriminate]).
  unfold orderClause, limitClause.
  rewrite !(field_delete_ne _ "HAVING") by discriminate.
  reflexivity.
Qed.

(** A where object with a [HAVING] condition on a count and the condition
    [id: 1] compiles as [{ id: 1 }] does: the [HAVING] condition leaves no
    trace. *)
Lemma having_dropped_without_group_witness :
  Js.lookup "GROUP"
    [("HAVING", VObj [("COUNT(*)[>]", VNum 5)]); ("id", VNum 1)] = None /\
  whereClause "" Ok (fun v => Js.to_string v)
    (VObj [("HAVING", VObj [("COUNT(*)[>]", VNum 5)]); ("id", VNum 1)])
    (mkState 0 [])
  = (Ok (" WHERE " ++ Str.dq ++ "id" ++ Str.dq ++ " = :medoo_0_param"),
     mkState 1 [(":medoo_0_param", VNum 1)]).
Proof.
  split; [reflexivity|].
  rewrite (having_dropped_without_group "" Ok (fun v => Js.to_string v)
             [("HAVING", VObj [("COUNT(*)[>]", VNum 5)]); ("id", VNum 1)]
             (mkState 0 []) eq_refl).
  vm_compute. reflexivity.
Defined.

Lemma limitClause_number (ps : props) (n : Z) :
  Js.field "LIMIT" ps = VNum n -> n <> 0%Z ->
  limitClause ps = " LIMIT " ++ Str.of_Z n.
Proof.
  intros H Hn. unfold limitClause. rewrite H. simpl.
  destruct (Z.eqb_spec n 0); [contradiction | reflexivity].
Qed.

Lemma limitClause_pair (ps : props) (offset count : value) :
  Js.field "LIMIT" ps = VArr [offset; count] ->
  limitClause ps
  = " LIMIT " ++ Js.to_string count ++ " OFFSET " ++ Js.to_string offset.
Proof. intros H. unfold limitClause. now rewrite H. Qed.

(** The clause that [whereClause] returns for an object ends with its
    [LIMIT] part. *)
Lemma whereClause_limit prefix rr esc (ps : props) st s st' :
  whereClause prefix rr esc (VObj ps) st = (Ok s, st') ->
  exists before, s = before ++ limitClause ps.
Proof.
  unfold whereClause. cbn [Js.own].
  generalize (match strip special_keys ps with
              | [] => ret ""
              | _ :: _ =>
                  c <- dataImplode prefix rr (VObj (strip special_keys ps))
                         " AND" ;;
                  ret (" WHERE " ++ c)
              end).
  intros m. unfold bind.
  destruct (m st) as [[w|] st1]; [|discriminate].
  destruct (groupClause prefix rr ps st1) as [[g|] st2]; [|discriminate].
  destruct (orderClause prefix rr esc ps st2) as [[o|] st3]; [|discriminate].
  intros [= <- _]. exists (w ++ g ++ o). now rewrite !append_assoc.
Qed.

(** C8. The where object [{ LIMIT: 0 }] assembles to the empty clause:
    the test [if (where.LIMIT)] takes the number 0 for an absent entry, so
    no [LIMIT 0] is emitted, whereas the list form [{ LIMIT: [0, 0] }]
    assembles to [LIMIT 0 OFFSET 0]. *)
Theorem limit_zero_emits_no_clause prefix rr esc (st : cstate) :
  whereClause prefix rr esc (VObj [("LIMIT", VNum 0)]) st = (Ok "", st) /\
  whereClause prefix rr esc (VObj [("LIMIT", VArr [VNum 0; VNum 0])]) st
  = (Ok " LIMIT 0 OFFSET 0", st).
Proof. split; reflexivity. Qed.

(** ** Parameter names *)

Lemma append_inj_l (a x y : string) : a ++ x = a ++ y -> x = y.
Proof.
  induction a as [|c a IH]; simpl; intros H; [exact H|].
  injection H as H. exact (IH H).
Qed.

Lemma uint_digits (d : Decimal.uint) :
  Str.all Str.is_digit (NilEmpty.string_of_uint d) = true.
Proof. induction d; simpl; try rewrite IHd; reflexivity. Qed.

Lemma of_nat_digits (n : nat) : Str.all Str.is_digit (Str.of_nat n) = true.
Proof. apply uint_digits. Qed.

Lemma of_nat_inj (n m : nat) : Str.of_nat n = Str.of_nat m -> n = m.
Proof.
  unfold Str.of_nat. intros H.
  apply (f_equal NilEmpty.uint_of_string) in H.
  rewrite !NilEmpty.usu in H. injection H as H.
  now apply DecimalNat.Unsigned.to_uint_inj.
Qed.

Lemma of_nat_nonempty (n : nat) : Str.is_empty (Str.of_nat n) = false.
Proof.
  destruct (Str.is_empty (Str.of_nat n)) eqn:E; [|reflexivity].
  assert (H : Str.of_nat n = "") by (now destruct (Str.of_nat n)).
  unfold Str.of_nat in H.
  apply (f_equal NilEmpty.uint_of_string) in H.
  rewrite NilEmpty.usu in H. simpl in H. injection H as H.
  pose proof (DecimalNat.Unsigned.of_to n) as Hn. rewrite H in Hn.
  simpl in Hn. subst n. discriminate.
Qed.

(** Two numerals followed by a character that is not a digit: the
    numerals and what follows them agree. *)
Lemma digits_sep (a b : string) c d (x y : string) :
  Str.all Str.is_digit a = true -> Str.all Str.is_digit b = true ->
  Str.is_digit c = false -> Str.is_digit d = false ->
  a ++ String c x = b ++ String d y -> a = b /\ String c x = String d y.
Proof.
  revert b. induction a as [|u a IH]; intros [|v b] Ha Hb Hc Hd H;
    simpl in *.
  - now split.
  - injection H as -> _. apply andb_prop in Hb as [Hv _]. congruence.
  - injection H as -> _. apply andb_prop in Ha as [Hu _]. congruence.
  - injection H as -> H.
    apply andb_prop in Ha as [_ Ha]. apply andb_prop in Hb as [_ Hb].
    destruct (IH b Ha Hb Hc Hd H) as [-> E]. now split.
Qed.

Lemma paramName_inj (g g' : nat) (x y : string) :
  paramName g ++ x = paramName g' ++ y -> g = g' /\ x = y.
Proof.
  unfold paramName. rewrite !append_assoc. intros H.
  apply append_inj_l in H.
  apply (digits_sep _ _ "_" "_" ("param" ++ x) ("param" ++ y)) in H;
    try apply of_nat_digits; try reflexivity.
  destruct H as [H1 H2]. apply of_nat_inj in H1.
  injection H2 as H2. now split.
Qed.

Lemma itemName_inj (k : string) (i j : nat) :
  k ++ Str.of_nat i ++ "_i" = k ++ Str.of_nat j ++ "_i" -> i = j.
Proof.
  intros H. apply append_inj_l in H.
  apply digits_sep in H; try apply of_nat_digits; try reflexivity.
  destruct H as [H _]. now apply of_nat_inj.
Qed.

(** ** Condition keys *)

Lemma search_head {A} (p : string -> option A) (s : string) (a : A) :
  p s = Some a -> Str.search p s = Some a.
Proof. intros H. destruct s; simpl; now rewrite H. Qed.

Lemma all_impl (p q : ascii -> bool) (s : string) :
  (forall c, p c = true -> q c = true) ->
  Str.all p s = true -> Str.all q s = true.
Proof.
  intros Hpq. induction s as [|c s IH]; simpl; [reflexivity|].
  intros H. apply andb_prop in H as [Hc Hs].
  now rewrite (Hpq c Hc), (IH Hs).
Qed.

Lemma digit_is_key (c : ascii) : Str.is_digit c = true -> Re.is_key c = true.
Proof.
  intros H. unfold Re.is_key, Re.is_ref, Str.is_word. rewrite H.
  now rewrite orb_true_r.
Qed.

Lemma space_not_key (c : ascii) :
  Str.is_space c = true -> Re.is_key c = false /\ Ascii.eqb c "[" = false.
Proof.
  destruct c as [[] [] [] [] [] [] [] []]; vm_compute; intros H;
    (discriminate H || (split; reflexivity)).
Qed.

(** A key made of digits has no operator. *)
Lemma isIntKey_key (key : string) :
  Js.isIntKey key = true -> Re.key key = Some (key, None).
Proof.
  unfold Js.isIntKey. intros H. apply andb_prop in H as [Hne Hall].
  apply search_head. unfold Re.key_at.
  rewrite (span_all _ _ (all_impl _ _ _ digit_is_key Hall)).
  destruct (Str.is_empty key); [discriminate | reflexivity].
Qed.

Lemma starts_app (pre s r : string) : Re.starts pre s = Some r -> s = pre ++ r.
Proof.
  revert s. induction pre as [|c pre IH]; intros s; simpl.
  - now intros [= ->].
  - destruct s as [|d s]; [discriminate|].
    destruct (Ascii.eqb c d) eqn:E; [|discriminate].
    apply Ascii.eqb_eq in E. subst d. intros H. now rewrite (IH _ H).
Qed.

Lemma logical_rest (rest : string) :
  (let (ws, r) := Str.span Str.is_space rest in
   negb (Str.is_empty ws) &&
   match r with
   | String c comment =>
       Ascii.eqb c "#" && negb (Str.any Str.is_newline comment)
   | EmptyString => false
   end) = true ->
  exists c r, rest = String c r /\ Str.is_space c = true.
Proof.
  destruct rest as [|c r]; simpl; [discriminate|].
  destruct (Str.is_space c) eqn:E; [|discriminate].
  intros _. now exists c, r.
Qed.

(** A logical key has no operator. *)
Lemma logical_key (key : string) :
  Re.logical key = true -> exists w, Re.key key = Some (w, None).
Proof.
  unfold Re.logical, Re.logical_head.
  destruct (Re.starts "AND" key) as [r|] eqn:E1.
  - apply starts_app in E1. subst key. intros H. exists "AND".
    destruct r as [|c r]; [reflexivity|].
    apply logical_rest in H as (c' & r' & [= -> ->] & Hc).
    destruct (space_not_key _ Hc) as [Hk Hb].
    apply search_head. unfold Re.key_at. simpl. rewrite Hk. simpl.
    now rewrite Hb.
  - destruct (Re.starts "OR" key) as [r|] eqn:E2; [|discriminate].
    apply starts_app in E2. subst key. intros H. exists "OR".
    destruct r as [|c r]; [reflexivity|].
    apply logical_rest in H as (c' & r' & [= -> ->] & Hc).
    destruct (space_not_key _ Hc) as [Hk Hb].
    apply search_head. unfold Re.key_at. simpl. rewrite Hk. simpl.
    now rewrite Hb.
Qed.

(** An entry whose key carries an operator compiles as the dispatch on the
    operator does, under the next parameter name, whatever its value. *)
Lemma implode_entry_operator prefix rr rec conj key name op column v st :
  Re.key key = Some (name, Some op) ->
  conditionColumn prefix name = Ok column ->
  implode_entry prefix rr rec conj key v st
  = implode_leaf rr column (paramName (guid st)) (Some op) v
      (mkState (S (guid st)) (pmap st)).
Proof.
  intros Hk Hc. unfold implode_entry.
  destruct (Re.logical key) eqn:El.
  { apply logical_key in El as [w Hw]. congruence. }
  rewrite andb_false_r.
  destruct (Js.isIntKey key) eqn:Ei.
  { apply isIntKey_key in Ei. congruence. }
  unfold bind, mapKey, lift. rewrite Hk, Hc. reflexivity.
Qed.

(** ** Parameters of a list value *)

Lemma lookup_set_eq (k : string) v (ps : props) :
  Js.lookup k (Js.set k v ps) = Some v.
Proof.
  induction ps as [|[x w] ps IH]; simpl.
  - now rewrite String.eqb_refl.
  - destruct (String.eqb x k) eqn:E; simpl; rewrite ?E; auto.
    now rewrite String.eqb_refl.
Qed.

Lemma lookup_set_ne (k k' : string) v (ps : props) :
  k <> k' -> Js.lookup k (Js.set k' v ps) = Js.lookup k ps.
Proof.
  intros Hne. induction ps as [|[x w] ps IH]; simpl.
  - destruct (String.eqb_spec k' k); [congruence | reflexivity].
  - destruct (String.eqb_spec x k'); simpl.
    + subst x. destruct (String.eqb_spec k' k); [congruence | reflexivity].
    + destruct (String.eqb_spec x k); [reflexivity | exact IH].
Qed.

Lemma assign_cons (pm : props) k v (new : props) :
  Js.assign pm ((k, v) :: new) = Js.assign (Js.set k v pm) new.
Proof. reflexivity. Qed.

Lemma assign_lookup_other (k : string) (new pm : props) :
  ~ In k (List.map fst new) ->
  Js.lookup k (Js.assign pm new) = Js.lookup k pm.
Proof.
  revert pm. induction new as [|[x w] new IH]; intros pm Hn; [reflexivity|].
  rewrite assign_cons, IH by (intros H; apply Hn; now right).
  apply lookup_set_ne. intros ->. apply Hn. now left.
Qed.

(** Parameters with distinct names are all bound by [Object.assign]. *)
Lemma assign_lookup (k : string) v (new pm : props) :
  NoDup (List.map fst new) -> In (k, v) new ->
  Js.lookup k (Js.assign pm new) = Some v.
Proof.
  revert pm. induction new as [|[x w] new IH]; intros pm Hnd Hin;
    [contradiction|].
  simpl in Hnd. inversion Hnd as [|? ? Hx Hnd']; subst.
  rewrite assign_cons. destruct Hin as [[= -> ->]|Hin].
  - rewrite assign_lookup_other by exact Hx. apply lookup_set_eq.
  - now apply IH.
Qed.

Lemma indexed_keys (i : nat) (items : list value) (s : string) :
  In s (List.map fst (Js.indexed i items)) ->
  exists j, (i <= j)%nat /\ s = Str.of_nat j.
Proof.
  revert i. induction items as [|v items IH]; intros i; simpl;
    [contradiction|].
  intros [<-|H].
  - exists i. split; [lia | reflexivity].
  - destruct (IH _ H) as (j & Hj & ->). exists j. split; [lia | reflexivity].
Qed.

Lemma indexed_nth (i n : nat) (items : list value) (x : value) :
  nth_error items n = Some x -> In (Str.of_nat (i + n), x) (Js.indexed i items).
Proof.
  revert i n. induction items as [|v items IH]; intros i [|n]; simpl;
    try discriminate.
  - intros [= ->]. left. now rewrite Nat.add_0_r.
  - intros H. right. replace (i + S n)%nat with (S i + n)%nat by lia.
    now apply IH.
Qed.

Lemma indexed_length (i : nat) (items : list value) :
  List.length (Js.indexed i items) = List.length items.
Proof.
  revert i. induction items as [|v items IH]; intros i; simpl;
    [reflexivity | now rewrite IH].
Qed.

Lemma itemParams_from_NoDup (k : string) (i : nat) (items : list value) :
  NoDup (List.map fst
           (List.map (fun kv : string * value =>
                        (k ++ fst kv ++ "_i", snd kv))
                     (Js.indexed i items))).
Proof.
  revert i. induction items as [|v items IH]; intros i; simpl;
    constructor; [|apply IH].
  rewrite List.map_map. simpl. intros H.
  apply List.in_map_iff in H as ([s w] & E & Hin). simpl in E.
  assert (Hs : In s (List.map fst (Js.indexed (S i) items))).
  { apply List.in_map_iff. now exists (s, w). }
  apply indexed_keys in Hs as (j & Hj & ->).
  apply itemName_inj in E. lia.
Qed.

Lemma itemParams_NoDup (k : string) (items : list value) :
  NoDup (List.map fst (itemParams k items)).
Proof. apply itemParams_from_NoDup. Qed.

Lemma itemParams_length (k : string) (items : list value) :
  List.length (itemParams k items) = List.length items.
Proof. unfold itemParams. now rewrite List.length_map, indexed_length. Qed.

Lemma itemParams_values (k : string) (items : list value) :
  List.map snd (itemParams k items) = items.
Proof.
  unfold itemParams. rewrite List.map_map. simpl.
  generalize 0%nat. induction items as [|v items IH]; intros i; simpl;
    [reflexivity | now rewrite IH].
Qed.

(** Each element of a list value is bound to the parameter of its index. *)
Lemma itemParams_bound (k : string) (items : list value) (pm : props) n x :
  nth_error items n = Some x ->
  Js.lookup (k ++ Str.of_nat n ++ "_i") (Js.assign pm (itemParams k items))
  = Some x.
Proof.
  intros H. apply assign_lookup; [apply itemParams_NoDup|].
  unfold itemParams. apply List.in_map_iff.
  exists (Str.of_nat n, x). split; [reflexivity|].
  exact (indexed_nth 0 n items x H).
Qed.

Lemma forEach_bind (name : nat -> string) (i : nat) (items : list value)
  (st : cstate) :
  forEach (fun item index => bindParam (name index) item) i items st
  = (Ok tt,
     mkState (guid st)
       (List.fold_left
          (fun t kv => Js.set (fst kv) (snd kv) t)
          (List.combine (List.map name (List.seq i (List.length items)))
                        items)
          (pmap st))).
Proof.
  revert i st. induction items as [|v items IH]; intros i st; simpl.
  - now destruct st.
  - unfold bind at 1. unfold bindParam at 1. now rewrite IH.
Qed.

Lemma indexed_combine (f : string -> string) (i : nat) (items : list value) :
  List.combine
    (List.map (fun n => f (Str.of_nat n)) (List.seq i (List.length items)))
    items
  = List.map (fun kv : string * value => (f (fst kv), snd kv))
             (Js.indexed i items).
Proof.
  revert i. induction items as [|v items IH]; intros i; simpl;
    [reflexivity | now rewrite IH].
Qed.

Lemma bindItems_run (k : string) (items : list value) (st : cstate) :
  bindItems k items st
  = (Ok tt, mkState (guid st) (Js.assign (pmap st) (itemParams k items))).
Proof.
  unfold bindItems.
  rewrite (forEach_bind (fun n => k ++ Str.of_nat n ++ "_i")).
  rewrite (indexed_combine (fun s => k ++ s ++ "_i")). reflexivity.
Qed.

Lemma placeholders_names (k : string) (items : list value) :
  placeholders k items = Str.join ", " (List.map fst (itemParams k items)).
Proof. unfold placeholders, itemParams. now rewrite List.map_map. Qed.

(** ** The operators of a condition key *)

(** C3. Range operators, as the code has them.  For an entry whose key
    carries [<>] or [><] on a column that resolves to [column]: when the
    value is a list, the entry compiles to [(column BETWEEN :a AND :b)],
    with [NOT] before [BETWEEN] under [><], and binds the first two
    elements of the list to the two parameters, [undefined] standing for
    a missing element; when the value is not a list, the entry pushes no
    fragment, binds no parameter and raises no exception.  In both cases
    one parameter name is consumed. *)
Theorem range_operator prefix rr rec conj key name op column v st :
  Re.key key = Some (name, Some op) ->
  op = "<>" \/ op = "><" ->
  conditionColumn prefix name = Ok column ->
  implode_entry prefix rr rec conj key v st
  = match v with
    | VArr items =>
        (Ok ["(" ++ (if String.eqb op "><" then column ++ " NOT" else column)
               ++ " BETWEEN " ++ paramName (guid st) ++ "a AND "
               ++ paramName (guid st) ++ "b)"],
         mkState (S (guid st))
           (Js.set (paramName (guid st) ++ "b") (Js.nth 1 items)
              (Js.set (paramName (guid st) ++ "a") (Js.nth 0 items)
                 (pmap st))))
    | _ => (Ok [], mkState (S (guid st)) (pmap st))
    end.
Proof.
  intros Hk Hop Hc.
  rewrite (implode_entry_operator _ _ _ _ _ _ _ _ _ _ Hk Hc).
  destruct Hop as [-> | ->]; destruct v; reflexivity.
Qed.

(** The entry ['age[<>]': [18, 65]] compiles to a [BETWEEN] fragment that
    binds 18 and 65. *)
Lemma range_operator_witness :
  implode_entry "" Ok (fun _ _ => ret "") " AND" "age[<>]"
    (VArr [VNum 18; VNum 65]) (mkState 0 [])
  = (Ok ["(" ++ Str.dq ++ "age" ++ Str.dq
           ++ " BETWEEN :medoo_0_parama AND :medoo_0_paramb)"],
     mkState 1 [(":medoo_0_parama", VNum 18); (":medoo_0_paramb", VNum 65)]).
Proof.
  rewrite (range_operator "" Ok (fun _ _ => ret "") " AND" "age[<>]"
             "age" "<>" (Str.dq ++ "age" ++ Str.dq)
             (VArr [VNum 18; VNum 65]) (mkState 0 [])
             eq_refl (or_introl eq_refl) eq_refl).
  vm_compute. reflexivity.
Defined.

(** The condition [{ 'age[<>]': 5 }], whose range value is not a list,
    compiles without any exception, to the empty expression and no
    parameter. *)
Lemma range_scalar_is_not_rejected :
  dataImplode "" Ok (VObj [("age[<>]", VNum 5)]) " AND" (mkState 0 [])
  = (Ok "", mkState 1 []).
Proof. vm_compute. reflexivity. Qed.

(** C6. Negation, as the code has it.  For an entry whose key carries [!]
    on a column that resolves to [column]: [null] compiles to
    [column IS NOT NULL]; a list compiles to [column NOT IN (...)] over the
    parameters of its elements, which are as many as the elements, have
    distinct names and are each bound to its element; a raw fragment
    compiles to [column != text], where [text] is its text after the
    rewriting of its placeholders, and its own parameters are merged; a
    plain object pushes nothing; any other value compiles to
    [column != :param], the parameter bound to the value itself, except
    that [true] is bound as the string [1] and [false] as the string [0]. *)
Theorem negation_operator prefix rr rec conj key name column v st :
  Re.key key = Some (name, Some "!") ->
  conditionColumn prefix name = Ok column ->
  implode_entry prefix rr rec conj key v st
  = match v with
    | VNull =>
        (Ok [column ++ " IS NOT NULL"], mkState (S (guid st)) (pmap st))
    | VArr items =>
        (Ok [column ++ " NOT IN ("
               ++ Str.join ", "
                    (List.map fst (itemParams (paramName (guid st)) items))
               ++ ")"],
         mkState (S (guid st))
           (Js.assign (pmap st) (itemParams (paramName (guid st)) items)))
    | VRaw text m =>
        match rr text with
        | Ok query =>
            (Ok [column ++ " != " ++ query],
             mkState (S (guid st)) (Js.assign (pmap st) m))
        | Throw e => (Throw e, mkState (S (guid st)) (pmap st))
        end
    | VObj _ => (Ok [], mkState (S (guid st)) (pmap st))
    | VBool b =>
        (Ok [column ++ " != " ++ paramName (guid st)],
         mkState (S (guid st))
           (Js.set (paramName (guid st)) (VStr (if b then "1" else "0"))
              (pmap st)))
    | _ =>
        (Ok [column ++ " != " ++ paramName (guid st)],
         mkState (S (guid st)) (Js.set (paramName (guid st)) v (pmap st)))
    end
  /\ (forall items,
        v = VArr items ->
        List.length (itemParams (paramName (guid st)) items)
        = List.length items /\
        NoDup (List.map fst (itemParams (paramName (guid st)) items)) /\
        forall n x,
          nth_error items n = Some x ->
          Js.lookup (paramName (guid st) ++ Str.of_nat n ++ "_i")
            (Js.assign (pmap st) (itemParams (paramName (guid st)) items))
          = Some x).
Proof.
  intros Hk Hc. split.
  - rewrite (implode_entry_operator _ _ _ _ _ _ _ _ _ _ Hk Hc).
    unfold implode_leaf. cbn [Re.mem List.existsb String.eqb Ascii.eqb
                               Bool.eqb orb].
    destruct v as [| |b|n|s|items|ps|text m]; try reflexivity.
    + now destruct b.
    + unfold switch_not, bind. rewrite bindItems_run, placeholders_names.
      reflexivity.
    + unfold switch_not, bind, buildRaw, bind, lift.
      destruct (rr text) as [query|e]; [|reflexivity].
      destruct m; [now destruct st | reflexivity].
  - intros items _. split; [apply itemParams_length|].
    split; [apply itemParams_NoDup|].
    intros n x H. now apply itemParams_bound.
Qed.

(** The entry ['role[!]': ['admin', 'banned']] compiles to a [NOT IN] over
    two parameters bound to the two strings. *)
Lemma negation_operator_witness :
  implode_entry "" Ok (fun _ _ => ret "") " AND" "role[!]"
    (VArr [VStr "admin"; VStr "banned"]) (mkState 0 [])
  = (Ok [Str.dq ++ "role" ++ Str.dq
           ++ " NOT IN (:medoo_0_param0_i, :medoo_0_param1_i)"],
     mkState 1 [(":medoo_0_param0_i", VStr "admin");
                (":medoo_0_param1_i", VStr "banned")]).
Proof.
  rewrite (proj1 (negation_operator "" Ok (fun _ _ => ret "") " AND"
                    "role[!]" "role" (Str.dq ++ "role" ++ Str.dq)
                    (VArr [VStr "admin"; VStr "banned"]) (mkState 0 [])
                    eq_refl eq_refl)).
  vm_compute. reflexivity.
Defined.

(** The condition [{ 'active[!]': true }] binds the string [1], not the
    boolean it was given. *)
Lemma negation_boolean_is_coerced :
  dataImplode "" Ok (VObj [("active[!]", VBool true)]) " AND" (mkState 0 [])
  = (Ok (Str.dq ++ "active" ++ Str.dq ++ " != :medoo_0_param"),
     mkState 1 [(":medoo_0_param", VStr "1")])
  /\ VStr "1" <> VBool true.
Proof. split; [vm_compute; reflexivity | discriminate]. Qed.

(** ** The join builder *)

Lemma joinWord_table :
  joinWord ">" = "LEFT" /\ joinWord "<" = "RIGHT" /\
  joinWord "<>" = "FULL" /\ joinWord "><" = "INNER".
Proof. repeat split. Qed.

(** A key in which a table name is found without a direction tag pushes
    nothing. *)
Lemma join_entry_untagged prefix table subTable relation t a :
  ReJoin.key subTable = Some (None, t, a) ->
  join_entry prefix table subTable relation = Ok [].
Proof. intros H. unfold join_entry. now rewrite H. Qed.

Lemma mapRes_app {A B} (f : A -> res B) (l1 l2 : list A) :
  mapRes f (l1 ++ l2)%list
  = match mapRes f l1 with
    | Throw e => Throw e
    | Ok bs1 =>
        match mapRes f l2 with
        | Throw e => Throw e
        | Ok bs2 => Ok (bs1 ++ bs2)%list
        end
    end.
Proof.
  induction l1 as [|a l1 IH]; simpl.
  - now destruct (mapRes f l2).
  - destruct (f a); [|reflexivity]. rewrite IH.
    destruct (mapRes f l1); [|reflexivity].
    now destruct (mapRes f l2).
Qed.

(** Such an entry leaves the join clause as it is without it. *)
Lemma buildJoin_untagged prefix table es1 subTable relation es2 t a :
  ReJoin.key subTable = Some (None, t, a) ->
  buildJoin prefix table (VObj (es1 ++ (subTable, relation) :: es2)%list)
  = buildJoin prefix table (VObj (es1 ++ es2)%list).
Proof.
  intros H. unfold buildJoin. simpl. rewrite !mapRes_app. simpl.
  rewrite (join_entry_untagged _ _ _ _ _ _ H).
  destruct (mapRes _ es1) as [bs1|]; [|reflexivity].
  destruct (mapRes _ es2) as [bs2|]; [|reflexivity].
  now rewrite !List.concat_app.
Qed.

(** An entry with a direction tag pushes one clause, which starts with the
    keyword of its tag, or throws. *)
Lemma join_entry_tagged prefix table subTable relation tag t a frags :
  ReJoin.key subTable = Some (Some tag, t, a) ->
  join_entry prefix table subTable relation = Ok frags ->
  exists rest, frags = [joinWord tag ++ " JOIN " ++ rest].
Proof.
  intros H. unfold join_entry. rewrite H.
  match goal with
  | |- match ?r with Ok _ => _ | Throw _ => _ end = _ -> _ =>
      destruct r as [relationStr|]; [|discriminate]
  end.
  destruct (tableQuote prefix t) as [qt|]; [|discriminate].
  destruct a as [al|].
  - destruct (tableQuote prefix al) as [qa|]; [|discriminate].
    intros [= <-]. eexists. reflexivity.
  - intros [= <-]. eexists. reflexivity.
Qed.

(** C7. A join key without a direction tag and without any letter, digit
    or underscore is not skipped: the pattern of join keys does not match
    it at all and the access to [match.groups] raises a [TypeError].  Here
    the key [#] follows a well-formed left join. *)
Theorem untagged_join_key_raises prefix table :
  ReJoin.key "#" = None /\
  buildJoin prefix table
    (VObj [("[>]profiles", VStr "user_id"); ("#", VStr "id")])
  = Throw TypeError /\
  buildJoin "" "users" (VObj [("[>]profiles", VStr "user_id")])
  = Ok ("LEFT JOIN " ++ Str.dq ++ "profiles" ++ Str.dq ++ " USING ("
          ++ Str.dq ++ "user_id" ++ Str.dq ++ ")").
Proof.
  split; [reflexivity|]. split; [|reflexivity].
  unfold buildJoin. simpl.
  destruct (join_entry prefix table "[>]profiles" (VStr "user_id"));
    reflexivity.
Qed.

(** ** Induction on values *)

Lemma value_nested_ind (P : value -> Prop) :
  P VUndef -> P VNull -> (forall b, P (VBool b)) -> (forall n, P (VNum n)) ->
  (forall s, P (VStr s)) ->
  (forall items, List.Forall P items -> P (VArr items)) ->
  (forall ps, List.Forall (fun kv => P (snd kv)) ps -> P (VObj ps)) ->
  (forall text m, List.Forall (fun kv => P (snd kv)) m -> P (VRaw text m)) ->
  forall v, P v.
Proof.
  intros HU HN HB HZ HS HA HO HR.
  fix IH 1. intros [| |b|n|s|items|ps|text m].
  - exact HU.
  - exact HN.
  - apply HB.
  - apply HZ.
  - apply HS.
  - apply HA. induction items as [|v items IHl]; constructor;
      [apply IH | exact IHl].
  - apply HO. induction ps as [|[k v] ps IHl]; constructor;
      [apply IH | exact IHl].
  - apply HR. induction m as [|[k v] m IHl]; constructor;
      [apply IH | exact IHl].
Qed.

(** ** The projection compiler *)

Lemma isIntKey_of_nat (i : nat) : Js.isIntKey (Str.of_nat i) = true.
Proof.
  unfold Js.isIntKey. now rewrite of_nat_nonempty, of_nat_digits.
Qed.

Lemma bind_throws {A B} (m : M A) (k : A -> M B) st :
  throws (m st) -> throws (bind m k st).
Proof. intros (e & st' & H). unfold bind. rewrite H. now exists e, st'. Qed.

Lemma bind_throws_after {A B} (m : M A) (k : A -> M B) st :
  (forall a st', throws (k a st')) -> throws (bind m k st).
Proof.
  intros H. unfold bind. destruct (m st) as [[a|e] st'].
  - apply H.
  - now exists e, st'.
Qed.

(** An integer-keyed string with a star throws the wildcard error. *)
Lemma column_entry_star prefix rr rec root single key s st :
  Js.isIntKey key = true -> Str.includes "*" s = true ->
  column_entry prefix rr rec root true single key (VStr s) st
  = (Throw WildcardWhileJoining, st).
Proof. intros Hk Hs. unfold column_entry. now rewrite Hk, Hs. Qed.

(** A nested list whose compilation throws makes its entry throw. *)
Lemma column_entry_nested prefix rr rec root single key items st :
  (forall st', throws (rec (VArr items) false true st')) ->
  throws (column_entry prefix rr rec root true single key (VArr items) st).
Proof.
  intros H. unfold column_entry.
  destruct (negb (Js.isIntKey key) && root && single).
  - apply bind_throws_after. intros a st'. apply bind_throws, H.
  - apply bind_throws, H.
Qed.

Lemma for_column_items_throws (f : string -> value -> M (list string * value))
  (p : value -> bool) (items : list value) :
  List.Forall (fun v => p v = true -> forall i st, throws (f (Str.of_nat i) v st))
              items ->
  List.existsb p items = true ->
  forall i st, throws (for_column_items f i items st).
Proof.
  induction 1 as [|v items Hv _ IH]; simpl; [discriminate|].
  intros Hex i st. destruct (p v) eqn:Ep.
  - apply bind_throws, Hv, eq_refl.
  - apply bind_throws_after. intros a st'. apply bind_throws, IH, Hex.
Qed.

Lemma for_columns_throws (f : string -> value -> M (list string * value))
  (p : string * value -> bool) (es : props) :
  List.Forall (fun kv => p kv = true -> forall st, throws (f (fst kv) (snd kv) st))
              es ->
  List.existsb p es = true ->
  forall st, throws (for_columns f es st).
Proof.
  induction 1 as [|[k v] es Hv _ IH]; simpl; [discriminate|].
  intros Hex st. destruct (p (k, v)) eqn:Ep.
  - apply bind_throws, (Hv eq_refl).
  - apply bind_throws_after. intros a st'. apply bind_throws, IH, Hex.
Qed.

(** A list or an object in which a starred string is selected does not
    compile under a join, at whatever depth it is nested. *)
Lemma columnPush_star_nested prefix rr (columns : value) :
  star_selected columns = true ->
  match columns with
  | VArr _ | VObj _ =>
      forall root st, throws (columnPush prefix rr columns root true st)
  | _ => True
  end.
Proof.
  induction columns as [| | | | |items IH|ps IH|text m IH]
    using value_nested_ind; try exact (fun _ => I).
  - intros Hs root st. cbn [columnPush]. apply bind_throws.
    cbn [star_selected] in Hs.
    refine (for_column_items_throws _ _ items _ Hs 0 st).
    clear Hs. generalize (Nat.eqb (List.length items) 1). intros single.
    induction IH as [|v items Hv _ IHl]; constructor; [|exact IHl].
    intros Hp i st'. destruct v; try discriminate.
    + rewrite column_entry_star; [now eexists _, _ | apply isIntKey_of_nat |
                                  exact Hp].
    + apply column_entry_nested. intros st''. exact (Hv Hp false st'').
  - intros Hs root st. cbn [columnPush]. apply bind_throws.
    cbn [star_selected] in Hs.
    refine (for_columns_throws _ _ ps _ Hs st).
    clear Hs. generalize (Nat.eqb (List.length ps) 1). intros single.
    induction IH as [|[k v] ps Hv _ IHl]; constructor; [|exact IHl].
    cbn [fst snd] in *. intros Hp st'. destruct v; try discriminate.
    + apply andb_prop in Hp as [Hk Hs].
      rewrite column_entry_star; [now eexists _, _ | exact Hk | exact Hs].
    + apply column_entry_nested. intros st''. exact (Hv Hp false st'').
Qed.

Lemma for_column_items_app (f : string -> value -> M (list string * value))
  (pre post : list value) (i : nat) (st : cstate) :
  for_column_items f i (pre ++ post)%list st
  = match for_column_items f i pre st with
    | (Ok a, st1) =>
        match for_column_items f (i + List.length pre) post st1 with
        | (Ok b, st2) =>
            (Ok ((fst a ++ fst b)%list, (snd a ++ snd b)%list), st2)
        | (Throw e, st2) => (Throw e, st2)
        end
    | (Throw e, st1) => (Throw e, st1)
    end.
Proof.
  revert i st. induction pre as [|v pre IH]; intros i st; simpl.
  - rewrite Nat.add_0_r. unfold ret.
    destruct (for_column_items f i post st) as [[[b1 b2]|e] st2];
      reflexivity.
  - unfold bind. destruct (f (Str.of_nat i) v st) as [[a|e] st1];
      [|reflexivity].
    rewrite IH.
    destruct (for_column_items f (S i) pre st1) as [[a'|e] st2];
      [|reflexivity].
    replace (i + S (List.length pre))%nat with (S i + List.length pre)%nat
      by lia.
    unfold ret.
    destruct (for_column_items f (S i + List.length pre) post st2)
      as [[b|e] st3]; [|reflexivity].
    simpl. now rewrite List.app_assoc.
Qed.

(** C2. Wildcards under a join, as the code has them.  For a column
    specification other than the bare string made of a star, compiled with
    [isJoin] set: when a string with a star is selected, as the
    specification itself, under an integer key or in a nested list,
    [columnPush] throws instead of returning a select list.  The exception
    is the wildcard error when the specification is that string, and when
    it is a list whose elements before that string compile without an
    exception; an element met before may throw its own exception first. *)
Theorem wildcard_under_join prefix rr (columns : value) root st :
  columns <> VStr "*" ->
  star_selected columns = true ->
  throws (columnPush prefix rr columns root true st) /\
  (forall s, columns = VStr s ->
     columnPush prefix rr columns root true st
     = (Throw WildcardWhileJoining, st)) /\
  (forall pre s post done st1,
     columns = VArr (pre ++ VStr s :: post)%list ->
     Str.includes "*" s = true ->
     for_column_items
       (column_entry prefix rr (columnPush prefix rr) root true
          (Nat.eqb (List.length (pre ++ VStr s :: post)%list) 1)) 0 pre st
     = (Ok done, st1) ->
     columnPush prefix rr columns root true st
     = (Throw WildcardWhileJoining, st1)).
Proof.
  intros Hne Hs.
  assert (Hstr : forall s, columns = VStr s ->
            columnPush prefix rr columns root true st
            = (Throw WildcardWhileJoining, st)).
  { intros s ->. cbn [columnPush].
    destruct (String.eqb_spec s "*") as [->|_]; [congruence|].
    unfold bind. rewrite column_entry_star; [reflexivity..| exact Hs]. }
  split; [|split; [exact Hstr|]].
  - destruct columns; try discriminate.
    + rewrite (Hstr _ eq_refl). now eexists _, _.
    + exact (columnPush_star_nested prefix rr _ Hs root st).
    + exact (columnPush_star_nested prefix rr _ Hs root st).
  - intros pre s post done st1 -> Hstar Hpre. cbn [columnPush].
    unfold bind. rewrite for_column_items_app, Hpre.
    cbn [for_column_items]. unfold bind.
    rewrite column_entry_star;
      [reflexivity | apply isIntKey_of_nat | exact Hstar].
Qed.

(** The list [['users.id', 'posts.*']] under a join: the first element
    compiles, the second throws the wildcard error. *)
Lemma wildcard_under_join_witness :
  VArr [VStr "users.id"; VStr "posts.*"] <> VStr "*" /\
  star_selected (VArr [VStr "users.id"; VStr "posts.*"]) = true /\
  columnPush "" Ok (VArr [VStr "users.id"; VStr "posts.*"]) true true
    (mkState 0 [])
  = (Throw WildcardWhileJoining, mkState 0 []).
Proof.
  split; [discriminate|]. split; [reflexivity|].
  refine (proj2 (proj2 (wildcard_under_join "" Ok
                          (VArr [VStr "users.id"; VStr "posts.*"]) true
                          (mkState 0 []) _ eq_refl))
            [VStr "users.id"] "posts.*" [] _ _ eq_refl eq_refl _).
  - discriminate.
  - vm_compute. reflexivity.
Defined.

(** The bare star compiles under a join: it is returned as it is. *)
Lemma bare_star_passes_under_join :
  columnPush "" Ok (VStr "*") true true (mkState 0 [])
  = (Ok ("*", VStr "*"), mkState 0 []).
Proof. reflexivity. Qed.

(** ** The result mapper *)




(** ** The objects of the caller *)

Lemma for_columns_keys (f : string -> value -> M (list string * value))
  (es : props) st frags es' st' :
  for_columns f es st = (Ok (frags, es'), st') ->
  List.map fst es' = List.map fst es.
Proof.
  revert st frags es' st'.
  induction es as [|[k v] es IH]; intros st frags es' st'; simpl.
  - now intros [= _ <- _].
  - unfold bind. destruct (f k v st) as [[a|e] st1]; [|discriminate].
    destruct (for_columns f es st1) as [[[fr es1]|e] st2] eqn:E;
      [|discriminate].
    intros [= _ <- _]. simpl. f_equal. exact (IH _ _ _ _ E).
Qed.

(** [columnPush] leaves an object with the keys it had. *)
Lemma columnPush_keys prefix rr ps root isJoin st sql v' st' :
  columnPush prefix rr (VObj ps) root isJoin st = (Ok (sql, v'), st') ->
  exists ps', v' = VObj ps' /\ List.map fst ps' = List.map fst ps.
Proof.
  cbn [columnPush]. unfold bind.
  destruct (for_columns _ ps st) as [[[frags es']|e] st1] eqn:E;
    [|discriminate].
  intros [= _ <- _]. exists es'. split; [reflexivity|].
  exact (for_columns_keys _ _ _ _ _ _ E).
Qed.

Lemma lookup_keys (k : string) (ps ps' : props) :
  List.map fst ps' = List.map fst ps ->
  Js.lookup k ps = None -> Js.lookup k ps' = None.
Proof.
  revert ps'. induction ps as [|[x v] ps IH]; intros [|[x' v'] ps'];
    simpl; try discriminate; [reflexivity|].
  intros [= -> H]. destruct (String.eqb x k); [discriminate|].
  now apply IH.
Qed.

(** The heap that [selectContext] returns is the one it received, but for
    the object that [columnPush] compiled. *)
Lemma selectContext_heap prefix rr esc h table join columns where_ st q h' st' :
  selectContext prefix rr esc h table join columns where_ st
  = (Ok (q, h'), st') ->
  exists c root isJoin st1 sql v' st2,
    columnPush prefix rr (deref h c) root isJoin st1 = (Ok (sql, v'), st2)
    /\ h' = store h c v'.
Proof.
  unfold selectContext.
  generalize (isJoinSpec (deref h join)). intros isJoin.
  generalize (fst (adjusted h isJoin join columns where_)). intros c.
  generalize (snd (adjusted h isJoin join columns where_)). intros w.
  unfold bind.
  destruct (lift _ st) as [[tq|e] st0]; [|discriminate].
  destruct ((if isJoin then _ else ret tq) st0) as [[tq'|e] st1];
    [|discriminate].
  destruct (columnPush prefix rr (deref h c) true isJoin st1)
    as [[[sql v']|e] st2] eqn:E; [|discriminate].
  cbn [fst snd].
  destruct (whereClause _ _ _ _ st2) as [[wc|e] st3]; [|discriminate].
  intros [= _ <- _]. now exists c, true, isJoin, st1, sql, v', st2.
Qed.

(** An object without [LIMIT] key is still without it after
    [selectContext]. *)
Lemma selectContext_no_LIMIT prefix rr esc h table join columns where_ st
  q h' st' l ps :
  selectContext prefix rr esc h table join columns where_ st
  = (Ok (q, h'), st') ->
  h l = VObj ps -> Js.lookup "LIMIT" ps = None ->
  exists ps', h' l = VObj ps' /\ Js.lookup "LIMIT" ps' = None
              /\ List.map fst ps' = List.map fst ps.
Proof.
  intros H Hl Hno.
  apply selectContext_heap in H
    as (c & root & isJoin & st1 & sql & v' & st2 & Hc & ->).
  destruct c as [v|l']; simpl; [now exists ps|].
  destruct (Nat.eqb_spec l l') as [<-|Hne]; [|now exists ps].
  simpl in Hc. rewrite Hl in Hc.
  apply columnPush_keys in Hc as (ps' & -> & Hk).
  exists ps'. split; [reflexivity|]. split; [|exact Hk].
  exact (lookup_keys _ _ _ Hk Hno).
Qed.

Lemma get_heap_after prefix rr esc g h1 table join c w l ps :
  h1 l = VObj ps -> Js.lookup "LIMIT" ps = None ->
  exists ps',
    fst (match selectContext prefix rr esc h1 table join c w (mkState g [])
         with
         | (Ok (q, h2), st) => (h2, (Ok (q ++ " LIMIT 1"), st))
         | (Throw e, st) => (h1, (Throw e, st))
         end) l = VObj ps'
    /\ Js.lookup "LIMIT" ps' = None
    /\ List.map fst ps' = List.map fst ps.
Proof.
  intros Hl Hno.
  destruct (selectContext _ _ _ h1 _ _ _ _ _) as [[[q h2]|e] st] eqn:E.
  - exact (selectContext_no_LIMIT _ _ _ _ _ _ _ _ _ _ _ _ _ _ E Hl Hno).
  - now exists ps.
Qed.

Lemma delete_keys (k : string) (ps : props) :
  List.map fst (Js.delete k ps)
  = List.filter (fun x => negb (String.eqb x k)) (List.map fst ps).
Proof.
  induction ps as [|[x v] ps IH]; simpl; [reflexivity|].
  destruct (String.eqb x k); simpl; now rewrite IH.
Qed.




(** With [{ id: 1, LIMIT: 5 }] as [where], the statement that [get] hands
    to [exec] carries its own [LIMIT 1] only. *)
Lemma get_statement_example :
  snd (get "" Ok (fun v => Js.to_string v) 0
         (fun l => match l with
                   | 0 => VObj [("id", VNum 1); ("LIMIT", VNum 5)]
                   | _ => VUndef
                   end)
         "users" (Prim (VStr "*")) (Ref 0) (Prim VNull))
  = (Ok ("SELECT * FROM " ++ Str.dq ++ "users" ++ Str.dq ++ " WHERE "
           ++ Str.dq ++ "id" ++ Str.dq ++ " = :medoo_0_param LIMIT 1"),
     mkState 1 [(":medoo_0_param", VNum 1)]).
Proof. vm_compute. reflexivity. Qed.

(** ** Leaves of a condition tree *)

Lemma mem_In (op : string) (l : list string) : Re.mem op l = true -> In op l.
Proof.
  unfold Re.mem. intros H. apply List.existsb_exists in H as (x & Hx & E).
  apply String.eqb_eq in E. now subst x.
Qed.

Lemma is_range_cases (operator : option string) :
  is_range operator = true -> operator = Some "<>" \/ operator = Some "><".
Proof.
  destruct operator as [op|]; simpl; [|discriminate].
  destruct (String.eqb_spec op "<>") as [->|_]; [now left|].
  destruct (String.eqb_spec op "><") as [->|_]; [now right | discriminate].
Qed.

Lemma is_equality_cases (operator : option string) :
  is_equality operator = true -> operator = None \/ operator = Some "!".
Proof.
  destruct operator as [op|]; simpl; [|now left].
  destruct (String.eqb_spec op "!") as [->|_]; [now right | discriminate].
Qed.

Lemma indexed_map (f : value -> value) (i : nat) (items : list value) :
  List.map fst (Js.indexed i (List.map f items))
  = List.map fst (Js.indexed i items).
Proof.
  revert i. induction items as [|v items IH]; intros i; simpl;
    [reflexivity | now rewrite IH].
Qed.

Lemma placeholders_map (k : string) (f : value -> value) (items : list value) :
  placeholders k (List.map f items) = placeholders k items.
Proof.
  unfold placeholders.
  rewrite <- !(List.map_map fst (fun s => k ++ s ++ "_i")).
  now rewrite indexed_map.
Qed.

(** An entry that is not compiled as a logical group, whose key is not
    made of digits and names a column that can be quoted, compiles as the
    dispatch on its operator does, under the next parameter name. *)
Lemma implode_entry_leaf prefix rr rec conj key name operator column v st :
  Js.is_object v && Re.logical key = false ->
  Js.isIntKey key = false ->
  Re.key key = Some (name, operator) ->
  conditionColumn prefix name = Ok column ->
  implode_entry prefix rr rec conj key v st
  = implode_leaf rr column (paramName (guid st)) operator v
      (mkState (S (guid st)) (pmap st)).
Proof.
  intros Hl Hi Hk Hc. unfold implode_entry. rewrite Hl, Hi.
  unfold bind, mapKey, lift. rewrite Hk, Hc. reflexivity.
Qed.

(** The leaves of the class compile to one fragment, which their blanked
    form yields as well, and bind the parameters [leafParams]. *)
Lemma implode_leaf_run rr column k operator v vals :
  leafValues operator v = Some vals ->
  exists frag,
    forall st,
      implode_leaf rr column k operator v st
      = (Ok [frag],
         mkState (guid st) (Js.assign (pmap st) (leafParams k operator v)))
      /\ exists pm',
           implode_leaf rr column k operator (blank v) st
           = (Ok [frag], mkState (guid st) pm').
Proof.
  unfold leafValues.
  destruct v as [| |b|n|s|items|ps|text m]; try discriminate.
  1-3: destruct (is_equality operator) eqn:Ee;
    [ apply is_equality_cases in Ee as [-> | ->]; intros _;
      eexists; intros st; (split; [reflexivity | eexists; reflexivity])
    | destruct operator as [op|]; [|discriminate];
      destruct (Re.mem op [">"; ">="; "<"; "<="; "REGEXP"]) eqn:Em;
        [|discriminate];
      apply mem_In in Em; simpl in Em;
      destruct Em as [<-|[<-|[<-|[<-|[<-|[]]]]]]; intros _;
      eexists; intros st; (split; [reflexivity | eexists; reflexivity]) ].
  destruct (List.forallb scalar items); [|discriminate].
  destruct (is_equality operator) eqn:Ee.
  - apply is_equality_cases in Ee as [-> | ->]; intros _.
    + exists (column ++ " IN (" ++ placeholders k items ++ ")").
      intros st. simpl. unfold switch_eq, bind.
      rewrite !bindItems_run. split; [reflexivity|].
      rewrite placeholders_map. eexists. reflexivity.
    + exists (column ++ " NOT IN (" ++ placeholders k items ++ ")").
      intros st. simpl. unfold switch_not, bind.
      rewrite !bindItems_run. split; [reflexivity|].
      rewrite placeholders_map. eexists. reflexivity.
  - destruct (is_range operator) eqn:Er; [|discriminate].
    intros _. unfold leafParams. rewrite Er.
    apply is_range_cases in Er as [-> | ->].
    + exists ("(" ++ column ++ " BETWEEN " ++ k ++ "a AND " ++ k ++ "b)").
      intros st. split; [reflexivity|].
      cbn -[String.append Js.set]. eexists. reflexivity.
    + exists ("(" ++ (column ++ " NOT") ++ " BETWEEN " ++ k ++ "a AND "
                ++ k ++ "b)").
      intros st. split; [reflexivity|].
      cbn -[String.append Js.set]. eexists. reflexivity.
Qed.

Lemma leafParams_values k operator v vals :
  leafValues operator v = Some vals ->
  List.map snd (leafParams k operator v) = vals.
Proof.
  unfold leafValues, leafParams.
  destruct v as [| |b|n|s|items|ps|text m]; try discriminate.
  1-3: destruct (is_equality operator); [now intros [= <-]|];
    destruct operator as [op|]; [|discriminate];
    destruct (Re.mem op _); [now intros [= <-] | discriminate].
  destruct (List.forallb scalar items); [|discriminate].
  destruct (is_equality operator) eqn:Ee.
  - intros [= <-].
    assert (Hr : is_range operator = false)
      by (apply is_equality_cases in Ee as [-> | ->]; reflexivity).
    rewrite Hr. apply itemParams_values.
  - destruct (is_range operator); [|discriminate].
    destruct items as [|a [|b [|c items]]]; try discriminate.
    now intros [= <-].
Qed.

Lemma leafParams_NoDup k operator v :
  NoDup (List.map fst (leafParams k operator v)).
Proof.
  unfold leafParams.
  assert (H1 : forall x : string, NoDup [x])
    by (intros x; constructor; [intros [] | constructor]).
  destruct v; try apply H1.
  destruct (is_range operator); [|apply itemParams_NoDup].
  simpl. constructor; [|apply H1].
  intros [H|[]]. apply append_inj_l in H. discriminate.
Qed.

Lemma leafParams_names k operator v x :
  In x (List.map fst (leafParams k operator v)) -> exists sfx, x = k ++ sfx.
Proof.
  unfold leafParams.
  assert (H1 : forall w : value,
            In x (List.map fst [(k, w)]) -> exists sfx, x = k ++ sfx).
  { intros w [<-|[]]. exists "". now rewrite append_nil_r. }
  destruct v; try apply H1.
  destruct (is_range operator).
  - simpl. intros [<-|[<-|[]]]; eauto.
  - unfold itemParams. rewrite List.map_map. simpl.
    intros H. apply List.in_map_iff in H as (kv & <- & _). eauto.
Qed.

Lemma is_object_blank (v : value) : Js.is_object (blank v) = Js.is_object v.
Proof. now destruct v. Qed.

(** A leaf entry, at the counter value [g]. *)
Lemma leaf_entry_run prefix rr key v vals g :
  leafEntry prefix key v = Some vals ->
  Js.is_object v && Re.logical key = false ->
  exists frag new,
    List.map snd new = vals /\
    NoDup (List.map fst new) /\
    (forall x, In x (List.map fst new) -> exists sfx, x = paramName g ++ sfx) /\
    forall rec conj st,
      guid st = g ->
      implode_entry prefix rr rec conj key v st
      = (Ok [frag], mkState (S g) (Js.assign (pmap st) new))
      /\ exists pm',
           implode_entry prefix rr rec conj key (blank v) st
           = (Ok [frag], mkState (S g) pm').
Proof.
  unfold leafEntry. intros H Hl.
  destruct (Js.isIntKey key) eqn:Hi; [discriminate|].
  destruct (Re.key key) as [[name operator]|] eqn:Hk; [|discriminate].
  destruct (conditionColumn prefix name) as [column|] eqn:Hc; [|discriminate].
  destruct (implode_leaf_run rr column (paramName g) operator v vals H)
    as (frag & Hrun).
  exists frag, (leafParams (paramName g) operator v).
  split; [now apply leafParams_values|].
  split; [apply leafParams_NoDup|].
  split; [apply leafParams_names|].
  intros rec conj st <-.
  rewrite (implode_entry_leaf _ _ _ _ _ _ _ _ _ _ Hl Hi Hk Hc).
  rewrite (implode_entry_leaf _ _ _ _ _ _ _ _ (blank v) _
             (eq_trans (f_equal (fun b => b && Re.logical key)
                                (is_object_blank v)) Hl) Hi Hk Hc).
  destruct (Hrun (mkState (S (guid st)) (pmap st))) as (H1 & pm' & H2).
  split; [exact H1 | now exists pm'].
Qed.

(** ** Runs that bind fresh parameters *)

Lemma assign_app (pm a b : props) :
  Js.assign pm (a ++ b)%list = Js.assign (Js.assign pm a) b.
Proof. unfold Js.assign. apply List.fold_left_app. Qed.

Lemma set_fresh (k : string) v (pm : props) :
  ~ In k (List.map fst pm) -> Js.set k v pm = (pm ++ [(k, v)])%list.
Proof.
  induction pm as [|[x w] pm IH]; simpl; intros H; [reflexivity|].
  destruct (String.eqb_spec x k) as [->|_]; [exfalso; apply H; now left|].
  rewrite IH; [reflexivity|]. intros Hin. apply H. now right.
Qed.

Lemma assign_fresh (new pm : props) :
  NoDup (List.map fst new) ->
  (forall x, In x (List.map fst new) -> ~ In x (List.map fst pm)) ->
  Js.assign pm new = (pm ++ new)%list.
Proof.
  revert pm. induction new as [|[k v] new IH]; intros pm Hnd Hdis.
  - simpl. now rewrite List.app_nil_r.
  - simpl in Hnd. inversion Hnd as [|? ? Hk Hnd']; subst.
    rewrite assign_cons, set_fresh by (apply Hdis; now left).
    rewrite IH; [now rewrite <- List.app_assoc | exact Hnd' |].
    intros x Hx. rewrite List.map_app. intros Hin.
    apply List.in_app_or in Hin as [Hin|[<-|[]]].
    + apply (Hdis x); [now right | exact Hin].
    + exact (Hk Hx).
Qed.

Lemma generated_weaken (g g1 g2 g3 : nat) (x : string) :
  (g <= g1)%nat -> (g2 <= g3)%nat -> generated g1 g2 x -> generated g g3 x.
Proof.
  intros H1 H2 (n & sfx & Hn & ->). exists n, sfx. split; [lia | reflexivity].
Qed.

Lemma generated_disjoint (g g1 g2 : nat) (x : string) :
  generated g g1 x -> generated g1 g2 x -> False.
Proof.
  intros (n & sfx & Hn & ->) (n' & sfx' & Hn' & E).
  apply paramName_inj in E as [-> _]. lia.
Qed.

Lemma runs_ret {A} (a : A) (g : nat) : runs_to (ret a) (ret a) g [].
Proof.
  exists a, g, []. split; [lia|]. split; [reflexivity|].
  split; [constructor|]. split; [intros x []|].
  intros [g0 pm] <-. split; [reflexivity | now exists pm].
Qed.

Lemma runs_bind {A B} (m m0 : M A) (k k0 : A -> M B) g vs1 vs2 :
  runs_to m m0 g vs1 ->
  (forall a g1, (g <= g1)%nat -> runs_to (k a) (k0 a) g1 vs2) ->
  runs_to (bind m k) (bind m0 k0) g (vs1 ++ vs2)%list.
Proof.
  intros (a & g1 & new1 & Hg1 & Hv1 & Hd1 & Hn1 & Hm) Hk.
  destruct (Hk a g1 Hg1) as (b & g2 & new2 & Hg2 & Hv2 & Hd2 & Hn2 & Hkm).
  exists b, g2, (new1 ++ new2)%list.
  split; [lia|]. split; [now rewrite List.map_app, Hv1, Hv2|].
  split.
  { rewrite List.map_app. apply List.NoDup_app; try assumption.
    intros x H1 H2. exact (generated_disjoint _ _ _ _ (Hn1 x H1) (Hn2 x H2)). }
  split.
  { intros x. rewrite List.map_app. intros H.
    apply List.in_app_or in H as [H|H].
    - apply (generated_weaken g g g1 g2); [lia | lia | now apply Hn1].
    - apply (generated_weaken g g1 g2 g2); [lia | lia | now apply Hn2]. }
  intros st Hst. destruct (Hm st Hst) as (E1 & pm1 & E1').
  unfold bind. rewrite E1, E1'.
  destruct (Hkm (mkState g1 (Js.assign (pmap st) new1)) eq_refl)
    as (E2 & _).
  destruct (Hkm (mkState g1 pm1) eq_refl) as (_ & pm2 & E2').
  rewrite E2, E2'. simpl. rewrite assign_app.
  split; [reflexivity | now exists pm2].
Qed.

Lemma runs_bind_ret {A B} (m m0 : M A) (f : A -> B) g vs :
  runs_to m m0 g vs ->
  runs_to (bind m (fun a => ret (f a))) (bind m0 (fun a => ret (f a))) g vs.
Proof.
  intros H. rewrite <- (List.app_nil_r vs).
  apply (runs_bind m m0 _ _ g vs []); [exact H|].
  intros a g1 _. apply runs_ret.
Qed.

Lemma runs_leaf_entry prefix rr rec rec0 conj key v vals g :
  leafEntry prefix key v = Some vals ->
  Js.is_object v && Re.logical key = false ->
  runs_to (implode_entry prefix rr rec conj key v)
          (implode_entry prefix rr rec0 conj key (blank v)) g vals.
Proof.
  intros H Hl.
  destruct (leaf_entry_run prefix rr key v vals g H Hl)
    as (frag & new & Hv & Hd & Hn & Hrun).
  exists [frag], (S g), new. split; [lia|].
  repeat (split; [assumption|]). split.
  { intros x Hx. destruct (Hn x Hx) as (sfx & ->).
    exists g, sfx. split; [lia | reflexivity]. }
  intros st Hst. split.
  - exact (proj1 (Hrun rec conj st Hst)).
  - exact (proj2 (Hrun rec0 conj st Hst)).
Qed.

(** An object under a logical key compiles as a group. *)
Lemma implode_entry_group prefix rr rec conj key ps :
  Re.logical key = true ->
  implode_entry prefix rr rec conj key (VObj ps)
  = bind (rec (VObj ps) (" " ++ Re.relationship key))
         (fun s => ret ["(" ++ s ++ ")"]).
Proof. intros H. unfold implode_entry. simpl. now rewrite H. Qed.

Lemma plain_entries_run prefix rr conj (ps : props) :
  List.Forall
    (fun kv =>
       forall vs conj g,
         leaves prefix (snd kv) = Some vs ->
         runs_to (dataImplode prefix rr (snd kv) conj)
                 (dataImplode prefix rr (erase (snd kv)) conj) g vs) ps ->
  forall vs g,
    collect
      (fun key v =>
         if Js.is_object v && Re.logical key
         then match v with
              | VObj _ => leaves prefix v
              | _ => None
              end
         else leafEntry prefix key v) ps = Some vs ->
    runs_to
      (for_entries (implode_entry prefix rr (dataImplode prefix rr) conj) ps)
      (for_entries (implode_entry prefix rr (dataImplode prefix rr) conj)
         (map_values
            (fun key v =>
               if Js.is_object v && Re.logical key
               then match v with
                    | VObj _ => erase v
                    | _ => v
                    end
               else blank v) ps)) g vs.
Proof.
  induction 1 as [|[key v] ps Hv _ IH]; intros vs g; cbn [collect].
  - intros [= <-]. apply runs_ret.
  - cbn [snd] in Hv.
    destruct (Js.is_object v && Re.logical key) eqn:El.
    + destruct v as [| | | | | |ps'|]; try discriminate.
      destruct (leaves prefix (VObj ps')) as [a|] eqn:Ea; [|discriminate].
      destruct (collect _ ps) as [b|] eqn:Eb; [|discriminate].
      intros [= <-]. cbn [for_entries map_values]. rewrite El.
      apply runs_bind.
      * apply andb_prop in El as [_ El].
        cbn [erase]. rewrite !(implode_entry_group _ _ _ _ _ _ El).
        apply runs_bind_ret.
        exact (Hv a _ g eq_refl).
      * intros a0 g1 _. apply runs_bind_ret. exact (IH b g1 eq_refl).
    + destruct (leafEntry prefix key v) as [a|] eqn:Ea; [|discriminate].
      destruct (collect _ ps) as [b|] eqn:Eb; [|discriminate].
      intros [= <-]. cbn [for_entries map_values]. rewrite El.
      apply runs_bind.
      * now apply runs_leaf_entry.
      * intros a0 g1 _. apply runs_bind_ret. exact (IH b g1 eq_refl).
Qed.

Lemma plain_tree_runs prefix rr (tree : value) :
  forall vs conj g,
    leaves prefix tree = Some vs ->
    runs_to (dataImplode prefix rr tree conj)
            (dataImplode prefix rr (erase tree) conj) g vs.
Proof.
  induction tree as [| | | | |items IH|ps IH|text m IH]
    using value_nested_ind; intros vs conj g; try discriminate.
  cbn [leaves erase dataImplode]. intros H.
  apply runs_bind_ret.
  exact (plain_entries_run prefix rr conj ps IH vs g H).
Qed.

(** C1. Parameterisation of condition trees, as the code has it.  Take a
    condition tree made of logical keys over nested objects and of leaf
    entries whose key is not made of digits and names a column that can be
    quoted, and whose value is a scalar under no operator, [!], a
    comparison or [REGEXP], a list of scalars under no operator or [!], or
    a list of two scalars under a range operator; [vs] are its leaf
    values in entry order, a boolean under no operator or [!] counting as
    the string [1] or [0].  Compiled from any counter value and an empty
    parameter object, the tree yields an expression and a parameter object
    with exactly one parameter per leaf value: the values of the
    parameters are [vs] in this order, their names are distinct and all
    generated from the counter.  The expression depends on the keys and on
    the shape of the tree only: the tree with every scalar replaced by the
    number 0 compiles to the same text, so no leaf value reaches the
    text. *)
Theorem plain_conditions_are_parameterised prefix rr tree vs conj g :
  leaves prefix tree = Some vs ->
  exists sql g' pm,
    dataImplode prefix rr tree conj (mkState g []) = (Ok sql, mkState g' pm)
    /\ List.map snd pm = vs
    /\ List.length pm = List.length vs
    /\ NoDup (List.map fst pm)
    /\ (forall x, In x (List.map fst pm) -> generated g g' x)
    /\ fst (dataImplode prefix rr (erase tree) conj (mkState g [])) = Ok sql.
Proof.
  intros H.
  destruct (plain_tree_runs prefix rr tree vs conj g H)
    as (sql & g' & new & Hg & Hv & Hd & Hn & Hrun).
  destruct (Hrun (mkState g []) eq_refl) as (E & pm' & E').
  exists sql, g', new. cbn [pmap] in E.
  rewrite assign_fresh in E by (auto; intros x _ []).
  split; [exact E|]. split; [exact Hv|].
  split; [now rewrite <- Hv, List.length_map|].
  split; [exact Hd|]. split; [exact Hn|].
  now rewrite E'.
Qed.

(** The tree [{ age: 25, role: 'admin' }]: two parameters, bound to 25 and
    to the string in this order, under the names of the counter values 0
    and 1. *)
Lemma plain_conditions_are_parameterised_witness :
  leaves "" (VObj [("age", VNum 25); ("role", VStr "admin")])
  = Some [VNum 25; VStr "admin"] /\
  dataImplode "" Ok (VObj [("age", VNum 25); ("role", VStr "admin")]) " AND"
    (mkState 0 [])
  = (Ok (Str.dq ++ "age" ++ Str.dq ++ " = :medoo_0_param AND "
           ++ Str.dq ++ "role" ++ Str.dq ++ " = :medoo_1_param"),
     mkState 2 [(":medoo_0_param", VNum 25); (":medoo_1_param", VStr "admin")]).
Proof.
  split; [reflexivity|].
  destruct (plain_conditions_are_parameterised "" Ok
              (VObj [("age", VNum 25); ("role", VStr "admin")])
              [VNum 25; VStr "admin"] " AND" 0 eq_refl)
    as (sql & g' & pm & E & _).
  rewrite E. vm_compute in E. exact (eq_sym E).
Defined.

(** Condition trees with concrete leaves for which the parameters are not
    the leaves: a boolean is bound as a string; a string under an integer
    key that compares two columns binds nothing and reaches the text; a
    scalar under a range operator binds nothing; a list under a comparison
    is bound whole to one parameter; a pattern is bound between two
    percent signs. *)
Lemma parameters_are_not_always_the_leaves :
  dataImplode "" Ok (VObj [("active", VBool true)]) " AND" (mkState 0 [])
  = (Ok (Str.dq ++ "active" ++ Str.dq ++ " = :medoo_0_param"),
     mkState 1 [(":medoo_0_param", VStr "1")])
  /\ dataImplode "" Ok (VObj [("0", VStr "a[>]b")]) " AND" (mkState 0 [])
     = (Ok (Str.dq ++ "a" ++ Str.dq ++ " > " ++ Str.dq ++ "b" ++ Str.dq),
        mkState 1 [])
  /\ dataImplode "" Ok (VObj [("age[<>]", VNum 5)]) " AND" (mkState 0 [])
     = (Ok "", mkState 1 [])
  /\ dataImplode "" Ok (VObj [("age[>]", VArr [VNum 1; VNum 2])]) " AND"
       (mkState 0 [])
     = (Ok (Str.dq ++ "age" ++ Str.dq ++ " > :medoo_0_param"),
        mkState 1 [(":medoo_0_param", VArr [VNum 1; VNum 2])])
  /\ dataImplode "" Ok (VObj [("name[~]", VStr "jo")]) " AND" (mkState 0 [])
     = (Ok ("(" ++ Str.dq ++ "name" ++ Str.dq ++ " LIKE :medoo_0_paramL0)"),
        mkState 1 [(":medoo_0_paramL0", VStr "%jo%")]).
Proof. repeat split. Qed.

(** ** Parameter names and quoted identifiers *)



Lemma segments_ident (c : string) :
  Str.all Str.is_word c = true -> QuoterSpec.segments c = (c, []).
Proof.
  intros H. rewrite <- (append_nil_r c) at 1.
  rewrite (segments_word_prefix _ _ H). simpl. now rewrite append_nil_r.
Qed.

Lemma tableQuote_ok (prefix t q : string) :
  tableQuote prefix t = Ok q ->
  Str.all Str.is_word t = true /\ Str.is_empty t = false
  /\ q = Str.dq ++ (prefix ++ t) ++ Str.dq.
Proof.
  rewrite tableQuote_spec. unfold QuoterSpec.quoteTable, QuoterSpec.ident.
  destruct (Str.is_empty t); simpl; [discriminate|].
  destruct (Str.all Str.is_word t); [|discriminate].
  intros [= <-]. now repeat split.
Qed.

(** X2. A qualified column is quoted as its table and its column are.
    When [tableQuote] accepts the table [t], which it quotes with the
    prefix, and accepts [c] under the empty prefix, [columnQuote] accepts
    the reference [t.c] and returns the quoted table of [tableQuote], a
    dot, and the quoted column without prefix: the qualified columns of a
    statement name the same prefixed table as its [FROM] clause. *)
Theorem qualified_column_quotes_its_table (prefix t c tq cq : string) :
  tableQuote prefix t = Ok tq ->
  tableQuote "" c = Ok cq ->
  columnQuote prefix (t ++ "." ++ c) = Ok (tq ++ "." ++ cq).
Proof.
  intros Ht Hc.
  apply tableQuote_ok in Ht as (Ht & Hte & ->).
  apply tableQuote_ok in Hc as (Hc & Hce & ->).
  rewrite columnQuote_spec. unfold QuoterSpec.quoteColumn.
  rewrite (segments_word_prefix _ _ Ht). cbn [String.append QuoterSpec.segments].
  rewrite (segments_ident _ Hc). cbn [Ascii.eqb Bool.eqb fst snd].
  rewrite append_nil_r. unfold QuoterSpec.ident.
  rewrite Ht, Hc, Hte, Hce. simpl. unfold QuoterSpec.quoted.
  now rewrite !append_assoc.
Qed.

Lemma qualified_column_quotes_its_table_witness :
  columnQuote "app_" ("users" ++ "." ++ "name")
  = Ok ((Str.dq ++ "app_users" ++ Str.dq) ++ "."
          ++ (Str.dq ++ "name" ++ Str.dq)).
Proof.
  apply (qualified_column_quotes_its_table "app_" "users" "name");
    reflexivity.
Defined.

Lemma class_sep (p : ascii -> bool) (a b : string) c d (x y : string) :
  Str.all p a = true -> Str.all p b = true ->
  p c = false -> p d = false ->
  a ++ String c x = b ++ String d y -> a = b /\ String c x = String d y.
Proof.
  revert b. induction a as [|u a IH]; intros [|v b] Ha Hb Hc Hd H;
    simpl in *.
  - now split.
  - injection H as -> _. apply andb_prop in Hb as [Hv _]. congruence.
  - injection H as -> _. apply andb_prop in Ha as [Hu _]. congruence.
  - injection H as -> H.
    apply andb_prop in Ha as [_ Ha]. apply andb_prop in Hb as [_ Hb].
    destruct (IH b Ha Hb Hc Hd H) as [-> E]. now split.
Qed.

Lemma length_app (a b : string) :
  String.length (a ++ b) = (String.length a + String.length b)%nat.
Proof. induction a as [|c a IH]; simpl; [reflexivity | now rewrite IH]. Qed.

Lemma append_inj_r (x y a : string) : x ++ a = y ++ a -> x = y.
Proof.
  revert y. induction x as [|c x IH]; intros [|d y] H; simpl in *.
  - reflexivity.
  - apply (f_equal String.length) in H. simpl in H.
    rewrite length_app in H. lia.
  - apply (f_equal String.length) in H. simpl in H.
    rewrite length_app in H. lia.
  - injection H as -> H. now rewrite (IH y H).
Qed.

(** What [columnQuote] accepts, and what it returns: an identifier
    between quotes, or a table and a column. *)
Lemma columnQuote_ok (prefix ref q : string) :
  columnQuote prefix ref = Ok q ->
  (Str.all Str.is_word ref = true /\ q = Str.dq ++ ref ++ Str.dq)
  \/ exists t c,
       ref = t ++ "." ++ c /\
       Str.all Str.is_word t = true /\ Str.is_empty t = false /\
       Str.all Str.is_word c = true /\ Str.is_empty c = false /\
       q = Str.dq ++ prefix ++ t ++ Str.dq ++ "." ++ Str.dq ++ c ++ Str.dq.
Proof.
  unfold columnQuote, re_column.
  pose proof (span_app Str.is_word ref) as Happ.
  pose proof (span_fst_all Str.is_word ref) as Hall.
  destruct (Str.span Str.is_word ref) as [a rest]; simpl in *.
  subst ref. rewrite (includes_word_prefix _ _ Hall).
  destruct (Str.is_empty a) eqn:Ea; [discriminate|]. simpl.
  destruct rest as [|c rest].
  - simpl. rewrite append_nil_r. intros [= <-]. left. now split.
  - destruct (Ascii.eqb c ".") eqn:Ec; [|discriminate]. simpl.
    apply Ascii.eqb_eq in Ec. subst c.
    pose proof (span_app Str.is_word rest) as Happ'.
    pose proof (span_fst_all Str.is_word rest) as Hall'.
    destruct (Str.span Str.is_word rest) as [b rest']; simpl in *.
    destruct (Str.is_empty b) eqn:Eb; [discriminate|].
    destruct rest'; [|discriminate]. simpl.
    rewrite append_nil_r in Happ'. subst b.
    rewrite (replace_word_prefix _ _ _ Hall).
    intros [= <-]. right. exists a, rest.
    repeat (split; [assumption || reflexivity|]).
    simpl. now rewrite !append_assoc.
Qed.

(** X3. The quoter is injective.  Two references that [columnQuote]
    accepts under the same prefix and quotes to the same text are the same
    reference: an identifier and a qualified column, or two different
    tables or columns, are never confused in the text of a statement. *)
Theorem columnQuote_is_injective (prefix a b q : string) :
  columnQuote prefix a = Ok q ->
  columnQuote prefix b = Ok q ->
  a = b.
Proof.
  assert (Hq : Str.is_word (ascii_of_nat 34) = false) by reflexivity.
  assert (mixed : forall x t c : string,
             Str.all Str.is_word x = true ->
             Str.dq ++ x ++ Str.dq
             = Str.dq ++ prefix ++ t ++ Str.dq ++ "." ++ Str.dq ++ c ++ Str.dq
             -> False).
  { intros x t c Hx E. apply append_inj_l in E.
    replace (prefix ++ t ++ Str.dq ++ "." ++ Str.dq ++ c ++ Str.dq)
      with ((prefix ++ t ++ Str.dq ++ "." ++ Str.dq ++ c) ++ Str.dq) in E
      by now rewrite !append_assoc.
    apply append_inj_r in E. subst x.
    replace (prefix ++ t ++ Str.dq ++ "." ++ Str.dq ++ c)
      with ((prefix ++ t) ++ String (ascii_of_nat 34) ("." ++ Str.dq ++ c))
      in Hx by now rewrite !append_assoc.
    rewrite (all_app_false _ _ _ _ Hq) in Hx. discriminate. }
  intros Ha Hb.
  apply columnQuote_ok in Ha as [(Ha & Ea)|(t & c & -> & Ht & _ & Hc & _ & Ea)];
    apply columnQuote_ok in Hb
      as [(Hb & Eb)|(t' & c' & -> & Ht' & _ & Hc' & _ & Eb)]; subst q.
  - apply append_inj_l in Eb. now apply append_inj_r in Eb.
  - exfalso. exact (mixed _ _ _ Ha Eb).
  - exfalso. symmetry in Eb. exact (mixed _ _ _ Hb Eb).
  - apply append_inj_l in Eb. apply append_inj_l in Eb.
    apply (class_sep Str.is_word) in Eb as [-> Eb]; try assumption.
    injection Eb as Eb. f_equal. f_equal.
    now apply append_inj_r in Eb.
Qed.

Lemma columnQuote_is_injective_witness :
  columnQuote "" "users.id" = Ok (Str.dq ++ "users" ++ Str.dq ++ "."
                                    ++ Str.dq ++ "id" ++ Str.dq)
  /\ ("users" ++ "." ++ "id") = "users.id".
Proof.
  split; [reflexivity|].
  apply (columnQuote_is_injective "" ("users" ++ "." ++ "id") "users.id"
           (Str.dq ++ "users" ++ Str.dq ++ "." ++ Str.dq ++ "id" ++ Str.dq));
    reflexivity.
Defined.

(** ** The other operators of a condition key *)

(** X4. Equality, the entry without operator.  For an entry that is not
    compiled as a logical group, whose key is not made of digits, carries
    no operator and names a column that resolves to [column]: [null]
    compiles to [column IS NULL]; a list compiles to [column IN (...)]
    over the parameters of its elements, one per element under distinct
    names, each bound to its element; a raw fragment compiles to
    [column = text] and its own parameters are merged; a plain object
    pushes nothing; any other value compiles to [column = :param], the
    parameter bound to the value itself, except that [true] is bound as
    the string [1] and [false] as the string [0].  One parameter name is
    consumed in every case. *)
Theorem equality_entry prefix rr rec conj key name column v st :
  Js.is_object v && Re.logical key = false ->
  Js.isIntKey key = false ->
  Re.key key = Some (name, None) ->
  conditionColumn prefix name = Ok column ->
  implode_entry prefix rr rec conj key v st
  = match v with
    | VNull => (Ok [column ++ " IS NULL"], mkState (S (guid st)) (pmap st))
    | VArr items =>
        (Ok [column ++ " IN ("
               ++ Str.join ", "
                    (List.map fst (itemParams (paramName (guid st)) items))
               ++ ")"],
         mkState (S (guid st))
           (Js.assign (pmap st) (itemParams (paramName (guid st)) items)))
    | VRaw text m =>
        match rr text with
        | Ok query =>
            (Ok [column ++ " = " ++ query],
             mkState (S (guid st)) (Js.assign (pmap st) m))
        | Throw e => (Throw e, mkState (S (guid st)) (pmap st))
        end
    | VObj _ => (Ok [], mkState (S (guid st)) (pmap st))
    | VBool b =>
        (Ok [column ++ " = " ++ paramName (guid st)],
         mkState (S (guid st))
           (Js.set (paramName (guid st)) (VStr (if b then "1" else "0"))
              (pmap st)))
    | _ =>
        (Ok [column ++ " = " ++ paramName (guid st)],
         mkState (S (guid st)) (Js.set (paramName (guid st)) v (pmap st)))
    end
  /\ (forall items,
        v = VArr items ->
        List.length (itemParams (paramName (guid st)) items)
        = List.length items /\
        NoDup (List.map fst (itemParams (paramName (guid st)) items)) /\
        forall n x,
          nth_error items n = Some x ->
          Js.lookup (paramName (guid st) ++ Str.of_nat n ++ "_i")
            (Js.assign (pmap st) (itemParams (paramName (guid st)) items))
          = Some x).
Proof.
  intros Hl Hi Hk Hc. split.
  - rewrite (implode_entry_leaf _ _ _ _ _ _ _ _ _ _ Hl Hi Hk Hc).
    unfold implode_leaf.
    destruct v as [| |b|n|s|items|ps|text m]; try reflexivity.
    + now destruct b.
    + unfold switch_eq, bind. rewrite bindItems_run, placeholders_names.
      reflexivity.
    + unfold switch_eq, bind, buildRaw, bind, lift.
      destruct (rr text) as [query|e]; [|reflexivity].
      destruct m; [now destruct st | reflexivity].
  - intros items _. split; [apply itemParams_length|].
    split; [apply itemParams_NoDup|].
    intros n x H. now apply itemParams_bound.
Qed.

(** The entry [role: ['admin', 'guest']] compiles to an [IN] over two
    parameters bound to the two strings. *)
Lemma equality_entry_witness :
  implode_entry "" Ok (fun _ _ => ret "") " AND" "role"
    (VArr [VStr "admin"; VStr "guest"]) (mkState 0 [])
  = (Ok [Str.dq ++ "role" ++ Str.dq
           ++ " IN (:medoo_0_param0_i, :medoo_0_param1_i)"],
     mkState 1 [(":medoo_0_param0_i", VStr "admin");
                (":medoo_0_param1_i", VStr "guest")]).
Proof.
  rewrite (proj1 (equality_entry "" Ok (fun _ _ => ret "") " AND"
                    "role" "role" (Str.dq ++ "role" ++ Str.dq)
                    (VArr [VStr "admin"; VStr "guest"]) (mkState 0 [])
                    eq_refl eq_refl eq_refl eq_refl)).
  vm_compute. reflexivity.
Defined.

(** X5. Comparisons bind their value as it is.  For an entry whose key
    carries [>], [>=], [<] or [<=] on a column that resolves to [column]:
    a raw fragment compiles to [column op text] and its parameters are
    merged; any other value compiles to [column op :param] and is bound to
    the parameter unchanged: a boolean is not turned into [1] or [0] as
    under equality, [null] is bound and not turned into [IS NULL], and a
    list is bound whole to the one parameter. *)
Theorem comparison_operator prefix rr rec conj key name op column v st :
  Re.key key = Some (name, Some op) ->
  In op [">"; ">="; "<"; "<="] ->
  conditionColumn prefix name = Ok column ->
  implode_entry prefix rr rec conj key v st
  = match v with
    | VRaw text m =>
        match rr text with
        | Ok query =>
            (Ok [column ++ " " ++ op ++ " " ++ query],
             mkState (S (guid st)) (Js.assign (pmap st) m))
        | Throw e => (Throw e, mkState (S (guid st)) (pmap st))
        end
    | _ =>
        (Ok [column ++ " " ++ op ++ " " ++ paramName (guid st)],
         mkState (S (guid st)) (Js.set (paramName (guid st)) v (pmap st)))
    end.
Proof.
  intros Hk Hop Hc.
  rewrite (implode_entry_operator _ _ _ _ _ _ _ _ _ _ Hk Hc).
  simpl in Hop.
  destruct Hop as [<-|[<-|[<-|[<-|[]]]]];
    (destruct v as [| |b|n|s|items|ps|text m]; try reflexivity;
     unfold implode_leaf, bind, buildRaw, bind, lift;
     cbn [Re.mem List.existsb String.eqb Ascii.eqb Bool.eqb orb];
     destruct (rr text) as [query|e]; [|reflexivity];
     destruct m; [now destruct st | reflexivity]).
Qed.

(** The entry ['active[>]': true] binds the boolean itself. *)
Lemma comparison_operator_witness :
  implode_entry "" Ok (fun _ _ => ret "") " AND" "active[>]"
    (VBool true) (mkState 0 [])
  = (Ok [Str.dq ++ "active" ++ Str.dq ++ " > :medoo_0_param"],
     mkState 1 [(":medoo_0_param", VBool true)]).
Proof.
  rewrite (comparison_operator "" Ok (fun _ _ => ret "") " AND" "active[>]"
             "active" ">" (Str.dq ++ "active" ++ Str.dq)
             (VBool true) (mkState 0 [])
             eq_refl (or_introl eq_refl) eq_refl).
  vm_compute. reflexivity.
Defined.

Lemma forEach_like (k : string) (i : nat) (items : list value) (st : cstate) :
  forEach
    (fun item index =>
       let itemStr := Js.to_string item in
       bindParam (k ++ "L" ++ Str.of_nat index)
         (VStr (if negb (Re.like_meta itemStr)
                then "%" ++ itemStr ++ "%" else itemStr)))
    i items st
  = (Ok tt,
     mkState (guid st)
       (Js.assign (pmap st)
          (List.map (fun kv => (k ++ "L" ++ fst kv,
                                VStr (likeValue (Js.to_string (snd kv)))))
                    (Js.indexed i items)))).
Proof.
  revert i st. induction items as [|v items IH]; intros i st.
  - now destruct st.
  - cbn [forEach Js.indexed List.map]. unfold bind at 1.
    unfold bindParam at 1. rewrite IH. reflexivity.
Qed.

Lemma likeParams_from_NoDup (k : string) (i : nat) (items : list value) :
  NoDup (List.map fst
           (List.map (fun kv : string * value =>
                        (k ++ "L" ++ fst kv,
                         VStr (likeValue (Js.to_string (snd kv)))))
                     (Js.indexed i items))).
Proof.
  revert i. induction items as [|v items IH]; intros i; simpl;
    constructor; [|apply IH].
  rewrite List.map_map. simpl. intros H.
  apply List.in_map_iff in H as ([s w] & E & Hin). simpl in E.
  assert (Hs : In s (List.map fst (Js.indexed (S i) items))).
  { apply List.in_map_iff. now exists (s, w). }
  apply indexed_keys in Hs as (j & Hj & ->).
  apply append_inj_l in E. injection E as E.
  apply of_nat_inj in E. lia.
Qed.

(** X6. [LIKE] conditions.  For an entry whose key carries [~] or [!~] on
    a column that resolves to [column]: the value counts as a list of
    patterns, a value that is not a list as the list of itself; the entry
    compiles to the [LIKE] tests of the column, [NOT LIKE] under [!~],
    against one parameter per pattern, joined by [OR] between parentheses;
    the parameters have distinct names, and each is bound to the text of
    its pattern, put between two [%] unless it holds a wildcard of its
    own. *)
Theorem like_operator prefix rr rec conj key name op column v st :
  Re.key key = Some (name, Some op) ->
  op = "~" \/ op = "!~" ->
  conditionColumn prefix name = Ok column ->
  implode_entry prefix rr rec conj key v st
  = (Ok ["("
           ++ Str.join " OR "
                (List.map
                   (fun x =>
                      column ++ (if String.eqb op "!~" then " NOT" else "")
                      ++ " LIKE " ++ x)
                   (List.map fst
                      (likeParams (paramName (guid st)) (likeItems v))))
           ++ ")"],
     mkState (S (guid st))
       (Js.assign (pmap st)
          (likeParams (paramName (guid st)) (likeItems v))))
  /\ List.length (likeParams (paramName (guid st)) (likeItems v))
     = List.length (likeItems v)
  /\ NoDup (List.map fst (likeParams (paramName (guid st)) (likeItems v)))
  /\ forall n x,
       nth_error (likeItems v) n = Some x ->
       Js.lookup (paramName (guid st) ++ "L" ++ Str.of_nat n)
         (Js.assign (pmap st)
            (likeParams (paramName (guid st)) (likeItems v)))
       = Some (VStr (likeValue (Js.to_string x))).
Proof.
  intros Hk Hop Hc. split; [|split; [|split]].
  - rewrite (implode_entry_operator _ _ _ _ _ _ _ _ _ _ Hk Hc).
    unfold likeParams. rewrite List.map_map. cbn [fst].
    destruct Hop as [-> | ->]; unfold implode_leaf;
      cbn [Re.mem List.existsb String.eqb Ascii.eqb Bool.eqb orb];
      unfold bind; rewrite forEach_like; cbn [guid pmap];
      rewrite List.map_map; reflexivity.
  - unfold likeParams. now rewrite List.length_map, indexed_length.
  - apply likeParams_from_NoDup.
  - intros n x H. apply assign_lookup; [apply likeParams_from_NoDup|].
    unfold likeParams. apply List.in_map_iff.
    exists (Str.of_nat n, x). split; [reflexivity|].
    exact (indexed_nth 0 n (likeItems v) x H).
Qed.

(** The entry ['name[~]': ['ann', 'b%']] compiles to two [LIKE] tests
    joined by [OR]; the first pattern is wrapped, the second is not. *)
Lemma like_operator_witness :
  implode_entry "" Ok (fun _ _ => ret "") " AND" "name[~]"
    (VArr [VStr "ann"; VStr "b%"]) (mkState 0 [])
  = (Ok ["(" ++ Str.dq ++ "name" ++ Str.dq ++ " LIKE :medoo_0_paramL0 OR "
           ++ Str.dq ++ "name" ++ Str.dq ++ " LIKE :medoo_0_paramL1)"],
     mkState 1 [(":medoo_0_paramL0", VStr "%ann%");
                (":medoo_0_paramL1", VStr "b%")]).
Proof.
  rewrite (proj1 (like_operator "" Ok (fun _ _ => ret "") " AND" "name[~]"
                    "name" "~" (Str.dq ++ "name" ++ Str.dq)
                    (VArr [VStr "ann"; VStr "b%"]) (mkState 0 [])
                    eq_refl (or_introl eq_refl) eq_refl)).
  vm_compute. reflexivity.
Defined.

Lemma eqb_upcase (op x U : string) :
  Re.upcase op = U -> Re.upcase x <> U -> String.eqb op x = false.
Proof.
  intros H Hx. destruct (String.eqb_spec op x); [subst; contradiction|].
  reflexivity.
Qed.

Lemma span_stop (p : ascii -> bool) (a : string) c (x : string) :
  Str.all p a = true -> p c = false ->
  Str.span p (a ++ String c x) = (a, String c x).
Proof.
  intros Ha Hc. induction a as [|d a IH]; simpl.
  - now rewrite Hc.
  - simpl in Ha. apply andb_prop in Ha as [Hd Ha].
    now rewrite Hd, (IH Ha).
Qed.

Lemma cmp_parse (l op r : string) :
  Str.all Re.is_ref l = true -> Str.is_empty l = false ->
  In op Re.cmp_ops ->
  Str.all Re.is_ref r = true -> Str.is_empty r = false ->
  Re.cmp (l ++ "[" ++ op ++ "]" ++ r) = Some (l, op, r).
Proof.
  intros Hl Hle Hop Hr Hre. apply search_head. unfold Re.cmp_at.
  cbn [String.append].
  rewrite (span_stop Re.is_ref l "[" _ Hl eq_refl), Hle.
  simpl in Hop.
  destruct Hop as [<-|[<-|[<-|[<-|[<-|[<-|[]]]]]]];
    cbn -[Str.span]; rewrite (span_all _ _ Hr), Hre; reflexivity.
Qed.

(** X8. A positional string that compares two columns.  For an entry whose
    key is made of digits, as the elements of a list of conditions have
    it, and whose value is a string [l[op]r] with [op] one of [>], [>=],
    [<], [<=], [=], [!=] between two runs of letters, digits, underscores
    and dots: the entry compiles to the comparison of the two quoted
    columns; it binds no parameter, and the text of the string reaches the
    statement through [columnQuote] only, whose exception it raises when a
    side is not a column reference.  One parameter name is consumed. *)
Theorem column_comparison prefix rr rec conj key l op r st :
  Js.isIntKey key = true ->
  Str.all Re.is_ref l = true -> Str.is_empty l = false ->
  In op Re.cmp_ops ->
  Str.all Re.is_ref r = true -> Str.is_empty r = false ->
  implode_entry prefix rr rec conj key (VStr (l ++ "[" ++ op ++ "]" ++ r)) st
  = match columnQuote prefix l with
    | Throw e => (Throw e, mkState (S (guid st)) (pmap st))
    | Ok lq =>
        match columnQuote prefix r with
        | Throw e => (Throw e, mkState (S (guid st)) (pmap st))
        | Ok rq =>
            (Ok [lq ++ " " ++ op ++ " " ++ rq],
             mkState (S (guid st)) (pmap st))
        end
    end.
Proof.
  intros Hi Hl Hle Hop Hr Hre. unfold implode_entry.
  cbn [Js.is_object andb Js.to_string]. rewrite Hi.
  rewrite (cmp_parse _ _ _ Hl Hle Hop Hr Hre).
  unfold bind, mapKey, lift.
  destruct (columnQuote prefix l); [|reflexivity].
  now destruct (columnQuote prefix r).
Qed.

(** The element ['users.id[=]posts.user_id'] of a list of conditions. *)
Lemma column_comparison_witness :
  implode_entry "" Ok (fun _ _ => ret "") " AND" "0"
    (VStr ("users.id" ++ "[" ++ "=" ++ "]" ++ "posts.user_id")) (mkState 0 [])
  = (Ok [Str.dq ++ "users" ++ Str.dq ++ "." ++ Str.dq ++ "id" ++ Str.dq
           ++ " = " ++ Str.dq ++ "posts" ++ Str.dq ++ "." ++ Str.dq
           ++ "user_id" ++ Str.dq],
     mkState 1 []).
Proof.
  rewrite (column_comparison "" Ok (fun _ _ => ret "") " AND" "0"
             "users.id" "=" "posts.user_id" (mkState 0 [])
             eq_refl eq_refl eq_refl
             (or_intror (or_intror (or_intror (or_intror (or_introl eq_refl)))))
             eq_refl eq_refl).
  vm_compute. reflexivity.
Defined.

Lemma search_inv {A} (p : string -> option A) (s : string) (a : A) :
  Str.search p s = Some a -> exists pre s', s = pre ++ s' /\ p s' = Some a.
Proof.
  induction s as [|c s IH]; simpl.
  - destruct (p "") eqn:E; [|discriminate].
    intros [= <-]. now exists "", "".
  - destruct (p (String c s)) eqn:E.
    + intros [= <-]. now exists "", (String c s).
    + intros H. destruct (IH H) as (pre & s' & -> & Hp).
      now exists (String c pre), s'.
Qed.

(** X9. What a condition key contributes to the statement.  The column
    that [dataImplode] writes for a condition key is either the reference
    found in the key as [columnQuote] quotes it, or, when the reference
    holds both an opening and a closing parenthesis, the reference itself,
    which is then a run of letters, digits, underscores, dots, parentheses
    and stars: no quote, space, semicolon or comment mark of a key reaches
    the text of the statement. *)
Theorem condition_column_alphabet prefix key name operator column :
  Re.key key = Some (name, operator) ->
  conditionColumn prefix name = Ok column ->
  Str.all Re.is_key name = true /\ Str.is_empty name = false /\
  ((column = name /\ Str.includes "(" name = true
    /\ Str.includes ")" name = true)
   \/ columnQuote prefix name = Ok column).
Proof.
  intros Hk Hc. apply search_inv in Hk as (pre & s' & _ & Hk).
  unfold Re.key_at in Hk.
  pose proof (span_fst_all Re.is_key s') as Hall.
  destruct (Str.span Re.is_key s') as [col r]; simpl in Hall.
  destruct (Str.is_empty col) eqn:Ee; [discriminate|].
  assert (E : col = name).
  { destruct (Re.bracket Re.key_ops ["REGEXP"] r) as [[op r']|];
      now injection Hk. }
  subst col. split; [exact Hall|]. split; [exact Ee|].
  unfold conditionColumn in Hc.
  destruct (Str.includes "(" name); [|now right].
  destruct (Str.includes ")" name); [|now right].
  left. injection Hc as <-. now repeat split.
Qed.

Lemma condition_column_alphabet_witness :
  Str.all Re.is_key "COUNT(id)" = true /\ Str.is_empty "COUNT(id)" = false /\
  (("COUNT(id)" = "COUNT(id)" /\ Str.includes "(" "COUNT(id)" = true
    /\ Str.includes ")" "COUNT(id)" = true)
   \/ columnQuote "" "COUNT(id)" = Ok "COUNT(id)").
Proof.
  apply (condition_column_alphabet "" "COUNT(id)[>]" "COUNT(id)" (Some ">"));
    reflexivity.
Defined.

(** ** Raw fragments *)

(** X10. What [buildRaw] does to the parameters.  For a raw fragment whose
    placeholders are rewritten without exception, [buildRaw] returns the
    rewritten text, leaves the counter as it is and merges the parameters
    of the fragment into the parameters of the statement: a parameter of
    the fragment is bound to the value the fragment gives it, also when
    the statement had bound the same name before, and every other
    parameter of the statement keeps its value.  When the rewriting
    throws, the parameters are left untouched. *)
Theorem buildRaw_merges_parameters rr text (m : props) st :
  NoDup (List.map fst m) ->
  match rr text with
  | Ok query =>
      exists pm',
        buildRaw rr (VRaw text m) st = (Ok (VStr query), mkState (guid st) pm')
        /\ (forall k v, In (k, v) m -> Js.lookup k pm' = Some v)
        /\ (forall k, ~ In k (List.map fst m) ->
                      Js.lookup k pm' = Js.lookup k (pmap st))
  | Throw e => buildRaw rr (VRaw text m) st = (Throw e, st)
  end.
Proof.
  intros Hnd. unfold buildRaw, bind, lift.
  destruct (rr text) as [query|e]; [|reflexivity].
  exists (Js.assign (pmap st) m). split.
  - destruct m; [now destruct st | reflexivity].
  - split.
    + intros k v Hin. now apply assign_lookup.
    + intros k Hk. now apply assign_lookup_other.
Qed.

Lemma buildRaw_merges_parameters_witness :
  exists pm',
    buildRaw Ok (VRaw "id = :id" [(":id", VNum 7)])
      (mkState 3 [(":id", VNum 1); (":x", VNum 2)])
    = (Ok (VStr "id = :id"), mkState 3 pm')
    /\ (forall k v, In (k, v) [(":id", VNum 7)] -> Js.lookup k pm' = Some v)
    /\ (forall k, ~ In k [":id"] ->
                  Js.lookup k pm'
                  = Js.lookup k [(":id", VNum 1); (":x", VNum 2)]).
Proof.
  apply (buildRaw_merges_parameters Ok "id = :id" [(":id", VNum 7)]
           (mkState 3 [(":id", VNum 1); (":x", VNum 2)])).
  repeat constructor. intros [].
Defined.

(** ** The clause assembler and the statements that write *)

Lemma strip_LIKE_MATCH (ps : props) :
  strip special_keys (Js.delete "LIKE" (Js.delete "MATCH" ps))
  = strip special_keys ps.
Proof.
  unfold strip, special_keys. simpl.
  rewrite (delete_comm "LIKE" "MATCH").
  rewrite (delete_comm "GROUP" "MATCH"), (delete_comm "ORDER" "MATCH"),
    (delete_comm "HAVING" "MATCH"), (delete_comm "LIMIT" "MATCH"),
    (delete_comm "LIKE" "MATCH").
  rewrite (delete_comm "GROUP" "LIKE"), (delete_comm "ORDER" "LIKE"),
    (delete_comm "HAVING" "LIKE"), (delete_comm "LIMIT" "LIKE").
  now rewrite !delete_idem.
Qed.

(** X11. The keys [LIKE] and [MATCH] of a where object are dropped.
    [whereClause] removes them from the conditions with the keys of the
    clauses it assembles, and reads them nowhere: for every object given
    as [where], it returns the same clause, leaves the same parameters
    and counter and raises the same exception, if any, as for the object
    without its [LIKE] and [MATCH] entries.  A full-text search asked
    through [MATCH] leaves no trace in the statement. *)
Theorem like_and_match_keys_are_dropped
  prefix rr esc (ps : props) (st : cstate) :
  whereClause prefix rr esc (VObj ps) st
  = whereClause prefix rr esc
      (VObj (Js.delete "LIKE" (Js.delete "MATCH" ps))) st.
Proof.
  unfold whereClause. cbn [Js.own]. rewrite strip_LIKE_MATCH.
  unfold groupClause, orderClause, limitClause.
  rewrite !(field_delete_ne _ "LIKE"), !(field_delete_ne _ "MATCH")
    by discriminate.
  reflexivity.
Qed.

Lemma filter_none {A} (f : A -> bool) (l : list A) :
  (forall x, In x l -> f x = false) -> List.filter f l = [].
Proof.
  induction l as [|a l IH]; simpl; intros H; [reflexivity|].
  rewrite (H a (or_introl eq_refl)). apply IH. intros x Hx. apply H.
  now right.
Qed.

Lemma strip_keys (keys : list string) (ps : props) :
  List.map fst (strip keys ps)
  = List.filter (fun x => negb (Re.mem x keys)) (List.map fst ps).
Proof.
  unfold strip. revert ps. induction keys as [|k keys IH]; intros ps.
  - simpl. induction (List.map fst ps) as [|x l IHl]; simpl; [reflexivity|].
    now rewrite <- IHl.
  - cbn [List.fold_left]. rewrite IH, delete_keys.
    induction (List.map fst ps) as [|x l IHl]; simpl; [reflexivity|].
    unfold Re.mem at 2. cbn [List.existsb].
    destruct (String.eqb_spec x k) as [->|Hne]; simpl.
    + exact IHl.
    + fold (Re.mem x keys). destruct (Re.mem x keys); simpl; now rewrite IHl.
Qed.

Lemma strip_special (ps : props) :
  (forall k, In k (List.map fst ps) -> In k special_keys) ->
  strip special_keys ps = [].
Proof.
  intros H. apply (List.map_eq_nil fst). rewrite strip_keys.
  apply filter_none. intros x Hx. specialize (H x Hx).
  unfold Re.mem. apply negb_false_iff. apply List.existsb_exists.
  exists x. split; [exact H | apply String.eqb_refl].
Qed.

(** X12. A [delete] without condition deletes from the whole table.  When
    the where object holds no other keys than those of the clauses
    ([GROUP], [ORDER], [HAVING], [LIMIT], [LIKE], [MATCH]), and so when it
    is empty, the statement of [delete] has no [WHERE] clause: it is
    [DELETE FROM] the quoted table, followed by the grouping, ordering and
    limit clauses of the object, and no condition is compiled.  The same
    holds when [where] is not given, is [null] or is not an object: the
    statement is then [DELETE FROM] the quoted table alone. *)
Theorem delete_without_condition prefix rr esc table (where_ : value) st :
  match where_ with
  | VObj ps => forall k, In k (List.map fst ps) -> In k special_keys
  | VArr items => items = []
  | VRaw _ _ => False
  | _ => True
  end ->
  delete prefix rr esc table where_ st
  = match where_ with
    | VObj ps =>
        (t <- lift (tableQuote prefix table) ;;
         g <- groupClause prefix rr ps ;;
         o <- orderClause prefix rr esc ps ;;
         ret ("DELETE FROM " ++ t ++ g ++ o ++ limitClause ps)) st
    | _ =>
        (t <- lift (tableQuote prefix table) ;; ret ("DELETE FROM " ++ t)) st
    end.
Proof.
  unfold delete, bind, lift.
  destruct (tableQuote prefix table) as [t|e];
    [|destruct where_; reflexivity].
  destruct where_ as [| |b|n|s|items|ps|text m]; intros H;
    cbn [whereClause ret]; rewrite ?append_nil_r; try reflexivity.
  - subst items. cbn. now rewrite append_nil_r.
  - cbn [Js.own]. rewrite (strip_special ps H).
    unfold bind, ret.
    destruct (groupClause prefix rr ps st) as [[g|e] st1]; [|reflexivity].
    now destruct (orderClause prefix rr esc ps st1) as [[o|e] st2].
  - contradiction.
Qed.

(** [delete('users', { LIMIT: 10 })] has no [WHERE] clause. *)
Lemma delete_without_condition_witness :
  delete "" Ok (fun v => Js.to_string v) "users" (VObj [("LIMIT", VNum 10)])
    (mkState 0 [])
  = (Ok ("DELETE FROM " ++ Str.dq ++ "users" ++ Str.dq ++ " LIMIT 10"),
     mkState 0 []).
Proof.
  rewrite (delete_without_condition "" Ok (fun v => Js.to_string v) "users"
             (VObj [("LIMIT", VNum 10)]) (mkState 0 [])).
  - vm_compute. reflexivity.
  - intros k [<-|[]]. simpl. tauto.
Defined.

Lemma word_not_space (c : ascii) :
  Str.is_word c = true -> Str.is_space c = false /\ Ascii.eqb c "[" = false.
Proof.
  destruct c as [[] [] [] [] [] [] [] []]; vm_compute; intros H;
    (discriminate H || (split; reflexivity)).
Qed.

Lemma cut_word_prefix (ops words : list string) (a r : string) :
  Str.all Str.is_word a = true ->
  ReUpd.cut ops words (a ++ r) = a ++ ReUpd.cut ops words r.
Proof.
  induction a as [|c a IH]; intros H; [reflexivity|].
  simpl in H. apply andb_prop in H as [Hc Ha].
  destruct (word_not_space _ Hc) as [Hs Hb].
  cbn [String.append ReUpd.cut]. unfold ReUpd.suffix_at at 1.
  cbn [Str.span]. rewrite Hs. cbn [snd Re.bracket]. rewrite Hb.
  now rewrite (IH Ha).
Qed.

Lemma cut_operator (op : string) :
  In op ReUpd.arith ->
  ReUpd.cut ReUpd.arith ["JSON"] ("[" ++ op ++ "]") = "".
Proof. simpl. intros [<-|[<-|[<-|[<-|[]]]]]; reflexivity. Qed.

Lemma update_key_bare (col op : string) :
  Str.all Str.is_word col = true -> Str.is_empty col = false ->
  In op ReUpd.arith ->
  ReUpd.key (col ++ "[" ++ op ++ "]") = Some (col, Some op).
Proof.
  intros Hc He Hop. apply search_head. unfold ReUpd.key_at.
  cbn [String.append].
  rewrite (span_stop Str.is_word col "[" _ Hc eq_refl), He.
  simpl in Hop. destruct Hop as [<-|[<-|[<-|[<-|[]]]]]; reflexivity.
Qed.



Lemma update_key_qualified (t r : string) :
  Str.all Str.is_word t = true -> Str.is_empty t = false ->
  ReUpd.key (t ++ String "." r) = Some (t, None).
Proof.
  intros Ht He. apply search_head. unfold ReUpd.key_at.
  rewrite (span_stop Str.is_word t "." _ Ht eq_refl), He. reflexivity.
Qed.

(** X14. The arithmetic operator of a qualified column is not applied.
    The operator of an [update] key is looked for right after the first
    run of letters, digits and underscores of the key, while the column is
    the key without its bracketed suffix.  For a key [t.c[op]] on a
    qualified column, with [op] one of [+], [-], [*], [/], the operator is
    therefore not found: the entry compiles to the plain assignment of the
    quoted column to a parameter bound to the value, and the column is set
    to the number instead of being combined with it. *)
Theorem update_qualified_operator_is_lost prefix rr js t c op v st :
  Str.all Str.is_word t = true -> Str.is_empty t = false ->
  Str.all Str.is_word c = true -> Str.is_empty c = false ->
  In op ReUpd.arith ->
  Js.isRaw v = false ->
  update_field prefix rr js (t ++ "." ++ c ++ "[" ++ op ++ "]") v st
  = (Ok [Str.dq ++ prefix ++ t ++ Str.dq ++ "." ++ Str.dq ++ c ++ Str.dq
           ++ " = " ++ paramName (guid st)],
     mkState (S (guid st))
       (Js.set (paramName (guid st)) (storedValue js v) (pmap st))).
Proof.
  intros Ht Hte Hc Hce Hop Hv. unfold update_field.
  rewrite (cut_word_prefix _ _ _ _ Ht).
  replace (ReUpd.cut ReUpd.arith ["JSON"] ("." ++ c ++ "[" ++ op ++ "]"))
    with ("." ++ c).
  2:{ cbn [String.append ReUpd.cut]. unfold ReUpd.suffix_at at 1.
      cbn [Str.span Str.is_space Str.between Str.code nat_of_ascii].
      cbn. rewrite (cut_word_prefix _ _ _ _ Hc).
      change (String "[" (op ++ "]")) with ("[" ++ op ++ "]").
      now rewrite (cut_operator _ Hop), append_nil_r. }
  assert (Hq : tableQuote prefix t
               = Ok (Str.dq ++ (prefix ++ t) ++ Str.dq)).
  { rewrite tableQuote_spec. unfold QuoterSpec.quoteTable, QuoterSpec.ident.
    now rewrite Ht, Hte. }
  assert (Hq' : tableQuote "" c = Ok (Str.dq ++ c ++ Str.dq)).
  { rewrite tableQuote_spec. unfold QuoterSpec.quoteTable, QuoterSpec.ident.
    now rewrite Hc, Hce. }
  assert (Hcol : columnQuote prefix (t ++ "." ++ c)
                 = Ok ((Str.dq ++ (prefix ++ t) ++ Str.dq) ++ "."
                         ++ (Str.dq ++ c ++ Str.dq))).
  { rewrite columnQuote_spec. unfold QuoterSpec.quoteColumn.
    rewrite (segments_word_prefix _ _ Ht).
    cbn [String.append QuoterSpec.segments].
    rewrite (segments_ident _ Hc). cbn [Ascii.eqb Bool.eqb fst snd].
    rewrite append_nil_r. unfold QuoterSpec.ident.
    rewrite Ht, Hc, Hte, Hce. simpl. unfold QuoterSpec.quoted.
    now rewrite !append_assoc. }
  rewrite Hcol. unfold bind at 1. unfold lift at 1. rewrite Hv.
  unfold bind, mapKey.
  change (t ++ "." ++ c ++ "[" ++ op ++ "]")
    with (t ++ String "." (c ++ "[" ++ op ++ "]")).
  rewrite (update_key_qualified _ _ Ht Hte).
  unfold bindParam, ret. cbn [guid pmap]. now rewrite !append_assoc.
Qed.

(** The entry ['users.age[+]': 1] sets the column to 1. *)
Lemma update_qualified_operator_is_lost_witness :
  update_field "" Ok (fun v => Js.to_string v)
    ("users" ++ "." ++ "age" ++ "[" ++ "+" ++ "]") (VNum 1) (mkState 0 [])
  = (Ok [Str.dq ++ "" ++ "users" ++ Str.dq ++ "." ++ Str.dq ++ "age" ++ Str.dq
           ++ " = " ++ paramName 0],
     mkState 1 [(paramName 0, VNum 1)]).
Proof.
  apply (update_qualified_operator_is_lost "" Ok (fun v => Js.to_string v)
           "users" "age" "+" (VNum 1) (mkState 0 []));
    [reflexivity | reflexivity | reflexivity | reflexivity | now left |
     reflexivity].
Defined.

Lemma mapM_length {A B} (f : A -> M B) (l : list A) st bs st' :
  mapM f l st = (Ok bs, st') -> List.length bs = List.length l.
Proof.
  revert st bs st'. induction l as [|a l IH]; intros st bs st'; simpl.
  - unfold ret. now intros [= <- _].
  - unfold bind. destruct (f a st) as [[b|e] st1]; [|discriminate].
    destruct (mapM f l st1) as [[bs'|e] st2] eqn:E; [|discriminate].
    unfold ret. intros [= <- _]. simpl. now rewrite (IH _ _ _ E).
Qed.

Lemma mapRes_length {A B} (f : A -> res B) (l : list A) bs :
  mapRes f l = Ok bs -> List.length bs = List.length l.
Proof.
  revert bs. induction l as [|a l IH]; intros bs; simpl.
  - now intros [= <-].
  - destruct (f a); [|discriminate].
    destruct (mapRes f l) as [bs'|]; [|discriminate].
    intros [= <-]. simpl. now rewrite (IH _ eq_refl).
Qed.

Lemma insert_records_shape rr js columns (datas : list value)
  st stack st' :
  mapM (insert_record rr js columns) datas st = (Ok stack, st') ->
  exists tuples,
    stack = List.map (fun vals => "(" ++ Str.join ", " vals ++ ")") tuples /\
    List.length tuples = List.length datas /\
    List.Forall (fun vals => List.length vals = List.length columns) tuples.
Proof.
  revert st stack st'. induction datas as [|d datas IH]; intros st stack st'.
  - simpl. unfold ret. intros [= <- _]. now exists [].
  - cbn [mapM]. unfold bind at 1. unfold insert_record at 1. unfold bind at 1.
    destruct (mapM (insert_value rr js d) columns st)
      as [[vals|e] st1] eqn:Ev; [|discriminate].
    unfold ret at 1. unfold bind.
    destruct (mapM (insert_record rr js columns) datas st1)
      as [[stack'|e] st2] eqn:Es; [|discriminate].
    unfold ret. intros [= <- _].
    destruct (IH _ _ _ Es) as (tuples & -> & Hl & Hf).
    exists (vals :: tuples). split; [reflexivity|].
    split; [simpl; now rewrite Hl|].
    constructor; [exact (mapM_length _ _ _ _ _ Ev) | exact Hf].
Qed.



Lemma field_not_raw (ps : props) (key : string) :
  List.forallb (fun kv => negb (Js.isRaw (snd kv))) ps = true ->
  Js.isRaw (Js.field key ps) = false.
Proof.
  unfold Js.field. induction ps as [|[k v] ps IH]; simpl; [reflexivity|].
  intros H. apply andb_prop in H as [Hv Hps].
  destruct (String.eqb k key); [now apply negb_true_iff | exact (IH Hps)].
Qed.

Lemma insert_value_plain rr js (r : value) (key : string) st :
  plainRecord r = true ->
  insert_value rr js r key st
  = (Ok (paramName (guid st)),
     mkState (S (guid st))
       (Js.set (paramName (guid st))
          (match Js.lookup key (Js.own r) with
           | None => VNull
           | Some v => storedValue js v
           end) (pmap st))).
Proof.
  destruct r as [| | | | | |ps|]; try discriminate. cbn [plainRecord].
  intros H. unfold insert_value. cbn [Js.own Js.is_object].
  rewrite (field_not_raw ps key H). reflexivity.
Qed.

Lemma insert_row_run rr js (r : value) (columns : list string) st :
  plainRecord r = true ->
  mapM (insert_value rr js r) columns st
  = (Ok (List.map paramName (List.seq (guid st) (List.length columns))),
     mkState (guid st + List.length columns)
       (Js.assign (pmap st)
          (List.combine
             (List.map paramName (List.seq (guid st) (List.length columns)))
             (insertRow js columns r)))).
Proof.
  intros H. revert st. induction columns as [|key cols IH]; intros st.
  - simpl. unfold ret. rewrite Nat.add_0_r. now destruct st.
  - cbn [mapM]. unfold bind at 1. rewrite (insert_value_plain _ _ _ _ _ H).
    unfold bind. rewrite IH. cbn [guid pmap ret List.length List.seq List.map
                                   insertRow List.combine].
    unfold ret, insertRow.
    replace (S (guid st) + List.length cols)%nat
      with (guid st + S (List.length cols))%nat by lia.
    reflexivity.
Qed.

Lemma combine_app {A B} (a a' : list A) (b b' : list B) :
  List.length a = List.length b ->
  List.combine (a ++ a') (b ++ b')
  = (List.combine a b ++ List.combine a' b')%list.
Proof.
  revert b. induction a as [|x a IH]; intros [|y b] H; simpl in *;
    try discriminate; [reflexivity|].
  now rewrite IH by lia.
Qed.

Lemma insertRow_length js columns r :
  List.length (insertRow js columns r) = List.length columns.
Proof. unfold insertRow. apply List.length_map. Qed.

Lemma insert_rows_run rr js (columns : list string) (recs : list value) st :
  List.forallb plainRecord recs = true ->
  exists stack,
    mapM (insert_record rr js columns) recs st
    = (Ok stack,
       mkState (guid st + List.length recs * List.length columns)
         (Js.assign (pmap st)
            (List.combine
               (List.map paramName
                  (List.seq (guid st)
                     (List.length recs * List.length columns)))
               (List.concat (List.map (insertRow js columns) recs))))).
Proof.
  revert st. induction recs as [|r recs IH]; intros st H.
  - exists []. simpl. unfold ret. rewrite Nat.add_0_r. now destruct st.
  - simpl in H. apply andb_prop in H as [Hr Hrecs].
    cbn [mapM]. unfold bind at 1. unfold insert_record at 1.
    unfold bind at 1. rewrite (insert_row_run _ _ _ _ _ Hr).
    unfold ret at 1. unfold bind.
    destruct (IH (mkState (guid st + List.length columns)
                    (Js.assign (pmap st)
                       (List.combine
                          (List.map paramName
                             (List.seq (guid st) (List.length columns)))
                          (insertRow js columns r)))) Hrecs)
      as (stack & E).
    rewrite E. eexists. unfold ret. cbn [guid pmap List.length List.map
                                          List.concat].
    rewrite <- assign_app.
    replace (S (List.length recs) * List.length columns)%nat
      with (List.length columns + List.length recs * List.length columns)%nat
      by lia.
    rewrite List.seq_app, List.map_app, combine_app
      by (now rewrite List.length_map, List.length_seq, insertRow_length).
    do 2 f_equal. lia.
Qed.

Lemma objectKeys_plain (recs : list value) :
  List.forallb plainRecord recs = true ->
  mapRes objectKeys recs
  = Ok (List.map (fun r => List.map fst (Js.own r)) recs).
Proof.
  induction recs as [|r recs IH]; simpl; [reflexivity|].
  intros H. apply andb_prop in H as [Hr Hrecs]. rewrite (IH Hrecs).
  destruct r; try discriminate. reflexivity.
Qed.

Lemma paramNames_NoDup (g n : nat) :
  NoDup (List.map paramName (List.seq g n)).
Proof.
  apply List.NoDup_map_inv with (f := fun x : string => x).
  rewrite List.map_id.
  revert g. induction n as [|n IH]; intros g; simpl; constructor;
    [|apply IH].
  intros H. apply List.in_map_iff in H as (j & E & Hj).
  apply List.in_seq in Hj.
  rewrite <- (append_nil_r (paramName j)), <- (append_nil_r (paramName g))
    in E.
  apply paramName_inj in E as [E _]. lia.
Qed.

Lemma combine_fst {A B} (a : list A) (b : list B) :
  List.length a = List.length b -> List.map fst (List.combine a b) = a.
Proof.
  revert b. induction a as [|x a IH]; intros [|y b] H; simpl in *;
    try discriminate; [reflexivity|].
  now rewrite IH by lia.
Qed.

Lemma combine_snd {A B} (a : list A) (b : list B) :
  List.length a = List.length b -> List.map snd (List.combine a b) = b.
Proof.
  revert b. induction a as [|x a IH]; intros [|y b] H; simpl in *;
    try discriminate; [reflexivity|].
  now rewrite IH by lia.
Qed.

Lemma rows_length js columns (recs : list value) :
  List.length (List.concat (List.map (insertRow js columns) recs))
  = (List.length recs * List.length columns)%nat.
Proof.
  induction recs as [|r recs IH]; simpl; [reflexivity|].
  now rewrite List.length_app, insertRow_length, IH.
Qed.



Lemma replace_entries_none prefix (es : props) st :
  (forall k v, In (k, v) es -> Js.is_object v = false) ->
  for_entries (replace_entry prefix) es st = (Ok [], st).
Proof.
  revert st. induction es as [|[k v] es IH]; intros st H; [reflexivity|].
  cbn [for_entries]. unfold bind at 1. unfold replace_entry at 1.
  rewrite (H k v (or_introl eq_refl)). unfold ret at 1. unfold bind.
  rewrite IH by (intros k' v' Hin; apply (H k' v'); now right).
  reflexivity.
Qed.



Lemma replace_pairs_run prefix column c (pairs : props) st :
  columnQuote prefix column = Ok c ->
  for_entries (replace_pair prefix column) pairs st
  = (Ok (List.map
           (fun n => c ++ " = REPLACE(" ++ c ++ ", " ++ paramName n ++ "a, "
                       ++ paramName n ++ "b)")
           (List.seq (guid st) (List.length pairs))),
     mkState (guid st + List.length pairs)
       (Js.assign (pmap st) (replaceParams (guid st) pairs))).
Proof.
  intros Hc. revert st. induction pairs as [|[o n] pairs IH]; intros st.
  - simpl. unfold ret. rewrite Nat.add_0_r. now destruct st.
  - cbn [for_entries]. unfold bind at 1. unfold replace_pair at 1.
    unfold bind, mapKey, lift, bindParam. rewrite Hc. cbn [guid pmap].
    unfold ret at 1. rewrite IH. cbn [guid pmap ret List.length List.seq
                                       List.map List.app replaceParams].
    rewrite !assign_cons.
    replace (S (guid st) + List.length pairs)%nat
      with (guid st + S (List.length pairs))%nat by lia.
    reflexivity.
Qed.

(** X18. The pairs of a [replace].  For a column that can be quoted and an
    object of replacements, each pair of an old text and a new value
    compiles to the assignment [column = REPLACE(column, :a, :b)] under a
    parameter name of its own, in the order of the pairs; the old text is
    bound to the name followed by [a] and the new value, as it is given,
    to the name followed by [b]. *)
Theorem replace_binds_its_pairs prefix column c (pairs : props) st :
  columnQuote prefix column = Ok c ->
  replace_entry prefix column (VObj pairs) st
  = (Ok (List.map
           (fun n => c ++ " = REPLACE(" ++ c ++ ", " ++ paramName n ++ "a, "
                       ++ paramName n ++ "b)")
           (List.seq (guid st) (List.length pairs))),
     mkState (guid st + List.length pairs)
       (Js.assign (pmap st) (replaceParams (guid st) pairs)))
  /\ List.map snd (replaceParams (guid st) pairs)
     = List.concat (List.map (fun kv => [VStr (fst kv); snd kv]) pairs).
Proof.
  intros Hc. split.
  - unfold replace_entry. cbn [Js.is_object Js.entries Js.own].
    unfold bind, lift. now apply replace_pairs_run.
  - generalize (guid st). induction pairs as [|[o n] pairs IH]; intros g;
      simpl; [reflexivity | now rewrite IH].
Qed.

(** [{ name: { 'Mr.': 'Dr.' } }] *)
Lemma replace_binds_its_pairs_witness :
  replace_entry "" "name" (VObj [("Mr.", VStr "Dr.")]) (mkState 0 [])
  = (Ok [Str.dq ++ "name" ++ Str.dq ++ " = REPLACE(" ++ Str.dq ++ "name"
           ++ Str.dq ++ ", :medoo_0_parama, :medoo_0_paramb)"],
     mkState 1 [(":medoo_0_parama", VStr "Mr.");
                (":medoo_0_paramb", VStr "Dr.")]).
Proof.
  rewrite (proj1 (replace_binds_its_pairs "" "name"
                    (Str.dq ++ "name" ++ Str.dq) [("Mr.", VStr "Dr.")]
                    (mkState 0 []) eq_refl)).
  vm_compute. reflexivity.
Defined.

(** ** [has] and the aggregates *)

Lemma orNull_join (h : heap) (a : jsarg) :
  isJoinSpec (deref h a) = true -> orNull a = a.
Proof. destruct a as [[]|]; simpl; intros H; (discriminate || reflexivity). Qed.

Lemma orNull_object (h : heap) (a : jsarg) :
  Js.is_object (deref h a) = true -> orNull a = a.
Proof. destruct a as [[]|]; simpl; intros H; (discriminate || reflexivity). Qed.

(** X19. The statement of [has].  When the second argument of [has] is
    not a join specification, it is the where object, whatever is given as
    third argument: the statement is [SELECT EXISTS(SELECT 1 FROM] the
    quoted table followed by the clause that [whereClause] compiles for
    the second argument, with its parameters and exceptions, and the
    objects of the caller are left as they are. *)
Theorem has_statement prefix rr esc h table (w other : jsarg) st :
  isJoinSpec (deref h w) = false ->
  has prefix rr esc h table w other st
  = (tq <- lift (tableQuery prefix table) ;;
     wc <- whereClause prefix rr esc (deref h w) ;;
     ret ("SELECT EXISTS(SELECT 1 FROM " ++ tq ++ wc ++ ")", h)) st.
Proof.
  intros Hj. unfold has, selectContextFn.
  rewrite Hj. unfold adjustedFn. cbn [deref isNull negb andb].
  rewrite andb_true_r.
  assert (E : forall c1 w1,
             (if negb (isNull (deref h (orNull other)))
                 || Js.is_object (deref h w)
              then (Prim VNull, w) else (w, Prim VNull)) = (c1, w1) ->
             deref h (if isNull (deref h w1) then c1 else w1) = deref h w).
  { intros c1 w1.
    destruct (negb (isNull (deref h (orNull other)))
              || Js.is_object (deref h w)); intros [= <- <-].
    - destruct (deref h w) eqn:Ew; cbn [isNull]; try exact Ew. reflexivity.
    - reflexivity. }
  destruct (if negb (isNull (deref h (orNull other)))
               || Js.is_object (deref h w)
            then (Prim VNull, w) else (w, Prim VNull)) as [c1 w1].
  rewrite (E c1 w1 eq_refl). unfold bind, lift, ret.
  destruct (tableQuery prefix table) as [tq|e]; [|reflexivity].
  destruct (whereClause prefix rr esc (deref h w) st) as [[wc|e] st1];
    [|reflexivity].
  cbn [fst snd]. simpl. now rewrite append_assoc.
Qed.

(** [has('users', { id: 3 })] *)
Lemma has_statement_witness :
  has "" Ok (fun v => Js.to_string v) (fun _ => VUndef) "users"
    (Prim (VObj [("id", VNum 3)])) (Prim VUndef) (mkState 0 [])
  = (Ok ("SELECT EXISTS(SELECT 1 FROM " ++ Str.dq ++ "users" ++ Str.dq
           ++ " WHERE " ++ Str.dq ++ "id" ++ Str.dq ++ " = :medoo_0_param)",
         fun _ => VUndef),
     mkState 1 [(":medoo_0_param", VNum 3)]).
Proof.
  rewrite (has_statement "" Ok (fun v => Js.to_string v) (fun _ => VUndef)
             "users" (Prim (VObj [("id", VNum 3)])) (Prim VUndef)
             (mkState 0 []) eq_refl).
  vm_compute. reflexivity.
Defined.

(** X20. The statement of [count] over a where object.  When the second
    argument of [count] is an object, an array or [null], not a join
    specification, and no column and no where are given, it is the where
    object: the statement selects the [COUNT] of a star from the
    quoted table, followed by the clause that [whereClause] compiles for
    it. *)
Theorem count_statement prefix rr esc h table (w : jsarg) st :
  isJoinSpec (deref h w) = false ->
  Js.is_object (deref h w) = true ->
  count prefix rr esc h table w (Prim VUndef) (Prim VUndef) st
  = (tq <- lift (tableQuery prefix table) ;;
     wc <- whereClause prefix rr esc (deref h w) ;;
     ret ("SELECT COUNT(*) FROM " ++ tq ++ wc, h)) st.
Proof.
  intros Hj Ho. unfold count, aggregate, selectContextFn.
  rewrite (orNull_object _ _ Ho), Hj.
  cbn [Re.upcase Re.upper Str.between Str.code nat_of_ascii orNull].
  unfold adjustedFn. cbn [deref isNull negb orb andb]. rewrite Ho.
  cbn [andb Js.truthy negb orb deref columnPush String.eqb Ascii.eqb
       Bool.eqb store].
  unfold bind, lift, ret.
  destruct (tableQuery prefix table) as [tq|e]; [|reflexivity].
  cbn [fst snd].
  destruct (whereClause prefix rr esc (deref h w) st) as [[wc|e] st1];
    reflexivity.
Qed.

(** [count('users', { id: 3 })] *)
Lemma count_statement_witness :
  count "" Ok (fun v => Js.to_string v) (fun _ => VUndef) "users"
    (Prim (VObj [("id", VNum 3)])) (Prim VUndef) (Prim VUndef) (mkState 0 [])
  = (Ok ("SELECT COUNT(*) FROM " ++ Str.dq ++ "users" ++ Str.dq
           ++ " WHERE " ++ Str.dq ++ "id" ++ Str.dq ++ " = :medoo_0_param",
         fun _ => VUndef),
     mkState 1 [(":medoo_0_param", VNum 3)]).
Proof.
  rewrite (count_statement "" Ok (fun v => Js.to_string v) (fun _ => VUndef)
             "users" (Prim (VObj [("id", VNum 3)])) (mkState 0 [])
             eq_refl eq_refl).
  vm_compute. reflexivity.
Defined.

(** X21. An aggregate over a join without column ignores its where.  When
    an aggregate is given a join specification and no column, or a raw
    fragment as column, it counts over [*] and takes the join
    specification itself as its where object: the statement is the
    aggregate of [*] from the joined tables followed by the clause that
    [whereClause] compiles for the join specification, and the where
    argument is not read at all. *)
Theorem aggregate_join_without_column prefix rr esc type h table
  (join column where_ : jsarg) st :
  isJoinSpec (deref h join) = true ->
  negb (Js.truthy (deref h (orNull column)))
  || Js.isRaw (deref h (orNull column)) = true ->
  aggregate prefix rr esc type h table join column where_ st
  = (tq <- lift (tableQuery prefix table) ;;
     j <- lift (buildJoin prefix table (deref h join)) ;;
     wc <- whereClause prefix rr esc (deref h join) ;;
     ret ("SELECT " ++ Re.upcase type ++ "(*) FROM " ++ tq ++ " " ++ j ++ wc,
          h)) st.
Proof.
  intros Hj Hc. unfold aggregate, selectContextFn.
  rewrite (orNull_join _ _ Hj), Hj. unfold adjustedFn. rewrite Hc.
  cbn [deref columnPush String.eqb Ascii.eqb Bool.eqb store Js.to_string].
  unfold bind, lift, ret.
  destruct (tableQuery prefix table) as [tq|e]; [|reflexivity].
  destruct (buildJoin prefix table (deref h join)) as [j|e]; [|reflexivity].
  cbn [fst snd].
  destruct (whereClause prefix rr esc (deref h join) st) as [[wc|e] st1];
    [|reflexivity].
  do 2 f_equal. simpl. now rewrite !append_assoc.
Qed.

(** [count('users', { '[>]posts': 'id' }, null, { age: 3 })]: the
    condition on [age] is not in the statement. *)
Lemma aggregate_join_without_column_witness :
  aggregate "" Ok (fun v => Js.to_string v) "count" (fun _ => VUndef) "users"
    (Prim (VObj [("[>]posts", VStr "id")])) (Prim VNull)
    (Prim (VObj [("age", VNum 3)])) (mkState 0 [])
  = (Ok ("SELECT COUNT(*) FROM " ++ Str.dq ++ "users" ++ Str.dq
           ++ " LEFT JOIN " ++ Str.dq ++ "posts" ++ Str.dq ++ " USING ("
           ++ Str.dq ++ "id" ++ Str.dq ++ ") WHERE " ++ Str.dq ++ "posts"
           ++ Str.dq ++ " = :medoo_0_param",
         fun _ => VUndef),
     mkState 1 [(":medoo_0_param", VStr "id")]).
Proof.
  rewrite (aggregate_join_without_column "" Ok (fun v => Js.to_string v)
             "count" (fun _ => VUndef) "users"
             (Prim (VObj [("[>]posts", VStr "id")])) (Prim VNull)
             (Prim (VObj [("age", VNum 3)])) (mkState 0 [])
             eq_refl eq_refl).
  vm_compute. reflexivity.
Defined.

(** ** The column map *)

Lemma until_inv (c : ascii) (s a r : string) :
  Re.until c s = Some (a, r) ->
  s = a ++ String c r /\ Str.includes c a = false.
Proof.
  revert a r. induction s as [|d s IH]; intros a r; simpl; [discriminate|].
  destruct (Ascii.eqb d c) eqn:E.
  - apply Ascii.eqb_eq in E. subst d. intros [= <- <-]. now split.
  - destruct (Re.until c s) as [[a' r']|]; [|discriminate].
    intros [= <- <-]. destruct (IH a' r' eq_refl) as [-> Hi].
    split; [reflexivity|]. unfold Str.includes in *. simpl.
    rewrite Ascii.eqb_sym, E. exact Hi.
Qed.

Lemma until_app (c : ascii) (a r : string) :
  Str.includes c a = false -> Re.until c (a ++ String c r) = Some (a, r).
Proof.
  unfold Str.includes. induction a as [|d a IH]; simpl; intros H.
  - now rewrite Ascii.eqb_refl.
  - apply orb_false_iff in H as [Hd Ha].
    rewrite Ascii.eqb_sym, Hd. now rewrite (IH Ha).
Qed.

Lemma bracket_inv (ops words : list string) (s op r : string) :
  Re.bracket ops words s = Some (op, r) ->
  s = "[" ++ op ++ "]" ++ r /\ Str.includes "]" op = false /\
  Re.mem op ops || Re.mem (Re.upcase op) words = true.
Proof.
  unfold Re.bracket. destruct s as [|c s]; [discriminate|].
  destruct (Ascii.eqb c "[") eqn:E; [|discriminate].
  apply Ascii.eqb_eq in E. subst c.
  destruct (Re.until "]" s) as [[op' r']|] eqn:Eu; [|discriminate].
  destruct (Re.mem op' ops || Re.mem (Re.upcase op') words) eqn:Em;
    [|discriminate].
  intros [= <- <-]. apply until_inv in Eu as [-> Hi]. now repeat split.
Qed.

Lemma paren_inv (s a r : string) :
  ReCol.paren s = Some (a, r) ->
  s = "(" ++ a ++ ")" ++ r /\ Str.all Str.is_word a = true
  /\ Str.is_empty a = false.
Proof.
  unfold ReCol.paren. destruct s as [|c s]; [discriminate|].
  destruct (Ascii.eqb c "(") eqn:E; [|discriminate].
  apply Ascii.eqb_eq in E. subst c.
  pose proof (span_app Str.is_word s) as Happ.
  pose proof (span_fst_all Str.is_word s) as Hall.
  destruct (Str.span Str.is_word s) as [a' r']; simpl in *.
  destruct (Str.is_empty a') eqn:Ee; [discriminate|].
  destruct r' as [|d r']; [discriminate|].
  destruct (Ascii.eqb d ")") eqn:Ed; [|discriminate].
  apply Ascii.eqb_eq in Ed. subst d. intros [= <- <-].
  now rewrite <- Happ.
Qed.

(** The alias and the type that the pattern of a selected column finds. *)
Lemma select_alias_type (s column alias : string) (type : option string) :
  ReCol.select s = Some (column, Some alias, type) ->
  Str.all Str.is_word alias = true /\ Str.is_empty alias = false /\
  match type with
  | Some t =>
      Str.includes "]" t = false /\
      Re.mem (Re.upcase t) ReCol.type_names = true
  | None => True
  end.
Proof.
  intros H. apply search_inv in H as (pre & s' & _ & H).
  unfold ReCol.select_at in H.
  destruct (Str.span Re.is_ref s') as [col r].
  destruct (Str.is_empty col); [discriminate|].
  destruct (ReCol.paren (snd (Str.span Str.is_space r)))
    as [[a r']|] eqn:Ep; [|discriminate].
  apply paren_inv in Ep as (_ & Ha & He).
  destruct (Re.bracket [] ReCol.type_names (snd (Str.span Str.is_space r')))
    as [[t r'']|] eqn:Eb.
  - apply bracket_inv in Eb as (_ & Hi & Hm). simpl in Hm.
    injection H as <- <- <-. now repeat split.
  - injection H as <- <- <-. now repeat split.
Qed.

(** The entry that [columnPush] leaves for an alias is read back by the
    pattern of [columnMap] as this alias and this type. *)
Lemma selected_alias (alias : string) (type : option string) :
  Str.all Str.is_word alias = true -> Str.is_empty alias = false ->
  match type with
  | Some t =>
      Str.includes "]" t = false /\
      Re.mem (Re.upcase t) ReCol.type_names = true
  | None => True
  end ->
  ReMap.selected (alias ++ typeSuffix type) = Some (alias, None, type).
Proof.
  intros Ha He Ht. apply search_head. unfold ReMap.selected_at, ReMap.column_at.
  destruct type as [t|]; cbn [typeSuffix String.append].
  - destruct Ht as [Hi Hm].
    rewrite (span_stop Str.is_word alias " " _ Ha eq_refl), He.
    cbn [Ascii.eqb Bool.eqb].
    assert (Hsp : forall x,
               Str.span Str.is_space (String " " (String "[" x))
               = (" ", String "[" x)) by reflexivity.
    rewrite Hsp. cbn [snd ReCol.paren Ascii.eqb Bool.eqb].
    rewrite Hsp. cbn [snd].
    change (String "[" (t ++ "]")) with (String "[" (t ++ String "]" "")).
    unfold Re.bracket. cbn [Ascii.eqb Bool.eqb].
    rewrite (until_app _ _ _ Hi). cbn [Re.mem List.existsb orb].
    fold (Re.mem (Re.upcase t) ReCol.type_names). now rewrite Hm.
  - rewrite append_nil_r, (span_all _ _ Ha), He. reflexivity.
Qed.

Lemma colmap_get_set (k : string) (e : string * string) (m : colmap) :
  colmap_get k (colmap_set k e m) = Some e.
Proof.
  induction m as [|[k' e'] m IH]; simpl.
  - now rewrite String.eqb_refl.
  - destruct (String.eqb k' k) eqn:E; simpl; rewrite ?E; auto.
    now rewrite String.eqb_refl.
Qed.



(** ** The chunks of [parallelSelect] *)

(** X23. The chunks of [parallelSelect] and the rows they cover.  For a
    positive chunk size smaller than the count of the rows and a number of
    parallel queries that is not negative, [parallelSelect] issues one
    [select] per chunk, the chunk [i] with the where object of the caller
    in which [LIMIT] is the offset [i * chunkSize] and the count
    [chunkSize]; the number of chunks is the number the rows need, capped
    by [maxParallel].  When [maxParallel] chunks are enough for the count,
    the chunks cover all rows; when they are not, the rows from
    [maxParallel * chunkSize] on are requested by no query: the result is
    cut, without any error. *)
Theorem parallelSelect_chunks (totalCount chunkSize maxParallel : Z)
  (where_ : value) :
  (0 < chunkSize)%Z -> (chunkSize < totalCount)%Z -> (0 <= maxParallel)%Z ->
  exists n : nat,
    parallelSelect totalCount chunkSize maxParallel where_
    = Some (List.map
              (fun i =>
                 VObj (Js.set "LIMIT"
                         (VArr [VNum (Z.of_nat i * chunkSize); VNum chunkSize])
                         (Js.own where_)))
              (List.seq 0 n)) /\
    (Z.of_nat n <= maxParallel)%Z /\
    ((totalCount <= maxParallel * chunkSize)%Z ->
     (totalCount <= Z.of_nat n * chunkSize)%Z
     /\ (Z.of_nat n * chunkSize < totalCount + chunkSize)%Z) /\
    ((maxParallel * chunkSize < totalCount)%Z ->
     Z.of_nat n = maxParallel
     /\ (Z.of_nat n * chunkSize < totalCount)%Z).
Proof.
  intros Hc Ht Hm. unfold parallelSelect.
  destruct (Z.leb_spec totalCount chunkSize) as [Hle|_]; [lia|].
  destruct (Z.eqb_spec chunkSize 0) as [E|_]; [lia|].
  exists (Z.to_nat (Z.min (- (- totalCount / chunkSize)) maxParallel)).
  split; [reflexivity|].
  pose proof (Z.div_mod (- totalCount) chunkSize ltac:(lia)) as Hdm.
  pose proof (Z.mod_pos_bound (- totalCount) chunkSize Hc) as Hmod.
  set (q := (- totalCount / chunkSize)%Z) in *.
  set (r := (- totalCount mod chunkSize)%Z) in *.
  assert (Hq : (totalCount <= - q * chunkSize < totalCount + chunkSize)%Z)
    by nia.
  assert (Hpos : (0 < - q)%Z) by nia.
  split; [lia|]. split.
  - intros Hcover.
    assert (Hqm : (- q <= maxParallel)%Z) by nia.
    rewrite Z2Nat.id by lia. rewrite Z.min_l by lia. lia.
  - intros Hcut.
    assert (Hqm : (maxParallel < - q)%Z) by nia.
    rewrite Z2Nat.id by lia. rewrite Z.min_r by lia. lia.
Qed.

(** Ten thousand rows by chunks of a thousand, five in parallel: five
    chunks, and the rows from 5000 on are not requested. *)
Lemma parallelSelect_chunks_witness :
  exists n : nat,
    parallelSelect 10000 1000 5 (VObj [("age", VNum 3)])
    = Some (List.map
              (fun i =>
                 VObj (Js.set "LIMIT"
                         (VArr [VNum (Z.of_nat i * 1000); VNum 1000])
                         (Js.own (VObj [("age", VNum 3)]))))
              (List.seq 0 n)) /\
    (Z.of_nat n <= 5)%Z /\
    ((10000 <= 5 * 1000)%Z ->
     (10000 <= Z.of_nat n * 1000)%Z
     /\ (Z.of_nat n * 1000 < 10000 + 1000)%Z) /\
    ((5 * 1000 < 10000)%Z ->
     Z.of_nat n = 5%Z /\ (Z.of_nat n * 1000 < 10000)%Z).
Proof.
  apply (parallelSelect_chunks 10000 1000 5 (VObj [("age", VNum 3)])); lia.
Defined.

(** ** The parameters through a compilation *)

Lemma extends_refl (st : cstate) : extends st st.
Proof. split; [lia | auto]. Qed.

Lemma extends_trans (a b c : cstate) :
  extends a b -> extends b c -> extends a c.
Proof. intros [H1 H2] [H3 H4]. split; [lia | auto]. Qed.

Lemma set_keys (k k' : string) v (ps : props) :
  In k (List.map fst ps) -> In k (List.map fst (Js.set k' v ps)).
Proof.
  induction ps as [|[x w] ps IH]; simpl; [contradiction|].
  destruct (String.eqb_spec x k') as [->|_]; simpl; tauto.
Qed.

Lemma assign_keys (k : string) (ps new : props) :
  In k (List.map fst ps) -> In k (List.map fst (Js.assign ps new)).
Proof.
  revert ps. induction new as [|[x w] new IH]; intros ps H; [exact H|].
  rewrite assign_cons. apply IH. now apply set_keys.
Qed.

Lemma grows_ret {A} (a : A) : grows (ret a).
Proof. intros st. apply extends_refl. Qed.

Lemma grows_throw {A} (e : error) : grows (@throw A e).
Proof. intros st. apply extends_refl. Qed.

Lemma grows_lift {A} (r : res A) : grows (lift r).
Proof. intros st. apply extends_refl. Qed.

Lemma grows_bind {A B} (m : M A) (k : A -> M B) :
  grows m -> (forall a, grows (k a)) -> grows (bind m k).
Proof.
  intros Hm Hk st. unfold bind. specialize (Hm st).
  destruct (m st) as [[a|e] st1]; simpl in Hm; [|exact Hm].
  exact (extends_trans _ _ _ Hm (Hk a st1)).
Qed.

Lemma grows_mapKey : grows mapKey.
Proof. intros st. split; simpl; [lia | auto]. Qed.

Lemma grows_bindParam (k : string) (v : value) : grows (bindParam k v).
Proof. intros st. split; simpl; [lia | intros x; apply set_keys]. Qed.

Lemma grows_forEach (f : value -> nat -> M unit) (i : nat)
  (items : list value) :
  (forall v n, grows (f v n)) -> grows (forEach f i items).
Proof.
  intros H. revert i. induction items as [|v items IH]; intros i; simpl.
  - apply grows_ret.
  - apply grows_bind; [apply H | intros _; apply IH].
Qed.

Lemma grows_buildRaw rr (v : value) : grows (buildRaw rr v).
Proof.
  destruct v; try apply grows_ret. unfold buildRaw.
  apply grows_bind; [apply grows_lift | intros query].
  apply grows_bind; [|intros _; apply grows_ret].
  destruct map as [|p m']; [apply grows_ret|].
  intros st. split; [simpl; lia|].
  intros x Hx. exact (assign_keys x (pmap st) (p :: m') Hx).
Qed.

Lemma grows_for_entries (f : string -> value -> M (list string)) (es : props) :
  List.Forall (fun kv => grows (f (fst kv) (snd kv))) es ->
  grows (for_entries f es).
Proof.
  induction 1 as [|[k v] es Hkv _ IH]; simpl; [apply grows_ret|].
  apply grows_bind; [exact Hkv | intros a].
  apply grows_bind; [exact IH | intros b; apply grows_ret].
Qed.

Lemma grows_for_items (f : string -> value -> M (list string))
  (items : list value) :
  List.Forall (fun v => forall k, grows (f k v)) items ->
  forall i, grows (for_items f i items).
Proof.
  induction 1 as [|v items Hv _ IH]; intros i; simpl; [apply grows_ret|].
  apply grows_bind; [apply Hv | intros a].
  apply grows_bind; [apply IH | intros b; apply grows_ret].
Qed.

Create HintDb grows.

#[local] Hint Resolve grows_ret grows_throw grows_lift grows_mapKey
  grows_bindParam grows_buildRaw grows_forEach grows_bind : grows.

Lemma grows_implode_leaf rr column k operator (v : value) :
  grows (implode_leaf rr column k operator v).
Proof.
  unfold implode_leaf, switch_eq, switch_not, bindItems.
  destruct operator as [op|].
  - destruct (Re.mem op [">"; ">="; "<"; "<="]); [destruct v; auto 12 with grows|].
    destruct (String.eqb op "!"); [destruct v; auto 12 with grows|].
    destruct (String.eqb op "~" || String.eqb op "!~"); [auto 12 with grows|].
    destruct (String.eqb op "<>" || String.eqb op "><"); [destruct v; auto 12 with grows|].
    destruct (String.eqb op "REGEXP"); auto 12 with grows.
  - destruct v; auto 12 with grows.
Qed.

Lemma grows_innerConjunct (rec : value -> string -> M string)
  (data : list value) (c1 c2 : string) :
  List.Forall (fun v => forall c, grows (rec v c)) data ->
  grows (innerConjunct rec data c1 c2).
Proof.
  intros H. unfold innerConjunct.
  apply grows_bind; [|intros stack; apply grows_ret].
  induction H as [|v data Hv _ IH]; simpl; [apply grows_ret|].
  apply grows_bind; [apply Hv | intros s0].
  apply grows_bind; [exact IH | intros rest; apply grows_ret].
Qed.

Lemma grows_implode_entry prefix rr (rec : value -> string -> M string)
  conj key (v : value) :
  (forall c, grows (rec v c)) ->
  match v with
  | VArr items => List.Forall (fun x => forall c, grows (rec x c)) items
  | _ => True
  end ->
  grows (implode_entry prefix rr rec conj key v).
Proof.
  intros Hv Hitems. unfold implode_entry.
  destruct (Js.is_object v && Re.logical key).
  - apply grows_bind; [|intros s0; apply grows_ret].
    destruct v as [| | | | |items| |]; try apply Hv.
    destruct items as [|[] items]; try apply Hv.
    now apply grows_innerConjunct.
  - apply grows_bind; [apply grows_mapKey | intros k].
    destruct (if Js.isIntKey key then Re.cmp (Js.to_string v) else None)
      as [[[l op] r]|].
    + destruct v; auto 12 with grows.
    + destruct (Re.key key) as [[name operator]|]; [|apply grows_throw].
      apply grows_bind; [apply grows_lift | intros column].
      apply grows_implode_leaf.
Qed.

Lemma grows_dataImplode prefix rr (data : value) :
  (forall conj, grows (dataImplode prefix rr data conj)) /\
  match data with
  | VArr items =>
      List.Forall (fun x => forall c, grows (dataImplode prefix rr x c)) items
  | _ => True
  end.
Proof.
  assert (leafy : forall es conj,
             List.Forall (fun kv => match snd kv with
                                    | VArr _ => False
                                    | _ => True
                                    end) es ->
             grows (for_entries (implode_entry prefix rr no_rec conj) es)).
  { intros es conj H. apply grows_for_entries.
    induction H as [|[k v] es Hv _ IH]; constructor; [|exact IH].
    cbn [fst snd] in *. apply grows_implode_entry.
    - intros c. apply grows_ret.
    - now destruct v. }
  assert (chars : forall s i,
             List.Forall (fun kv : string * value =>
                            match snd kv with
                            | VArr _ => False
                            | _ => True
                            end) (Js.chars i s)).
  { induction s as [|c s IH]; intros i; simpl; constructor; auto.
    exact I. }
  induction data as [| | | | |items IH|ps IH|text m IH]
    using value_nested_ind;
    (split; [|try exact I]).
  1-4: intros conj; cbn [dataImplode]; auto 12 with grows.
  - intros conj. cbn [dataImplode].
    apply grows_bind; [|intros stack; apply grows_ret].
    apply leafy. cbn [Js.own]. apply chars.
  - intros conj. cbn [dataImplode].
    apply grows_bind; [|intros stack; apply grows_ret].
    apply grows_for_items.
    induction IH as [|v items [Hv Hsub] _ IHl]; constructor; [|exact IHl].
    intros k. now apply grows_implode_entry.
  - induction IH as [|v items [Hv _] _ IHl]; constructor; assumption.
  - intros conj. cbn [dataImplode].
    apply grows_bind; [|intros stack; apply grows_ret].
    apply grows_for_entries.
    induction IH as [|[k v] ps [Hv Hsub] _ IHl]; constructor; [|exact IHl].
    now apply grows_implode_entry.
  - intros conj. cbn [dataImplode].
    apply grows_bind; [|intros stack; apply grows_ret].
    apply leafy. cbn [Js.own]. repeat constructor.
Qed.

Lemma grows_groupClause prefix rr (ps : props) :
  grows (groupClause prefix rr ps).
Proof.
  unfold groupClause. destruct (Js.truthy (Js.field "GROUP" ps)); [|auto 12 with grows].
  apply grows_bind; [destruct (Js.field "GROUP" ps); auto 12 with grows | intros g].
  destruct (Js.truthy (Js.field "HAVING" ps)); [|auto 12 with grows].
  apply grows_bind; [|intros h; auto 12 with grows].
  destruct (Js.isRaw (Js.field "HAVING" ps)); [auto 12 with grows|].
  apply grows_dataImplode.
Qed.

Lemma grows_orderClause prefix rr esc (ps : props) :
  grows (orderClause prefix rr esc ps).
Proof.
  unfold orderClause. destruct (Js.truthy (Js.field "ORDER" ps)); [|auto 12 with grows].
  destruct (Js.field "ORDER" ps); auto 12 with grows.
Qed.

(** X24. A compilation never loses a parameter.  Whatever the where
    object, and whether [whereClause] returns a clause or throws, the
    state it leaves extends the state it was called in: the counter of
    parameter names has not gone back, so that no name is generated
    twice, and every parameter name that was bound before the call is
    still bound after it.  The conditions, the [HAVING] conditions and the
    raw fragments of a statement can therefore only add parameters to
    those of the clauses compiled before them. *)
Theorem whereClause_keeps_parameters prefix rr esc (where_ : value)
  (st : cstate) :
  extends st (snd (whereClause prefix rr esc where_ st)).
Proof.
  revert st. change (grows (whereClause prefix rr esc where_)).
  assert (H : forall ps : props,
             grows
               (w <- match strip special_keys ps with
                     | [] => ret ""
                     | _ :: _ =>
                         c <- dataImplode prefix rr
                                (VObj (strip special_keys ps)) " AND" ;;
                         ret (" WHERE " ++ c)
                     end ;;
                g <- groupClause prefix rr ps ;;
                o <- orderClause prefix rr esc ps ;;
                ret (w ++ g ++ o ++ limitClause ps))).
  { intros ps.
    apply grows_bind.
    - destruct (strip special_keys ps); [auto 12 with grows|].
      apply grows_bind; [apply grows_dataImplode | intros c; auto 12 with grows].
    - intros w. apply grows_bind; [apply grows_groupClause | intros g].
      apply grows_bind; [apply grows_orderClause | intros o; auto 12 with grows]. }
  destruct where_; try apply grows_ret; try apply H.
  unfold whereClause. auto 12 with grows.
Qed.

(** ** From named to positional parameters *)

Lemma any_app (p : ascii -> bool) (a b : string) :
  Str.any p (a ++ b) = Str.any p a || Str.any p b.
Proof.
  induction a as [|c a IH]; simpl; [reflexivity|].
  now rewrite IH, orb_assoc.
Qed.

Lemma colon_free_app (a b : string) :
  colon_free (a ++ b) = colon_free a && colon_free b.
Proof.
  unfold colon_free, Str.includes. rewrite any_app. apply negb_orb.
Qed.

Lemma colon_free_class (p : ascii -> bool) (s : string) :
  p ":"%char = false -> Str.all p s = true -> colon_free s = true.
Proof.
  intros Hp. unfold colon_free, Str.includes.
  induction s as [|c s IH]; cbn [Str.any Str.all]; [reflexivity|].
  intros H. apply andb_prop in H as [Hc Hs].
  destruct (Ascii.eqb_spec ":"%char c) as [<-|_]; [congruence|].
  exact (IH Hs).
Qed.

Lemma marks_pre (t s s' : string) (names : list string) :
  colon_free t = true -> marks s names s' -> marks (t ++ s) names (t ++ s').
Proof.
  intros Ht H. destruct H as [t' Ht'|t' k s0 s0' names Ht' H].
  - apply marks_text. now rewrite colon_free_app, Ht, Ht'.
  - rewrite <- (append_assoc t t' (k ++ s0)).
    rewrite <- (append_assoc t t' ("?" ++ s0')).
    apply marks_name; [|exact H].
    now rewrite colon_free_app, Ht, Ht'.
Qed.

Lemma marks_app (a a' b b' : string) (na nb : list string) :
  marks a na a' -> marks b nb b' -> marks (a ++ b) (na ++ nb) (a' ++ b').
Proof.
  intros Ha Hb. induction Ha as [t Ht|t k s0 s0' names Ht Ha IH].
  - simpl. now apply marks_pre.
  - rewrite !append_assoc. simpl. apply marks_name; [exact Ht|].
    exact IH.
Qed.

Lemma marks_one (k : string) : marks k [k] "?".
Proof.
  pose proof (marks_name "" k "" "" [] eq_refl (marks_text "" eq_refl)) as H.
  simpl in H. now rewrite append_nil_r in H.
Qed.

Lemma marks_colon_free (s s' : string) (names : list string) :
  marks s names s' -> colon_free s' = true.
Proof.
  induction 1 as [t Ht|t k s0 s0' names Ht _ IH]; [exact Ht|].
  now rewrite !colon_free_app, Ht, IH.
Qed.

Lemma marked_text (t : string) : colon_free t = true -> marked t [].
Proof. intros H. exists t. now apply marks_text. Qed.

Lemma marked_one (k : string) : marked k [k].
Proof. exists "?". apply marks_one. Qed.

Lemma marked_app (a b : string) (na nb : list string) :
  marked a na -> marked b nb -> marked (a ++ b) (na ++ nb)%list.
Proof.
  intros [a' Ha] [b' Hb]. exists (a' ++ b'). now apply marks_app.
Qed.

Lemma marked_then_text (a t : string) (names : list string) :
  marked a names -> colon_free t = true -> marked (a ++ t) names.
Proof.
  intros Ha Ht. rewrite <- (List.app_nil_r names).
  apply marked_app; [exact Ha | now apply marked_text].
Qed.

Lemma marked_join (sep : string) (names : list string) :
  colon_free sep = true -> marked (Str.join sep names) names.
Proof.
  intros Hs. induction names as [|x [|y l] IH].
  - now apply marked_text.
  - apply marked_one.
  - change (Str.join sep (x :: y :: l))
      with (x ++ sep ++ Str.join sep (y :: l)).
    apply (marked_app x _ [x] (y :: l)); [apply marked_one|].
    apply (marked_app sep _ [] (y :: l)); [now apply marked_text | exact IH].
Qed.

Lemma join_app (sep : string) (a b : list string) :
  exists mid,
    colon_free sep = true -> colon_free mid = true /\
    Str.join sep (a ++ b)%list = Str.join sep a ++ mid ++ Str.join sep b.
Proof.
  induction a as [|x [|x' a] IH].
  - exists "". now split.
  - destruct b as [|y b].
    + exists "". intros _. split; [reflexivity|]. simpl.
      now rewrite append_nil_r.
    + exists sep. intros H. now split.
  - destruct IH as (mid & IH). exists mid. intros H.
    destruct (IH H) as [Hm E]. split; [exact Hm|].
    change (Str.join sep ((x :: x' :: a) ++ b)%list)
      with (x ++ sep ++ Str.join sep ((x' :: a) ++ b)%list).
    rewrite E.
    change (Str.join sep (x :: x' :: a))
      with (x ++ sep ++ Str.join sep (x' :: a)).
    now rewrite !append_assoc.
Qed.

Lemma marked_stack_one (frag : string) (names : list string) :
  marked frag names -> marked_stack [frag] names.
Proof. intros H sep _. exact H. Qed.

Lemma marked_stack_app (a b : list string) (na nb : list string) :
  marked_stack a na -> marked_stack b nb ->
  marked_stack (a ++ b)%list (na ++ nb)%list.
Proof.
  intros Ha Hb sep Hs. destruct (join_app sep a b) as (mid & H).
  destruct (H Hs) as [Hm ->].
  apply marked_app; [now apply Ha|].
  apply (marked_app mid _ [] nb); [now apply marked_text | now apply Hb].
Qed.

Lemma starts_self (p r : string) : Re.starts p (p ++ r) = Some r.
Proof.
  induction p as [|c p IH]; simpl; [reflexivity|].
  now rewrite Ascii.eqb_refl.
Qed.

(** The first occurrence of a name that starts with a colon, after a text
    without colon. *)
Lemma replaceText_skip (pre k by_ r : string) :
  colon_free pre = true ->
  replaceText (String ":" k) by_ (pre ++ String ":" (k ++ r))
  = pre ++ by_ ++ r.
Proof.
  unfold colon_free, Str.includes.
  induction pre as [|c pre IH]; intros H.
  - cbn [String.append replaceText Re.starts].
    rewrite Ascii.eqb_refl, starts_self. reflexivity.
  - cbn [Str.any] in H. apply negb_true_iff in H.
    apply orb_false_iff in H as [Hc Hp].
    cbn [String.append replaceText Re.starts]. rewrite Hc.
    rewrite IH by now apply negb_true_iff. reflexivity.
Qed.

Lemma positional_fold (params : props) (q : string) (vals : list value) :
  List.fold_left
    (fun acc kv =>
       (replaceText (fst kv) "?" (fst acc), (snd acc ++ [snd kv])%list))
    params (q, vals)
  = (List.fold_left (fun q kv => replaceText (fst kv) "?" q) params q,
     (vals ++ List.map snd params)%list).
Proof.
  revert q vals. induction params as [|[k v] params IH]; intros q vals.
  - simpl. now rewrite List.app_nil_r.
  - cbn [List.fold_left fst snd List.map]. rewrite IH.
    now rewrite <- List.app_assoc.
Qed.

Lemma marks_replace (s s' : string) (names : list string) :
  marks s names s' ->
  forall (params : props) (pre : string),
    List.map fst params = names ->
    (forall x, In x names -> exists k, x = String ":" k) ->
    colon_free pre = true ->
    List.fold_left (fun q kv => replaceText (fst kv) "?" q) params (pre ++ s)
    = pre ++ s'.
Proof.
  induction 1 as [t Ht|t k s0 s0' names Ht _ IH]; intros params pre Hp Hn Hpre.
  - destruct params; [reflexivity | discriminate].
  - destruct params as [|[k0 v] params]; [discriminate|].
    simpl in Hp. injection Hp as -> Hp.
    destruct (Hn k (or_introl eq_refl)) as (k' & ->).
    cbn [List.fold_left fst].
    replace (pre ++ t ++ String ":" k' ++ s0)
      with ((pre ++ t) ++ String ":" (k' ++ s0))
      by now rewrite !append_assoc.
    rewrite replaceText_skip by now rewrite colon_free_app, Hpre, Ht.
    replace ((pre ++ t) ++ "?" ++ s0) with (((pre ++ t) ++ "?") ++ s0)
      by now rewrite !append_assoc.
    rewrite (IH params ((pre ++ t) ++ "?") Hp).
    + now rewrite !append_assoc.
    + intros x Hx. apply Hn. now right.
    + now rewrite !colon_free_app, Hpre, Ht.
Qed.

Lemma generated_colon (g g' : nat) (x : string) :
  generated g g' x -> exists k, x = String ":" k.
Proof. intros (n & sfx & _ & ->). eexists. reflexivity. Qed.

Lemma rm_ret {A} (R : A -> list string -> Prop) (a : A) (g : nat) :
  R a [] -> runs_marked R (ret a) g [].
Proof.
  intros H. exists a, g, []. split; [lia|]. split; [reflexivity|].
  split; [constructor|]. split; [intros x []|]. split; [exact H|].
  intros [g0 pm] <-. reflexivity.
Qed.

Lemma rm_bind {A B} (R1 : A -> list string -> Prop)
  (R : B -> list string -> Prop) (m : M A) (k : A -> M B) g vs1 vs2 :
  runs_marked R1 m g vs1 ->
  (forall a n1 g1,
     R1 a n1 -> (g <= g1)%nat ->
     runs_marked (fun b n2 => R b (n1 ++ n2)%list) (k a) g1 vs2) ->
  runs_marked R (bind m k) g (vs1 ++ vs2)%list.
Proof.
  intros (a & g1 & new1 & Hg1 & Hv1 & Hd1 & Hn1 & HR1 & Hm) Hk.
  destruct (Hk a _ g1 HR1 Hg1)
    as (b & g2 & new2 & Hg2 & Hv2 & Hd2 & Hn2 & HR2 & Hkm).
  exists b, g2, (new1 ++ new2)%list.
  split; [lia|]. split; [now rewrite List.map_app, Hv1, Hv2|].
  split.
  { rewrite List.map_app. apply List.NoDup_app; try assumption.
    intros x H1 H2. exact (generated_disjoint _ _ _ _ (Hn1 x H1) (Hn2 x H2)). }
  split.
  { intros x. rewrite List.map_app. intros H.
    apply List.in_app_or in H as [H|H].
    - apply (generated_weaken g g g1 g2); [lia | lia | now apply Hn1].
    - apply (generated_weaken g g1 g2 g2); [lia | lia | now apply Hn2]. }
  split; [now rewrite List.map_app|].
  intros st Hst. unfold bind. rewrite (Hm st Hst).
  rewrite (Hkm (mkState g1 (Js.assign (pmap st) new1)) eq_refl).
  simpl. now rewrite assign_app.
Qed.

Lemma rm_bind_ret {A B} (R1 : A -> list string -> Prop)
  (R : B -> list string -> Prop) (m : M A) (f : A -> B) g vs :
  runs_marked R1 m g vs ->
  (forall a n, R1 a n -> R (f a) n) ->
  runs_marked R (bind m (fun a => ret (f a))) g vs.
Proof.
  intros H HR. rewrite <- (List.app_nil_r vs).
  apply (rm_bind R1 R m _ g vs []); [exact H|].
  intros a n1 g1 Ha _. apply rm_ret. rewrite List.app_nil_r. now apply HR.
Qed.

(** The column of a condition key has no colon when the prefix has
    none. *)
Lemma conditionColumn_colon_free prefix key name operator column :
  colon_free prefix = true ->
  Re.key key = Some (name, operator) ->
  conditionColumn prefix name = Ok column ->
  colon_free column = true.
Proof.
  intros Hp Hk Hc. apply search_inv in Hk as (pre & s' & _ & Hk).
  unfold Re.key_at in Hk.
  pose proof (span_fst_all Re.is_key s') as Hall.
  destruct (Str.span Re.is_key s') as [col r]; simpl in Hall.
  destruct (Str.is_empty col); [discriminate|].
  assert (E : col = name).
  { destruct (Re.bracket Re.key_ops ["REGEXP"] r) as [[op r']|];
      now injection Hk. }
  subst col. unfold conditionColumn in Hc.
  assert (Hname : colon_free name = true)
    by exact (colon_free_class Re.is_key name eq_refl Hall).
  destruct (Str.includes "(" name && Str.includes ")" name).
  { now injection Hc as <-. }
  apply columnQuote_ok in Hc
    as [(Hw & ->)|(t & c & -> & Ht & _ & Hcw & _ & ->)].
  - now rewrite !colon_free_app, Hname.
  - rewrite !colon_free_app, Hp.
    rewrite (colon_free_class Str.is_word t eq_refl Ht).
    rewrite (colon_free_class Str.is_word c eq_refl Hcw). reflexivity.
Qed.

(** The fragment of a leaf of the class, with the names of its
    parameters. *)
Lemma implode_leaf_marked rr column k operator v vals :
  colon_free column = true ->
  leafValues operator v = Some vals ->
  exists frag,
    marked frag (List.map fst (leafParams k operator v)) /\
    forall st,
      implode_leaf rr column k operator v st
      = (Ok [frag],
         mkState (guid st) (Js.assign (pmap st) (leafParams k operator v))).
Proof.
  intros Hcol. unfold leafValues.
  assert (one : forall t : string,
             colon_free t = true -> marked (column ++ t ++ k) [k]).
  { intros t Ht. apply (marked_app column _ [] [k]);
      [now apply marked_text|].
    apply (marked_app t _ [] [k]); [now apply marked_text|].
    apply marked_one. }
  assert (many : forall (t : string) (items : list value),
             colon_free t = true ->
             marked (column ++ t ++ placeholders k items ++ ")")
                    (List.map fst (itemParams k items))).
  { intros t items Ht. rewrite placeholders_names.
    apply (marked_app column _ []); [now apply marked_text|].
    apply (marked_app t _ []); [now apply marked_text|].
    apply marked_then_text; [now apply marked_join | reflexivity]. }
  assert (range : forall t : string,
             colon_free t = true ->
             marked ("(" ++ t ++ " BETWEEN " ++ k ++ "a AND " ++ k ++ "b)")
                    [k ++ "a"; k ++ "b"]).
  { intros t Ht.
    replace ("(" ++ t ++ " BETWEEN " ++ k ++ "a AND " ++ k ++ "b)")
      with (("(" ++ t ++ " BETWEEN ") ++ (k ++ "a") ++ " AND "
              ++ (k ++ "b") ++ ")")
      by (rewrite !append_assoc; reflexivity).
    apply (marked_app _ _ [] [k ++ "a"; k ++ "b"]).
    { apply marked_text. now rewrite !colon_free_app, Ht. }
    apply (marked_app _ _ [k ++ "a"] [k ++ "b"]); [apply marked_one|].
    apply (marked_app " AND " _ [] [k ++ "b"]); [now apply marked_text|].
    apply (marked_app _ ")" [k ++ "b"] []);
      [apply marked_one | now apply marked_text]. }
  destruct v as [| |b|n|s|items|ps|text m]; try discriminate.
  1-3: destruct (is_equality operator) eqn:Ee;
    [ apply is_equality_cases in Ee as [-> | ->]; intros _;
      eexists; (split; [|intros st; reflexivity]);
      cbn [leafParams List.map fst]; apply one; reflexivity
    | destruct operator as [op|]; [|discriminate];
      destruct (Re.mem op [">"; ">="; "<"; "<="; "REGEXP"]) eqn:Em;
        [|discriminate];
      apply mem_In in Em; simpl in Em;
      destruct Em as [<-|[<-|[<-|[<-|[<-|[]]]]]]; intros _;
      eexists; (split; [|intros st; reflexivity]);
      cbn [leafParams List.map fst];
      (apply (one " > ") || apply (one " >= ") || apply (one " < ")
       || apply (one " <= ") || apply (one " REGEXP ")); reflexivity ].
  destruct (List.forallb scalar items); [|discriminate].
  destruct (is_equality operator) eqn:Ee.
  - apply is_equality_cases in Ee as [-> | ->]; intros _.
    + exists (column ++ " IN (" ++ placeholders k items ++ ")").
      split; [now apply many|].
      intros st. simpl. unfold switch_eq, bind.
      now rewrite bindItems_run.
    + exists (column ++ " NOT IN (" ++ placeholders k items ++ ")").
      split; [now apply many|].
      intros st. simpl. unfold switch_not, bind.
      now rewrite bindItems_run.
  - destruct (is_range operator) eqn:Er; [|discriminate].
    intros _. unfold leafParams. rewrite Er.
    apply is_range_cases in Er as [-> | ->].
    + exists ("(" ++ column ++ " BETWEEN " ++ k ++ "a AND " ++ k ++ "b)").
      split; [now apply range|]. intros st. reflexivity.
    + exists ("(" ++ (column ++ " NOT") ++ " BETWEEN " ++ k ++ "a AND "
                ++ k ++ "b)").
      split; [|intros st; reflexivity].
      apply range. now rewrite colon_free_app, Hcol.
Qed.

Lemma rm_leaf_entry prefix rr rec conj key v vals g :
  colon_free prefix = true ->
  leafEntry prefix key v = Some vals ->
  Js.is_object v && Re.logical key = false ->
  runs_marked marked_stack (implode_entry prefix rr rec conj key v) g vals.
Proof.
  unfold leafEntry. intros Hp H Hl.
  destruct (Js.isIntKey key) eqn:Hi; [discriminate|].
  destruct (Re.key key) as [[name operator]|] eqn:Hk; [|discriminate].
  destruct (conditionColumn prefix name) as [column|] eqn:Hc; [|discriminate].
  pose proof (conditionColumn_colon_free _ _ _ _ _ Hp Hk Hc) as Hcol.
  destruct (implode_leaf_marked rr column (paramName g) operator v vals Hcol H)
    as (frag & Hm & Hrun).
  exists [frag], (S g), (leafParams (paramName g) operator v).
  split; [lia|]. split; [now apply leafParams_values|].
  split; [apply leafParams_NoDup|].
  split.
  { intros x Hx. destruct (leafParams_names _ _ _ _ Hx) as (sfx & ->).
    exists g, sfx. split; [lia | reflexivity]. }
  split; [now apply marked_stack_one|].
  intros st <-.
  rewrite (implode_entry_leaf _ _ _ _ _ _ _ _ _ _ Hl Hi Hk Hc).
  exact (Hrun (mkState (S (guid st)) (pmap st))).
Qed.

Lemma relationship_colon_free (key : string) :
  colon_free (" " ++ Re.relationship key) = true.
Proof.
  unfold Re.relationship, Re.logical_head.
  destruct (Re.starts "AND" key); [reflexivity|].
  now destruct (Re.starts "OR" key).
Qed.

Lemma rm_entries prefix rr conj (ps : props) :
  colon_free prefix = true ->
  List.Forall
    (fun kv =>
       forall vs conj g,
         colon_free conj = true ->
         leaves prefix (snd kv) = Some vs ->
         runs_marked marked (dataImplode prefix rr (snd kv) conj) g vs) ps ->
  forall vs g,
    collect
      (fun key v =>
         if Js.is_object v && Re.logical key
         then match v with
              | VObj _ => leaves prefix v
              | _ => None
              end
         else leafEntry prefix key v) ps = Some vs ->
    runs_marked marked_stack
      (for_entries (implode_entry prefix rr (dataImplode prefix rr) conj) ps)
      g vs.
Proof.
  intros Hp. induction 1 as [|[key v] ps Hv _ IH]; intros vs g; cbn [collect].
  - intros [= <-]. apply rm_ret. intros sep _. now apply marked_text.
  - cbn [snd] in Hv.
    assert (rest : forall b a n1 g1,
               collect
                 (fun key v =>
                    if Js.is_object v && Re.logical key
                    then match v with
                         | VObj _ => leaves prefix v
                         | _ => None
                         end
                    else leafEntry prefix key v) ps = Some b ->
               marked_stack a n1 ->
               runs_marked (fun b0 n2 => marked_stack b0 (n1 ++ n2)%list)
                 (b0 <- for_entries
                          (implode_entry prefix rr (dataImplode prefix rr) conj)
                          ps ;;
                  ret (a ++ b0)%list) g1 b).
    { intros b a n1 g1 Eb Ha.
      apply (rm_bind_ret marked_stack); [exact (IH b g1 Eb)|].
      intros b0 n Hb0. now apply marked_stack_app. }
    destruct (Js.is_object v && Re.logical key) eqn:El.
    + destruct v as [| | | | | |ps'|]; try discriminate.
      destruct (leaves prefix (VObj ps')) as [a|] eqn:Ea; [|discriminate].
      destruct (collect _ ps) as [b|] eqn:Eb; [|discriminate].
      intros [= <-]. cbn [for_entries].
      apply (rm_bind marked_stack).
      * apply andb_prop in El as [_ El].
        rewrite (implode_entry_group _ _ _ _ _ _ El).
        apply (rm_bind_ret marked).
        -- apply Hv; [apply relationship_colon_free | reflexivity].
        -- intros s n Hs. apply marked_stack_one.
           apply (marked_app "(" _ [] n); [now apply marked_text|].
           now apply marked_then_text.
      * intros a0 n1 g1 Ha0 _. now apply rest.
    + destruct (leafEntry prefix key v) as [a|] eqn:Ea; [|discriminate].
      destruct (collect _ ps) as [b|] eqn:Eb; [|discriminate].
      intros [= <-]. cbn [for_entries].
      apply (rm_bind marked_stack).
      * now apply rm_leaf_entry.
      * intros a0 n1 g1 Ha0 _. now apply rest.
Qed.

Lemma rm_tree prefix rr (tree : value) :
  colon_free prefix = true ->
  forall vs conj g,
    colon_free conj = true ->
    leaves prefix tree = Some vs ->
    runs_marked marked (dataImplode prefix rr tree conj) g vs.
Proof.
  intros Hp.
  induction tree as [| | | | |items IH|ps IH|text m IH]
    using value_nested_ind; intros vs conj g Hc; try discriminate.
  cbn [leaves dataImplode]. intros H.
  apply (rm_bind_ret marked_stack).
  - exact (rm_entries prefix rr conj ps Hp IH vs g H).
  - intros stack n Hs. apply Hs. now rewrite colon_free_app, Hc.
Qed.

(** X25. From named parameters to the positional parameters of the
    driver.  Take a condition tree of the class of plain conditions, a
    prefix and a conjunction without colon.  The expression that
    [dataImplode] compiles from an empty parameter object is a sequence
    of texts without colon with the generated parameter names between
    them, in the order in which the parameters were bound; the conversion
    of [exec] replaces each name, in its place, by a question mark, so
    that the statement handed to the driver holds no parameter name any
    more and exactly one question mark per parameter, and the list of
    values it passes with it is the list of the leaf values of the tree,
    in the order of their question marks. *)
Theorem plain_conditions_become_positional prefix rr tree vs conj g :
  Str.includes ":" prefix = false ->
  Str.includes ":" conj = false ->
  leaves prefix tree = Some vs ->
  exists sql g' pm text,
    dataImplode prefix rr tree conj (mkState g []) = (Ok sql, mkState g' pm)
    /\ positional sql pm = (text, vs)
    /\ marks sql (List.map fst pm) text
    /\ Str.includes ":" text = false.
Proof.
  intros Hp Hc H.
  assert (Hp' : colon_free prefix = true) by (unfold colon_free; now rewrite Hp).
  assert (Hc' : colon_free conj = true) by (unfold colon_free; now rewrite Hc).
  destruct (rm_tree prefix rr tree Hp' vs conj g Hc' H)
    as (sql & g' & new & Hg & Hv & Hd & Hn & (text & Hm) & Hrun).
  exists sql, g', new, text.
  split.
  { rewrite (Hrun (mkState g []) eq_refl). cbn [pmap].
    rewrite assign_fresh; auto. }
  split.
  { unfold positional. rewrite positional_fold. cbn [List.app].
    rewrite Hv. f_equal.
    apply (marks_replace _ _ _ Hm new "" eq_refl); [|reflexivity].
    intros x Hx. exact (generated_colon _ _ _ (Hn x Hx)). }
  split; [exact Hm|].
  apply marks_colon_free in Hm. unfold colon_free in Hm.
  now apply negb_true_iff in Hm.
Qed.

(** The condition [{ age: 25, role: 'admin' }]. *)
Lemma plain_conditions_become_positional_witness :
  exists sql g' pm text,
    dataImplode "" Ok (VObj [("age", VNum 25); ("role", VStr "admin")]) " AND"
      (mkState 0 [])
    = (Ok sql, mkState g' pm)
    /\ positional sql pm = (text, [VNum 25; VStr "admin"])
    /\ marks sql (List.map fst pm) text
    /\ Str.includes ":" text = false.
Proof.
  apply (plain_conditions_become_positional "" Ok
           (VObj [("age", VNum 25); ("role", VStr "admin")])
           [VNum 25; VStr "admin"] " AND" 0);
    reflexivity.
Defined.

(** ** The rows that [select] and [get] return *)

Lemma set_indexed (i : nat) (l : list value) (v : value) :
  Js.set (Str.of_nat (i + List.length l)) v (Js.indexed i l)
  = Js.indexed i (l ++ [v])%list.
Proof.
  revert i. induction l as [|x l IH]; intros i; simpl.
  - now rewrite Nat.add_0_r.
  - destruct (String.eqb_spec (Str.of_nat i) (Str.of_nat (i + S (List.length l))))
      as [E|_].
    + apply of_nat_inj in E. lia.
    + replace (i + S (List.length l))%nat with (S i + List.length l)%nat
        by lia.
      now rewrite IH.
Qed.

Lemma fold_push {A} (f : A -> value) (rows : list A) (l : list value) :
  List.fold_left (fun r data => push (f data) r) rows
    (mkArray (List.length l) (Js.indexed 0 l))
  = mkArray (List.length l + List.length rows)
      (Js.indexed 0 (l ++ List.map f rows)%list).
Proof.
  revert l. induction rows as [|data rows IH]; intros l; simpl.
  - now rewrite Nat.add_0_r, List.app_nil_r.
  - unfold push at 2. cbn [alength aitems].
    change (Str.of_nat (List.length l))
      with (Str.of_nat (0 + List.length l)).
    rewrite (set_indexed 0 l (f data)).
    replace (S (List.length l)) with (List.length (l ++ [f data])%list)
      by (rewrite List.length_app; simpl; lia).
    rewrite IH, List.length_app, <- List.app_assoc. simpl.
    f_equal. lia.
Qed.

Lemma fold_left_same {A B} (f g : A -> B -> A) (l : list B) (a : A) :
  (forall x y, f x y = g x y) -> List.fold_left f l a = List.fold_left g l a.
Proof.
  intros H. revert a. induction l as [|y l IH]; intros a; simpl;
    [reflexivity | now rewrite H, IH].
Qed.

(** The mapping of a row through a flat object: every key holds a copy of
    the row. *)
Lemma dataMap_entries_flat jp pf pi (data : props) (ps stack : props) :
  List.forallb (fun kv => negb (Js.isIntKey (fst kv))
                          && match snd kv with
                             | VObj _ | VRaw _ _ => false
                             | _ => true
                             end) ps = true ->
  NoDup (List.map fst ps) ->
  (forall k, In k (List.map fst ps) -> ~ In k (List.map fst stack)) ->
  dataMap_entries jp pf pi data []
    (fun v => dataMap jp pf pi data [] v []) ps stack
  = (stack ++ List.map (fun kv => (fst kv, VObj (Js.assign [] data))) ps)%list.
Proof.
  revert stack. induction ps as [|[k v] ps IH]; intros stack Hf Hnd Hdis.
  - simpl. now rewrite List.app_nil_r.
  - simpl in Hf. apply andb_prop in Hf as [Hkv Hf].
    apply andb_prop in Hkv as [Hk Hv]. apply negb_true_iff in Hk.
    simpl in Hnd. inversion Hnd as [|? ? Hnk Hnd']; subst.
    cbn [dataMap_entries]. rewrite Hk.
    assert (Hr : Js.isRaw v = false) by (now destruct v).
    rewrite Hr. cbn [orb].
    rewrite set_fresh by (apply Hdis; now left).
    rewrite IH; [| exact Hf | exact Hnd' |].
    + rewrite <- List.app_assoc. cbn [List.app List.map fst].
      do 3 f_equal. now destruct v.
    + intros x Hx. rewrite List.map_app. intros Hin.
      apply List.in_app_or in Hin as [Hin|[<-|[]]].
      * apply (Hdis x); [now right | exact Hin].
      * exact (Hnk Hx).
Qed.

Lemma columnMap_entries_flat (single : bool) (es : props) (stack : colmap) :
  List.forallb (fun kv => negb (Js.isIntKey (fst kv))
                          && match snd kv with
                             | VObj _ | VRaw _ _ => false
                             | _ => true
                             end) es = true ->
  single = false
  \/ List.forallb (fun kv => match snd kv with
                             | VArr _ => false
                             | _ => true
                             end) es = true ->
  columnMap_entries true single es stack = Ok stack.
Proof.
  induction es as [|[k v] es IH]; intros Hf Hs; [reflexivity|].
  simpl in Hf. apply andb_prop in Hf as [Hkv Hf].
  apply andb_prop in Hkv as [Hk Hv]. apply negb_true_iff in Hk.
  cbn [columnMap_entries]. unfold columnMap_entry. rewrite Hk.
  assert (Hr : Js.isRaw v = false) by (now destruct v). rewrite Hr.
  assert (Hs' : single = false
                \/ List.forallb (fun kv => match snd kv with
                                           | VArr _ => false
                                           | _ => true
                                           end) es = true).
  { destruct Hs as [Hs|Hs]; [now left|]. right. simpl in Hs.
    now apply andb_prop in Hs as [_ Hs]. }
  destruct v; try exact (IH Hf Hs'); try discriminate.
  destruct Hs as [-> | Hs]; [exact (IH Hf Hs')|].
  simpl in Hs. discriminate.
Qed.

Lemma flatWhere_map (ps : props) :
  flatWhere ps = true -> buildColumnMap (VObj ps) = Ok [].
Proof.
  unfold flatWhere, buildColumnMap. intros H.
  apply andb_prop in H as [Hf Hs]. cbn [Js.truthy Js.is_object andb columnMap
                                        Js.own].
  apply columnMap_entries_flat; [exact Hf|].
  destruct ps as [|[k v] [|p ps]]; [now left | right | now left].
  simpl. now destruct v.
Qed.

Lemma flatWhere_root jp pf pi (data : props) (ps : props) (cm : colmap)
  (r : jsarray) :
  flatWhere ps = true ->
  dataMapRoot jp pf pi data (VObj ps) cm r
  = push (VObj (dataMap jp pf pi data cm (VObj ps) [])) r.
Proof.
  unfold flatWhere, dataMapRoot. cbn [Js.own]. intros H.
  apply andb_prop in H as [_ Hs].
  destruct ps as [|[k v] [|p ps]]; try reflexivity.
  - destruct v; try reflexivity. discriminate.
  - now destruct v.
Qed.

Lemma flatWhere_wrapped jp pf pi (data : props) (ps : props) :
  flatWhere ps = true -> NoDup (List.map fst ps) ->
  VObj (dataMap jp pf pi data [] (VObj ps) []) = wrapped ps data.
Proof.
  unfold flatWhere, wrapped. intros H Hnd. apply andb_prop in H as [Hf _].
  cbn [dataMap]. rewrite dataMap_entries_flat; auto.
Qed.





(** ** The statement of a plain [select] *)

Lemma columnQuote_ident prefix (c : string) :
  Str.all Str.is_word c = true -> Str.is_empty c = false ->
  columnQuote prefix c = Ok (Str.dq ++ c ++ Str.dq).
Proof.
  intros Hc He. rewrite columnQuote_spec. unfold QuoterSpec.quoteColumn.
  rewrite (segments_ident _ Hc). unfold QuoterSpec.ident.
  now rewrite Hc, He.
Qed.

Lemma select_ident (c : string) :
  Str.all Str.is_word c = true -> Str.is_empty c = false ->
  ReCol.select c = Some (c, None, None).
Proof.
  intros Hc He. apply search_head. unfold ReCol.select_at.
  assert (Hr : Str.all Re.is_ref c = true).
  { apply (all_impl Str.is_word); [|exact Hc].
    intros x Hx. unfold Re.is_ref. now rewrite Hx. }
  rewrite (span_all _ _ Hr), He. reflexivity.
Qed.

Lemma columnPush_idents prefix rr rec (single : bool) (cols : list string)
  (i : nat) st :
  List.forallb (fun c => Str.all Str.is_word c && negb (Str.is_empty c)) cols
  = true ->
  for_column_items (column_entry prefix rr rec true false single) i
    (List.map VStr cols) st
  = (Ok (List.map (fun c => Str.dq ++ c ++ Str.dq) cols, List.map VStr cols),
     st).
Proof.
  revert i. induction cols as [|c cols IH]; intros i H; [reflexivity|].
  simpl in H. apply andb_prop in H as [Hc Hcols].
  apply andb_prop in Hc as [Hc He]. apply negb_true_iff in He.
  cbn [List.map for_column_items]. unfold bind at 1.
  unfold column_entry at 1. rewrite isIntKey_of_nat. cbn [andb].
  rewrite (select_ident _ Hc He). unfold bind at 1. unfold lift at 1.
  rewrite (columnQuote_ident _ _ Hc He). unfold ret at 1.
  unfold bind. rewrite (IH (S i) Hcols). reflexivity.
Qed.





(** X30. [exec] replaces the first occurrence of a parameter name only.
    For a statement in which a parameter name that starts with a colon
    comes after a text without colon, the conversion of [exec] puts a
    question mark in the place of this occurrence and passes the value of
    the parameter once; the text that follows the occurrence is left as it
    is, so that a name written twice, as a raw fragment may do, is still
    in the statement handed to the driver, with no value for it. *)
Theorem exec_replaces_first_occurrence_only (before name after : string)
  (v : value) :
  Str.includes ":" before = false ->
  positional (before ++ String ":" (name ++ after)) [(String ":" name, v)]
  = (before ++ "?" ++ after, [v]).
Proof.
  intros H. unfold positional. cbn [List.fold_left fst snd List.app].
  rewrite replaceText_skip; [reflexivity|].
  unfold colon_free. now rewrite H.
Qed.

(** The fragment [a = :x OR b = :x]. *)
Lemma exec_replaces_first_occurrence_only_witness :
  positional ("a = " ++ String ":" ("x" ++ " OR b = :x")) [(":x", VNum 1)]
  = ("a = " ++ "?" ++ " OR b = :x", [VNum 1]).
Proof.
  apply (exec_replaces_first_occurrence_only "a = " "x" " OR b = :x"
           (VNum 1)).
  reflexivity.
Defined.

(** ** The operator [REGEXP] *)

Lemma upper_bracket (c : ascii) :
  Ascii.eqb "]" (Re.upper c) = Ascii.eqb "]" c.
Proof. destruct c as [[] [] [] [] [] [] [] []]; reflexivity. Qed.

Lemma upcase_bracket (s : string) :
  Str.includes "]" (Re.upcase s) = Str.includes "]" s.
Proof.
  unfold Str.includes. induction s as [|c s IH]; [reflexivity|].
  cbn [Re.upcase Str.any]. now rewrite upper_bracket, IH.
Qed.

(** X7. [REGEXP] is matched without regard to case but compiled in upper
    case only.  A key made of a column reference and of the bracketed
    word [REGEXP], in any mix of cases, is a condition key with this
    word as its operator; the entry compiles to [column REGEXP :param],
    the value bound unchanged, when the word is written in upper case,
    and otherwise pushes no fragment and binds no parameter, without any
    exception: the condition is left out of the statement.  One parameter
    name is consumed in both cases. *)
Theorem regexp_operator prefix rr rec conj name op column v st :
  Str.all Re.is_key name = true -> Str.is_empty name = false ->
  Re.upcase op = "REGEXP" ->
  conditionColumn prefix name = Ok column ->
  Re.key (name ++ "[" ++ op ++ "]") = Some (name, Some op) /\
  implode_entry prefix rr rec conj (name ++ "[" ++ op ++ "]") v st
  = if String.eqb op "REGEXP"
    then (Ok [column ++ " REGEXP " ++ paramName (guid st)],
          mkState (S (guid st)) (Js.set (paramName (guid st)) v (pmap st)))
    else (Ok [], mkState (S (guid st)) (pmap st)).
Proof.
  intros Hn He Hop Hc.
  assert (Hk : Re.key (name ++ "[" ++ op ++ "]") = Some (name, Some op)).
  { apply search_head. unfold Re.key_at. cbn [String.append].
    rewrite (span_stop Re.is_key name "[" _ Hn eq_refl), He.
    unfold Re.bracket. cbn [Ascii.eqb Bool.eqb].
    change (op ++ "]") with (op ++ String "]" "").
    rewrite until_app
      by (rewrite <- upcase_bracket, Hop; reflexivity).
    rewrite Hop. cbn [Re.mem List.existsb String.eqb Ascii.eqb Bool.eqb orb].
    now rewrite orb_true_r. }
  split; [exact Hk|].
  rewrite (implode_entry_operator _ _ _ _ _ _ _ _ _ _ Hk Hc).
  assert (F : forall x, Re.upcase x <> "REGEXP" -> String.eqb op x = false)
    by (intros x; now apply eqb_upcase).
  unfold implode_leaf, Re.mem. cbn [List.existsb].
  rewrite (F ">"), (F ">="), (F "<"), (F "<="), (F "!"), (F "~"), (F "!~"),
    (F "<>"), (F "><") by (vm_compute; discriminate).
  cbn [orb]. now destruct (String.eqb op "REGEXP").
Qed.

(** The entry ['name[regexp]': '^a'] is a condition that compiles to
    nothing. *)
Lemma regexp_operator_witness :
  Re.key ("name" ++ "[" ++ "regexp" ++ "]") = Some ("name", Some "regexp") /\
  implode_entry "" Ok (fun _ _ => ret "") " AND"
    ("name" ++ "[" ++ "regexp" ++ "]") (VStr "^a") (mkState 0 [])
  = (Ok [], mkState 1 []).
Proof.
  exact (regexp_operator "" Ok (fun _ _ => ret "") " AND" "name" "regexp"
           (Str.dq ++ "name" ++ Str.dq) (VStr "^a") (mkState 0 [])
           eq_refl eq_refl eq_refl eq_refl).
Defined.
